(** * Show, Edit and Tell: self-critical training of the DAE caption editor

    A shallow embedding of [dcnet_rl.py]: the scoring strings
    ([array_to_str], [preprocess_gd]), the self-critical reward
    ([get_self_critical_reward]), the masked policy-gradient loss
    ([RewardCriterion.forward]), the decoding loop of [DAE.forward], the
    validity mask of [CaptionEncoder.forward], the beam search of
    [evaluate], one batch of [train], the items of [COCOTrainDataset], the
    two functions on the learning rate, [save_checkpoint], the load of the
    checkpoint, the files [evaluate] writes and the loop over the epochs.

    Conventions.
    - A LongTensor is a list (of lists) of [Z]; a float tensor is a list (of
      lists) of [Q]: arithmetic on scores is exact, rounding is not modelled.
    - A Python exception is [None], and [Raise] where a loop needs fuel.
    - The learned layers (embedding, LSTM cells, attention, linear maps) and
      the external CIDEr-D scorer are parameters of the sections that use
      them.
    - [word_map] is a dictionary from words to ids, a [gmap string Z]. *)

From Stdlib Require Import ZArith QArith String Ascii Decimal DecimalString
  DecimalPos DecimalZ Lia.
From stdpp Require Import base option list gmap strings sorting.

Open Scope Z_scope.

(** ** Part I: the program *)

(** *** Python primitives *)

Module Py.

(** [str(n)] for an integer. *)
Definition str (n : Z) : string := NilZero.string_of_int (Z.to_int n).

(** The characters [str.strip()] removes among the first 128 code points. *)
Definition is_space (c : ascii) : bool :=
  let n := nat_of_ascii c in
  ((9 <=? n)%nat && (n <=? 13)%nat) || ((28 <=? n)%nat && (n <=? 32)%nat).

Fixpoint lstrip (s : string) : string :=
  match s with
  | EmptyString => EmptyString
  | String c s' => if is_space c then lstrip s' else s
  end.

Fixpoint rstrip (s : string) : string :=
  match s with
  | EmptyString => EmptyString
  | String c s' =>
      match rstrip s' with
      | EmptyString => if is_space c then EmptyString else String c EmptyString
      | r => String c r
      end
  end.

(** [s.strip()] *)
Definition strip (s : string) : string := rstrip (lstrip s).

(** [sep.join(l)] *)
Definition join (sep : string) (l : list string) : string := String.concat sep l.

End Py.

(** *** Scoring strings *)

(** [array_to_str]: the loop appends [str(arr[i]) + ' '] and only then tests
    [arr[i] == 0]. *)
Fixpoint array_to_str_loop (arr : list Z) (out : string) : string :=
  match arr with
  | [] => out
  | a :: rest =>
      let out := out +:+ Py.str a +:+ " " in
      if a =? 0 then out else array_to_str_loop rest out
  end.

Definition array_to_str (arr : list Z) : string :=
  Py.strip (array_to_str_loop arr EmptyString).

(** The two comprehensions of [preprocess_gd] on one caption.  The set
    [{word_map['<start>'], word_map['<pad>']}] is rebuilt for every word, so a
    missing key raises only when the caption has a word. *)
Definition drop_start_pad (word_map : gmap string Z) (c : list Z)
  : option (list Z) :=
  keep ← mapM (fun w =>
            s ← word_map !! "<start>";
            p ← word_map !! "<pad>";
            Some (w, negb ((w =? s) || (w =? p)))) c;
  Some (fst <$> filter (fun wb => snd wb = true) keep).

Definition end_to_zero (word_map : gmap string Z) (c : list Z)
  : option (list Z) :=
  mapM (fun w => e ← word_map !! "<end>";
                 Some (if negb (w =? e) then w else 0)) c.

(** [preprocess_gd(allcaps, word_map)]; [allcaps] has shape
    (batch_size, 5, max_len). *)
Definition preprocess_gd (allcaps : list (list (list Z)))
    (word_map : gmap string Z) : option (list (list (list Z))) :=
  mapM (fun img_caps =>
          img_captions ← mapM (drop_start_pad word_map) img_caps;
          mapM (end_to_zero word_map) img_captions) allcaps.

(** Reading of the specification: the ids before the first 0, and the ids up
    to and with the first 0. *)
Fixpoint before_first_zero (arr : list Z) : list Z :=
  match arr with
  | [] => []
  | a :: rest => if a =? 0 then [] else a :: before_first_zero rest
  end.

Fixpoint through_first_zero (arr : list Z) : list Z :=
  match arr with
  | [] => []
  | a :: rest => if a =? 0 then [a] else a :: through_first_zero rest
  end.

Definition ids_to_str (ids : list Z) : string := Py.join " " (Py.str <$> ids).

(** One reference caption without the ids [s] and [p], and with [e] turned
    into 0. *)
Definition strip_caption (s p e : Z) (c : list Z) : list Z :=
  (fun w => if negb (w =? e) then w else 0)
  <$> filter (fun w => negb ((w =? s) || (w =? p)) = true) c.

(** *** Tensor primitives *)

Module Torch.

(** [torch.sum] of a flat float tensor. *)
Definition sum (l : list Q) : Q := foldr Qplus 0%Q l.

(** An elementwise operation on two flat tensors: the sizes agree, or one of
    them is 1 and that operand is broadcast; anything else raises. *)
Definition pointwise (f : Q -> Q -> Q) (a b : list Q) : option (list Q) :=
  if decide (length a = length b) then Some (zip_with f a b)
  else match a, b with
       | [x], _ => Some (f x <$> b)
       | _, [y] => Some ((fun x => f x y) <$> a)
       | _, _ => None
       end.

(** [t.view(-1)] of a contiguous matrix. *)
Definition view_flat {A} (t : list (list A)) : list A := concat t.

(** [(t > 0).float()] *)
Definition gt0 (w : Z) : Q := if 0 <? w then 1%Q else 0%Q.

End Torch.

(** *** The policy-gradient loss *)

Module RewardCriterion.

(** [mask = (seq>0).float()] followed by
    [torch.cat([mask.new(mask.size(0), 1).fill_(1), mask[:, :-1]], 1)]. *)
Definition shifted_mask (seq : list (list Z)) : list (list Q) :=
  let mask := fmap Torch.gt0 <$> seq in
  (fun row => 1%Q :: removelast row) <$> mask.

Definition forward (sample_logprobs : list (list Q)) (seq : list (list Z))
    (reward : list (list Q)) : option Q :=
  let sample_logprobs := Torch.view_flat sample_logprobs in
  let reward := Torch.view_flat reward in
  let mask := Torch.view_flat (shifted_mask seq) in
  output ← Torch.pointwise Qmult (Qopp <$> sample_logprobs) reward;
  output ← Torch.pointwise Qmult output mask;
  Some (Torch.sum output / Torch.sum mask)%Q.

End RewardCriterion.

(** A matrix of [B] rows and [L] columns. *)
Definition shape {A} (B L : nat) (t : list (list A)) : Prop :=
  length t = B /\ Forall (fun row => length row = L) t.

(** Reading of the specification of the loss: the entry [t] of the shifted
    mask of one row, and sums over the positions of a matrix. *)
Definition spec_mask (row : list Z) (t : nat) : Q :=
  match t with
  | O => 1%Q
  | S t' => if 0 <? nth t' row 0 then 1%Q else 0%Q
  end.

Definition at2 {A} (d : A) (t : list (list A)) (b i : nat) : A :=
  nth i (nth b t []) d.

Definition sum2 (B L : nat) (f : nat -> nat -> Q) : Q :=
  Torch.sum ((fun b => Torch.sum (f b <$> seq 0 L)) <$> seq 0 B).

Definition spec_loss (B L : nat) (logprob : list (list Q))
    (sq : list (list Z)) (advantage : list (list Q)) : Q :=
  (- sum2 B L (fun b t => at2 0%Q logprob b t * at2 0%Q advantage b t
                          * spec_mask (nth b sq []) t)
   / sum2 B L (fun b t => spec_mask (nth b sq []) t))%Q.

(** *** The self-critical reward *)

(** [for i in is: s = body(i, s)], stopping at the first exception. *)
Fixpoint for_loop {S} (indices : list nat) (body : nat -> S -> option S)
    (s : S) : option S :=
  match indices with
  | [] => Some s
  | i :: rest => s' ← body i s; for_loop rest body s'
  end.

Definition for_range {S} (n : nat) (body : nat -> S -> option S) (s : S)
  : option S :=
  for_loop (seq 0 n) body s.

(** [t.shape[1]] of a matrix given by its rows. *)
Definition ncols {A} (t : list (list A)) : nat :=
  match t with
  | [] => O
  | row :: _ => length row
  end.

Section Reward.

(** The score CIDEr-D gives one hypothesis entry against its references; the
    document frequencies come from a cache loaded once, so the score of an
    entry depends on nothing else. *)
Variable metric : list string -> list string -> Q.

(** Modelled from the spec: [CiderD.compute_score(gts, res_)] of the
    [pyciderevalcap] package, which is not part of [dcnet_rl.py].  Every entry
    of [res_] is scored against the references stored under its [image_id];
    the result is the mean and the array of the scores. *)
Definition CiderD_compute_score (gts : gmap nat (list string))
    (res_ : list (nat * list string)) : option (Q * list Q) :=
  scores ← mapM (fun r => refs ← gts !! r.1; Some (metric r.2 refs)) res_;
  Some ((Torch.sum scores / inject_Z (Z.of_nat (length scores)))%Q, scores).

(** The dictionaries [res] and [gts] as built by the first three loops. *)
Definition build_res (gen_result greedy_res : list (list Z))
  : option (gmap nat (list string)) :=
  let batch_size := length gen_result in
  res ← for_range batch_size (fun i res =>
           row ← gen_result !! i;
           Some (<[i := [array_to_str row]]> res)) ∅;
  for_range batch_size (fun i res =>
     row ← greedy_res !! i;
     Some (<[(batch_size + i)%nat := [array_to_str row]]> res)) res.

Definition build_gts (ground_truth : list (list (list Z)))
  : option (gmap nat (list string)) :=
  for_range (length ground_truth) (fun i gts =>
     caps ← ground_truth !! i;
     Some (<[i := array_to_str <$> caps]> gts)) ∅.

(** The two arguments of the one call of the scorer: [gts] after the
    duplication [{i: gts[i % batch_size] ...}] and the list [res_]. *)
Definition scorer_inputs (gen_result greedy_res : list (list Z))
    (ground_truth : list (list (list Z)))
  : option (gmap nat (list string) * list (nat * list string)) :=
  let batch_size := length gen_result in
  res ← build_res gen_result greedy_res;
  gts ← build_gts ground_truth;
  res_ ← mapM (fun i => caption ← res !! i; Some (i, caption))
              (seq 0 (2 * batch_size));
  gts ← for_range (2 * batch_size) (fun i gts' =>
           refs ← gts !! (i mod batch_size)%nat;
           Some (<[i := refs]> gts')) ∅;
  Some (gts, res_).

Definition get_self_critical_reward (gen_result greedy_res : list (list Z))
    (ground_truth : list (list (list Z))) (cider_weight : Q)
  : option (list (list Q)) :=
  let batch_size := length gen_result in
  '(gts, res_) ← scorer_inputs gen_result greedy_res ground_truth;
  '(_, cider_scores) ← CiderD_compute_score gts res_;
  let scores : list Q := Qmult cider_weight <$> cider_scores in
  scores ← Torch.pointwise Qminus (take batch_size scores)
                                  (drop batch_size scores);
  let rewards := replicate (ncols gen_result) <$> (scores : list Q) in
  Some rewards.

End Reward.

(** *** Loops with [break] *)

Inductive ctl (S : Type) : Type :=
  | Next (s : S)
  | Break (s : S).
Arguments Next {S} s.
Arguments Break {S} s.

(** [for i in is: body], where the body may [break] or raise. *)
Fixpoint for_break {S} (indices : list nat) (body : nat -> S -> option (ctl S))
    (s : S) : option S :=
  match indices with
  | [] => Some s
  | i :: rest =>
      match body i s with
      | None => None
      | Some (Break s') => Some s'
      | Some (Next s') => for_break rest body s'
      end
  end.

(** *** The decoder *)

Module DAE.

(** [torch.max(row)] with its index: the first of the largest entries; an
    empty row raises. *)
Fixpoint max_from (best : Q) (best_i i : Z) (row : list Q) : Q * Z :=
  match row with
  | [] => (best, best_i)
  | x :: rest =>
      if Qle_bool x best then max_from best best_i (i + 1) rest
      else max_from x i (i + 1) rest
  end.

Definition max_row (row : list Q) : option (Q * Z) :=
  match row with
  | [] => None
  | x :: rest => Some (max_from x 0 1 rest)
  end.

(** [torch.max(logprobs, 1)] *)
Definition torch_max (logprobs : list (list Q)) : option (list Q * list Z) :=
  rows ← mapM max_row logprobs;
  Some (fst <$> rows, snd <$> rows).

(** [logprobs.gather(1, it)] with one index per row. *)
Definition gather (logprobs : list (list Q)) (it : list Z) : option (list Q) :=
  mapM (fun ri : list Q * Z =>
          if 0 <=? ri.2 then ri.1 !! Z.to_nat ri.2 else None)
       (zip logprobs it).

(** [m[:, t] = vals]; [vals] has one entry per row. *)
Definition set_column {A} (t : nat) (vals : list A) (m : list (list A))
  : option (list (list A)) :=
  if decide (length vals = length m)
  then Some (zip_with (fun row v => <[t := v]> row) m vals)
  else None.

Definition max_len : nat := 18.

(** The local variables of [forward] that live across timesteps. *)
Record locals (Hidden Gen : Type) : Type := Locals {
  it : list Z;
  hidden : Hidden;
  generator : Gen;
  seq : list (list Z);
  seqLogprobs : list (list Q);
  unfinished : list bool;
  sampleLogprobs : option (list Q)
}.
Arguments Locals {Hidden Gen}.
Arguments it {Hidden Gen}.
Arguments hidden {Hidden Gen}.
Arguments generator {Hidden Gen}.
Arguments seq {Hidden Gen}.
Arguments seqLogprobs {Hidden Gen}.
Arguments unfinished {Hidden Gen}.
Arguments sampleLogprobs {Hidden Gen}.

Section Forward.

(** The output of the caption encoder, the four LSTM state tensors
    [(h1, c1, h2, c2)], and the state of the random generator. *)
Variables Enc Hidden Gen : Type.

(** [self.caption_encoder(encoded_previous_captions, previous_cap_length)] *)
Variable caption_encoder : list (list Z) -> list Z -> option Enc.

(** [init_hidden_state(batch_size)], twice. *)
Variable init_hidden_state : nat -> Hidden.

(** The learned part of one timestep, from [self.embed(it)] to
    [F.log_softmax(pt, dim=1)]: the new LSTM states and one row of
    log-probabilities per sequence; dropout draws from the generator. *)
Variable decoder_step :
  Enc -> Hidden -> Gen -> list Z -> Hidden * Gen * list (list Q).

(** One draw of [torch.multinomial(torch.exp(row), 1)]. *)
Variable multinomial : Gen -> list Q -> Gen * Z.

(** [torch.multinomial(torch.exp(logprobs), 1)], row after row; a row without
    categories raises. *)
Fixpoint sample_rows (g : Gen) (logprobs : list (list Q))
  : option (Gen * list Z) :=
  match logprobs with
  | [] => Some (g, [])
  | row :: rest =>
      match row with
      | [] => None
      | _ =>
          let '(g, i) := multinomial g row in
          r ← sample_rows g rest;
          Some (r.1, i :: r.2)
      end
  end.

(** The body of the loop over [range(max_len + 1)]. *)
Definition step (word_map : gmap string Z) (sample_max sample_rl : bool)
    (enc : Enc) (timestep : nat) (s : locals Hidden Gen)
  : option (ctl (locals Hidden Gen)) :=
  let '(h, g, logprobs) := decoder_step enc (hidden s) (generator s) (it s) in
  if decide (timestep = max_len)
  then Some (Break (Locals (it s) h g (seq s) (seqLogprobs s) (unfinished s)
                           (sampleLogprobs s)))
  else
    (* if sample_max *)
    greedy ← (if sample_max
              then r ← torch_max logprobs; Some (Some r.1, r.2)
              else Some (sampleLogprobs s, it s));
    (* if sample_rl *)
    sampled ← (if sample_rl
               then r ← sample_rows g logprobs;
                    lp ← gather logprobs r.2;
                    Some (r.1, Some lp, r.2)
               else Some (g, greedy.1, greedy.2));
    let g := sampled.1.1 in
    let sampleLogprobs := sampled.1.2 in
    let it := sampled.2 in
    end_idx ← word_map !! "<end>";
    let it := (fun w => if w =? end_idx then 0 else w) <$> it in
    let unfinished :=
      if decide (timestep = O) then (fun w => 0 <? w) <$> it
      else zip_with andb (unfinished s) ((fun w => 0 <? w) <$> it) in
    let it := zip_with (fun w (u : bool) => w * (if u then 1 else 0)) it unfinished in
    seq ← set_column timestep it (seq s);
    lps ← sampleLogprobs;
    seqLogprobs ← set_column timestep lps (seqLogprobs s);
    let s' := Locals it h g seq seqLogprobs unfinished sampleLogprobs in
    if forallb negb unfinished then Some (Break s') else Some (Next s').

Definition forward (word_map : gmap string Z)
    (encoded_previous_captions : list (list Z)) (previous_cap_length : list Z)
    (sample_max sample_rl : bool) (g : Gen)
  : option (list (list Z) * list (list Q)) :=
  let batch_size := length encoded_previous_captions in
  let seq0 := replicate batch_size (replicate max_len 0) in
  let seqLogprobs0 := replicate batch_size (replicate max_len 0%Q) in
  start_idx ← word_map !! "<start>";
  let it0 := replicate batch_size start_idx in
  let h := init_hidden_state batch_size in
  enc ← caption_encoder encoded_previous_captions previous_cap_length;
  s ← for_break (List.seq 0 (max_len + 1))
        (step word_map sample_max sample_rl enc)
        (Locals it0 h g seq0 seqLogprobs0 [] None);
  Some (seq s, seqLogprobs s).

End Forward.

End DAE.

(** Reading of the specification: once a position of a row holds 0, every
    later position holds 0. *)
Definition zero_closed (row : list Z) : Prop :=
  forall i j w, (i < j)%nat -> row !! i = Some 0 -> row !! j = Some w -> w = 0.

(** The state of a row of [seq] and of its flag before timestep [t]. *)
Definition inv_row (t : nat) (u : bool) (row : list Z) : Prop :=
  length row = DAE.max_len
  /\ (forall j, (t <= j < DAE.max_len)%nat -> row !! j = Some 0)
  /\ zero_closed row
  /\ (u = true -> forall i, (i < t)%nat -> row !! i <> Some 0).

Definition inv_state {Hidden Gen} (t : nat) (s : DAE.locals Hidden Gen) : Prop :=
  match t with
  | O => Forall (inv_row O true) (DAE.seq s)
  | S _ => Forall2 (inv_row t) (DAE.unfinished s) (DAE.seq s)
  end.

Definition ctl_state {S} (c : ctl S) : S :=
  match c with Next s => s | Break s => s end.

(** *** A scripted decoder *)

(** The vocabulary and the mocked logits of the end-to-end scenario: the
    decoder state counts the timesteps, and the row of timestep [h] peaks at
    the token [script[h]], at [<pad>] once the script is over. *)
Module Mock.

Definition word_map : gmap string Z :=
  <["<pad>" := 0]> (<["<start>" := 1]> (<["<end>" := 2]>
    (<["a" := 3]> (<["dog" := 4]> ∅)))).

Definition peak (w : Z) : list Q :=
  (fun j => if j =? w then 0%Q else (-1)%Q) <$> [0; 1; 2; 3; 4].

Definition caption_encoder (caps : list (list Z)) (lens : list Z)
  : option unit := Some tt.

Definition init_hidden_state (batch_size : nat) : nat := O.

Definition decoder_step (script : list Z) (enc : unit) (h : nat) (g : nat)
    (it : list Z) : nat * nat * list (list Q) :=
  (S h, g, (fun _ => peak (nth h script 0)) <$> it).

(** A generator that is a counter: every draw is its residue modulo 5. *)
Definition multinomial (g : nat) (row : list Q) : nat * Z :=
  (S g, Z.of_nat (g mod 5)).

Definition forward (script : list Z) :=
  DAE.forward unit nat nat caption_encoder init_hidden_state
    (decoder_step script) multinomial.

End Mock.

(** *** The caption encoder *)

Module CaptionEncoder.

Section Forward.

(** An embedded token, and [self.embed].  The table of [nn.Embedding] has
    one row per id of the vocabulary and an id outside it raises, padding
    included; [embed] is total, so the ids of [src] are taken to be ids of
    the vocabulary. *)
Variable Emb : Type.
Variable embed : Z -> Emb.

(** The bidirectional LSTM on the valid tokens of one sequence: the feature
    row it outputs at a position, and its last hidden states
    [hidden[0][-2]] and [hidden[0][-1]] side by side. *)
Variable lstm_output : list Emb -> nat -> list Q.
Variable lstm_hidden : list Emb -> list Q.

(** [torch.tanh(self.concat(.))] on one row, and the width
    [enc_hid_dim * 2] of a feature row. *)
Variable concat_tanh : list Q -> list Q.
Variable feature_dim : nat.

(** [pack_padded_sequence] takes the lengths of the sequences, each at
    least 1 and at most the padded length, and no more lengths than
    sequences; anything else raises.  With fewer lengths than sequences the
    first sequences are packed and the others are left out. *)
Definition packed_lengths (src : list (list Z)) (src_len : list Z)
  : option (list nat) :=
  if decide (length src_len <= length src)%nat
  then mapM (fun l => if (0 <? l) && (l <=? Z.of_nat (ncols src))
                      then Some (Z.to_nat l) else None) src_len
  else None.

(** [pack_padded_sequence(embedded, src_len)] keeps the first [len]
    embedded tokens of a sequence. *)
Definition packed (embedded : list Emb) (len : nat) : list Emb :=
  take len embedded.

(** [pad_packed_sequence(packed_outputs, batch_first=True)]: the rows of the
    valid positions, then rows of zeros up to the longest length. *)
Definition padded_outputs (embedded : list (list Emb)) (lens : list nat)
  : list (list (list Q)) :=
  let longest := foldr Nat.max O lens in
  zip_with (fun row len =>
              (lstm_output (packed row len) <$> seq 0 len)
              ++ replicate (longest - len) (replicate feature_dim 0%Q))
           embedded lens.

(** [((outputs.sum(2)) != 0).float()] *)
Definition nonzero_sum (feat : list Q) : Q :=
  if Qeq_bool (Torch.sum feat) 0 then 0%Q else 1%Q.

Definition sum_mask (outputs : list (list (list Q))) : list (list Q) :=
  fmap (M:=list) (fmap (M:=list) nonzero_sum) outputs.

Definition forward (src : list (list Z)) (src_len : list Z)
  : option (list (list (list Q)) * list (list Q) * list (list Q)) :=
  let embedded := fmap (M:=list) (fmap (M:=list) embed) src in
  lens ← packed_lengths src src_len;
  let outputs := padded_outputs embedded lens in
  let prev_cap_mask := sum_mask outputs in
  let final_hidden :=
    zip_with (fun row len => concat_tanh (lstm_hidden (packed row len)))
             embedded lens in
  Some (outputs, final_hidden, prev_cap_mask).

End Forward.

End CaptionEncoder.

(** Reading of the specification: the mask of the positions before [len]
    among [width] positions. *)
Definition length_mask (width len : nat) : list Q :=
  (fun t => if decide (t < len)%nat then 1%Q else 0%Q) <$> seq 0 width.

(** Encoders with a scripted LSTM: the feature row of every position is
    [feat].  With all the parameters of the LSTM at zero the row is
    [[0, 0]]. *)
Module MockEncoder.

Definition embed (w : Z) : Z := w.

Definition lstm_output (feat : list Q) (valid : list Z) (t : nat) : list Q :=
  feat.

Definition lstm_hidden (valid : list Z) : list Q := [0; 0]%Q.

Definition concat_tanh (h : list Q) : list Q := h.

Definition forward (feat : list Q) :=
  CaptionEncoder.forward Z embed (lstm_output feat) lstm_hidden concat_tanh 2.

End MockEncoder.

(** *** Beam search *)

(** The end of a [while True] loop: an exit by [break], an exception, or no
    exit within the given number of iterations. *)
Inductive run (S : Type) : Type :=
  | Exit (s : S)
  | Raise
  | OutOfFuel.
Arguments Exit {S} s.
Arguments Raise {S}.
Arguments OutOfFuel {S}.

Fixpoint while_true {S} (fuel : nat) (body : S -> option (ctl S)) (s : S)
  : run S :=
  match fuel with
  | O => OutOfFuel
  | Datatypes.S fuel =>
      match body s with
      | None => Raise
      | Some (Break s') => Exit s'
      | Some (Next s') => while_true fuel body s'
      end
  end.

Module Beam.

(** [t.topk(k, 0, True, True)] of a flat tensor: the [k] largest entries in
    decreasing order and their indices; [k] above the number of entries
    raises.  torch fixes no order among equal entries: this sort puts the one
    of lower index first, which is one of the orders torch may give. *)
Fixpoint insert_desc (x : Q * Z) (l : list (Q * Z)) : list (Q * Z) :=
  match l with
  | [] => [x]
  | y :: l' =>
      if Qle_bool y.1 x.1 then x :: l else y :: insert_desc x l'
  end.

Definition sort_desc (l : list (Q * Z)) : list (Q * Z) :=
  foldr insert_desc [] l.

Definition enumerate (t : list Q) : list (Q * Z) :=
  zip t (seqZ 0 (Z.of_nat (length t))).

Definition topk (k : nat) (t : list Q) : option (list Q * list Z) :=
  if decide (k <= length t)%nat
  then let top := take k (sort_desc (enumerate t)) in
       Some (fst <$> top, snd <$> top)
  else None.

(** [l[inds]] for a list of indices. *)
Definition rows_at {A} (l : list A) (inds : list nat) : option (list A) :=
  mapM (fun i => l !! i) inds.

(** The variables of the search of one image that live across iterations. *)
Record state (Row : Type) : Type := State {
  k : nat;
  seqs : list (list Z);
  top_k_scores : list Q;
  k_prev_words : list Z;
  hidden : list Row;
  complete_seqs : list (list Z);
  complete_seqs_scores : list Q;
  step : nat;
  infinite_pred : bool
}.
Arguments State {Row}.
Arguments k {Row}.
Arguments seqs {Row}.
Arguments top_k_scores {Row}.
Arguments k_prev_words {Row}.
Arguments hidden {Row}.
Arguments complete_seqs {Row}.
Arguments complete_seqs_scores {Row}.
Arguments step {Row}.
Arguments infinite_pred {Row}.

(** The selection of one iteration: the scores and flat indices of the new
    beam.  On the first step only [scores[0]] is searched. *)
Definition select (step k : nat) (scores : list (list Q))
  : option (list Q * list Z) :=
  if decide (step = 1%nat)
  then row ← scores !! O; topk k row
  else topk k (Torch.view_flat scores).

(** [top_k_words / vocab_size] and [top_k_words % vocab_size] on LongTensors:
    integer division and remainder. *)
Definition prev_word_ind (vocab_size : nat) (w : Z) : Z :=
  w / Z.of_nat vocab_size.
Definition next_word_ind (vocab_size : nat) (w : Z) : Z :=
  w mod Z.of_nat vocab_size.

Section Search.

(** The encoder output and, for one hypothesis, its row of the four LSTM
    state tensors. *)
Variables Enc Row : Type.
Variable caption_encoder : list (list Z) -> list Z -> option Enc.

(** One row of [init_hidden_state(k)], twice. *)
Variable init_row : Row.

(** The learned part of one iteration on one hypothesis, in evaluation mode,
    from [embed(k_prev_words)] to [F.log_softmax(scores, dim=1)]: the new
    states of the hypothesis and its score of every word id; [fc] has
    [len(word_map)] outputs. *)
Variable decoder_row : Enc -> Row -> Z -> Row * (nat -> Q).

(** [scores = top_k_scores.expand_as(scores) + scores] for the live
    hypotheses, with their new states.  The state tensors, the previous
    words and the scores all have one row per live hypothesis. *)
Definition expand_scores (vocab_size : nat) (enc : Enc) (st : state Row)
  : list (Row * list Q) :=
  zip_with (fun hw top =>
              let r := decoder_row enc hw.1 hw.2 in
              (r.1, (fun j => (top + r.2 j)%Q) <$> seq 0 vocab_size))
           (zip (hidden st) (k_prev_words st)) (top_k_scores st).

(** The body of the [while True] loop.  [complete_inds], the difference of
    two sets of small integers, is listed in increasing order. *)
Definition body (word_map : gmap string Z) (enc : Enc) (st : state Row)
  : option (ctl (state Row)) :=
  let vocab_size := size word_map in
  let rows := expand_scores vocab_size enc st in
  let h := fst <$> rows in
  let scores := snd <$> rows in
  '(top_k_scores, top_k_words) ← select (step st) (k st) scores;
  let prev_word_inds := prev_word_ind vocab_size <$> top_k_words in
  let next_word_inds := next_word_ind vocab_size <$> top_k_words in
  seqs ← mapM (fun pn : Z * Z =>
                 row ← seqs st !! Z.to_nat pn.1; Some (row ++ [pn.2]))
              (zip prev_word_inds next_word_inds);
  end_idx ← word_map !! "<end>";
  let n := length next_word_inds in
  let incomplete_inds :=
    filter (fun ind => next_word_inds !! ind <> Some end_idx) (seq 0 n) in
  let complete_inds :=
    filter (fun ind => ind ∉ incomplete_inds) (seq 0 n) in
  done_seqs ← rows_at seqs complete_inds;
  done_scores ← rows_at top_k_scores complete_inds;
  let complete_seqs := complete_seqs st ++ done_seqs in
  let complete_seqs_scores := complete_seqs_scores st ++ done_scores in
  let k := (k st - length complete_inds)%nat in
  if decide (k = O)
  then Some (Break (State k seqs top_k_scores (k_prev_words st) h
                          complete_seqs complete_seqs_scores (step st)
                          (infinite_pred st)))
  else
    seqs ← rows_at seqs incomplete_inds;
    prev ← rows_at prev_word_inds incomplete_inds;
    h ← rows_at h (Z.to_nat <$> prev);
    top_k_scores ← rows_at top_k_scores incomplete_inds;
    k_prev_words ← rows_at next_word_inds incomplete_inds;
    if decide (50 < step st)%nat
    then Some (Break (State k seqs top_k_scores k_prev_words h
                            complete_seqs complete_seqs_scores (step st) true))
    else Some (Next (State k seqs top_k_scores k_prev_words h
                           complete_seqs complete_seqs_scores (step st + 1)
                           (infinite_pred st))).

(** The state before the loop: [k] copies of [<start>]. *)
Definition init (beam_size : nat) (start_idx : Z) : state Row :=
  State beam_size (replicate beam_size [start_idx]) (replicate beam_size 0%Q)
        (replicate beam_size start_idx) (replicate beam_size init_row)
        [] [] 1 false.

(** The caption ids chosen after the loop. *)
Definition chosen_seq (st : state Row) : option (list Z) :=
  if infinite_pred st
  then seq0 ← seqs st !! O; Some (take 18 seq0)
  else best ← DAE.max_row (complete_seqs_scores st);
       complete_seqs st !! Z.to_nat best.2.

(** The body of the loop of [evaluate] over the loader: the search of one
    image, with the number of iterations its [while True] loop may use; the
    result is the final state of that loop and [sen_idx], the ids of the
    sentence. *)
Definition search (fuel : nat) (word_map : gmap string Z) (beam_size : nat)
    (previous_caption : list (list Z)) (prev_caplen : list Z)
  : run (state Row * list Z) :=
  match caption_encoder previous_caption prev_caplen,
        word_map !! "<start>" with
  | Some enc, Some start_idx =>
      match while_true fuel (body word_map enc) (init beam_size start_idx) with
      | Exit st =>
          match
            seq ← chosen_seq st;
            mapM (fun w => s ← word_map !! "<start>";
                           e ← word_map !! "<end>";
                           p ← word_map !! "<pad>";
                           Some (w, negb ((w =? s) || (w =? e) || (w =? p)))) seq
          with
          | Some keep =>
              Exit (st, fst <$> filter (fun wb => snd wb = true) keep)
          | None => Raise
          end
      | Raise => Raise
      | OutOfFuel => OutOfFuel
      end
  | _, _ => Raise
  end.

(** [evaluate]: one caption per image of the loader.  The two files it
    writes after the loop are in [Script.evaluate]. *)
Fixpoint evaluate (fuel : nat) (word_map : gmap string Z) (beam_size : nat)
    (loader : list (Z * list (list Z) * list Z)) : run (list (Z * list Z)) :=
  match loader with
  | [] => Exit []
  | (image_id, previous_caption, prev_caplen) :: rest =>
      match search fuel word_map beam_size previous_caption prev_caplen with
      | Exit (_, sen_idx) =>
          match evaluate fuel word_map beam_size rest with
          | Exit results => Exit ((image_id, sen_idx) :: results)
          | Raise => Raise
          | OutOfFuel => OutOfFuel
          end
      | Raise => Raise
      | OutOfFuel => OutOfFuel
      end
  end.

End Search.

End Beam.

(** The state of the beam at the start of an iteration of a search of
    [beam_size] hypotheses over [V] words, and the two ways the loop ends. *)
Definition live {Row} (beam_size V : nat) (st : Beam.state Row) : Prop :=
  length (Beam.seqs st) = Beam.k st
  /\ length (Beam.top_k_scores st) = Beam.k st
  /\ length (Beam.k_prev_words st) = Beam.k st
  /\ length (Beam.hidden st) = Beam.k st
  /\ (1 <= Beam.k st)%nat
  /\ (Beam.step st = 1%nat -> Beam.k st <= V)%nat
  /\ (1 <= Beam.step st <= 51)%nat
  /\ Beam.infinite_pred st = false
  /\ (length (Beam.complete_seqs st) + Beam.k st = beam_size)%nat
  /\ length (Beam.complete_seqs_scores st) = length (Beam.complete_seqs st)
  /\ Forall (fun r => length r = Beam.step st) (Beam.seqs st).

Definition exit_empty {Row} (beam_size : nat) (st : Beam.state Row) : Prop :=
  Beam.k st = O
  /\ Beam.infinite_pred st = false
  /\ (Beam.step st <= 51)%nat
  /\ length (Beam.complete_seqs st) = beam_size
  /\ length (Beam.complete_seqs_scores st) = beam_size.

Definition exit_cap {Row} (beam_size : nat) (st : Beam.state Row) : Prop :=
  Beam.infinite_pred st = true
  /\ Beam.step st = 51%nat
  /\ (1 <= Beam.k st)%nat
  /\ length (Beam.seqs st) = Beam.k st
  /\ (length (Beam.complete_seqs st) + Beam.k st = beam_size)%nat
  /\ Forall (fun r => length r = 52%nat) (Beam.seqs st).

(** The state after [n] iterations that all went on to the next one. *)
Fixpoint iterate {S} (n : nat) (body : S -> option (ctl S)) (s : S)
  : option S :=
  match n with
  | O => Some s
  | Datatypes.S n =>
      match body s with
      | Some (Next s') => iterate n body s'
      | _ => None
      end
  end.

Section NeverEnd.
Variables Enc Row : Type.
Variable decoder_row : Enc -> Row -> Z -> Row * (nat -> Q).

(** The next words selected by the iteration that starts in [st]. *)
Definition selected_words (word_map : gmap string Z) (enc : Enc)
    (st : Beam.state Row) : option (list Z) :=
  let vocab_size := size word_map in
  '(_, top_k_words) ← Beam.select (Beam.step st) (Beam.k st)
         (snd <$> Beam.expand_scores Enc Row decoder_row vocab_size enc st);
  Some (Beam.next_word_ind vocab_size <$> (top_k_words : list Z)).

(** The search that starts in [st0] never selects the word [e]. *)
Definition never_emits (word_map : gmap string Z) (enc : Enc) (e : Z)
    (st0 : Beam.state Row) : Prop :=
  forall n st words,
    iterate n (Beam.body Enc Row decoder_row word_map enc) st0 = Some st ->
    selected_words word_map enc st = Some words ->
    e ∉ words.

End NeverEnd.

(** Scripted decoders for the beam search: the state of a hypothesis counts
    its steps; its scores are [first] on the first step and [later] after
    it, whatever the previous word. *)
Module MockBeam.

Definition decoder_row (first later : list Q) (enc : unit) (h : nat) (w : Z)
  : nat * (nat -> Q) :=
  (S h, fun j => nth j (if decide (h = O) then first else later) (-100)%Q).

Definition never_ends : list Q := [-5; -6; -9; -1; -2]%Q.
Definition ends_first : list Q := [-5; -6; -1; 0; -2]%Q.

Definition search (first later : list Q) (fuel : nat) :=
  Beam.search unit nat Mock.caption_encoder O (decoder_row first later) fuel
    Mock.word_map 3 [[1; 3; 4; 2]] [4].

End MockBeam.

(** *** One batch of [train] *)

Module Train.

Section Batch.

Variable metric : list string -> list string -> Q.
Variables Enc Hidden Gen : Type.
Variable caption_encoder : list (list Z) -> list Z -> option Enc.
Variable init_hidden_state : nat -> Hidden.

(** The decoder in evaluation mode, where dropout is off, and in training
    mode. *)
Variable decoder_eval decoder_train :
  Enc -> Hidden -> Gen -> list Z -> Hidden * Gen * list (list Q).
Variable multinomial : Gen -> list Q -> Gen * Z.

(** The body of the loop of [train] from the greedy pass to the loss; the
    backward pass and the step of the optimizer are left out.  The greedy
    pass draws nothing, so both passes start from the generator state [g].
    The result is the loss and the rewards. *)
Definition batch (word_map : gmap string Z) (previous_caption : list (list Z))
    (prev_caplen : list Z) (allcaps : list (list (list Z))) (g : Gen)
  : option (Q * list (list Q)) :=
  '(greedy_res, _) ← DAE.forward Enc Hidden Gen caption_encoder
                        init_hidden_state decoder_eval multinomial word_map
                        previous_caption prev_caplen true false g;
  '(seq_gen, seqLogprobs) ← DAE.forward Enc Hidden Gen caption_encoder
                               init_hidden_state decoder_train multinomial
                               word_map previous_caption prev_caplen false true g;
  ground_truth ← preprocess_gd allcaps word_map;
  rewards ← get_self_critical_reward metric seq_gen greedy_res ground_truth 1;
  loss ← RewardCriterion.forward seqLogprobs seq_gen rewards;
  Some (loss, rewards).

End Batch.

End Train.

(** *** The training set *)

(** [torch.LongTensor] of a list of rows: the rows must have one length. *)
Definition LongTensor2 (rows : list (list Z)) : option (list (list Z)) :=
  match rows with
  | [] => Some []
  | row :: rest =>
      if forallb (fun r => length r =? length row)%nat rest then Some rows
      else None
  end.

(** An entry of [CAPUTIL_train.json] with the keys the training set reads;
    the length is stored as a list of one number. *)
Record caption_util_entry : Type := CaptionUtil {
  encoded_previous_caption : list Z;
  previous_caption_length : list Z
}.

Module COCOTrainDataset.

Record t : Type := Dataset {
  captions : list (list Z);
  caplens : list Z;
  names : list string;
  caption_util : gmap string caption_util_entry
}.

(** [self.cpi = 5] *)
Definition cpi : nat := 5.

(** [__getitem__(i)] for an index [i >= 0], as the loader draws it: a missing
    name, caption, length or entry raises. *)
Definition getitem (self : t) (i : nat)
  : option (list Z * list Z * list Z * list Z * list (list Z)) :=
  img_name ← names self !! (i / cpi)%nat;
  caption ← captions self !! i;
  caplen ← caplens self !! i;
  entry ← caption_util self !! img_name;
  let previous_caption := encoded_previous_caption entry in
  let prev_caplen := previous_caption_length entry in
  all_captions ← LongTensor2 (take cpi (drop ((i / cpi) * cpi) (captions self)));
  Some (caption, [caplen], previous_caption, prev_caplen, all_captions).

(** [__len__] *)
Definition len (self : t) : nat := length (captions self).

End COCOTrainDataset.

(** *** The learning rate *)

(** [optimizer.param_groups] is a list of dictionaries, one object per
    group; of their entries the two functions read and write ['lr'] only, so
    a group is the map of its numeric options.  The result is the groups
    after the call and the rate that is printed. *)
Definition set_learning_rate (param_groups : list (gmap string Q)) (lr : Q)
  : option (list (gmap string Q) * Q) :=
  let param_groups :=
    (fun param_group => <["lr" := lr]> param_group) <$> param_groups in
  first ← param_groups !! O;
  printed ← first !! "lr";
  Some (param_groups, printed).

Definition adjust_learning_rate (param_groups : list (gmap string Q))
    (shrink_factor : Q) : option (list (gmap string Q) * Q) :=
  param_groups ← mapM (fun param_group =>
                         lr ← param_group !! "lr";
                         Some (<["lr" := (lr * shrink_factor)%Q]> param_group))
                      param_groups;
  first ← param_groups !! O;
  printed ← first !! "lr";
  Some (param_groups, printed).

(** *** Checkpoints and the loop over the epochs *)

Module Script.

Section Script.

(** The model [dae_ar], and the state an optimizer keeps beside its
    parameter groups. *)
Variables Model OptState : Type.

Record optimizer : Type := Optimizer {
  param_groups : list (gmap string Q);
  opt_state : OptState
}.

(** The values a checkpoint dictionary holds. *)
Inductive value : Type :=
  | VInt (n : Z)
  | VFloat (x : Q)
  | VModel (m : Model)
  | VOptimizer (o : optimizer).

(** A file of the script: a dictionary written by [torch.save], or one of
    the two JSON files [evaluate] dumps, the results (an image id and a
    caption per image) and the scores of the epoch by metric. *)
Inductive file : Type :=
  | Saved (state : gmap string value)
  | ResultsJson (results : list (Z * string))
  | EvalJson (eval : gmap string Q).

(** The files, by name. *)
Definition files : Type := gmap string file.

Definition checkpoint_name (epoch : Z) : string :=
  ("checkpoint_" +:+ Py.str epoch) +:+ ".pth.tar".

Definition save_checkpoint (fs : files) (epoch epochs_since_improvement : Z)
    (dae_mse : Model) (dae_mse_optimizer : optimizer) (cider : Q)
    (is_best : bool) : files :=
  let state : gmap string value :=
    <["epoch" := VInt epoch]>
      (<["epochs_since_improvement" := VInt epochs_since_improvement]>
         (<["cider" := VFloat cider]>
            (<["dae_mse" := VModel dae_mse]>
               (<["dae_mse_optimizer" := VOptimizer dae_mse_optimizer]> ∅)))) in
  let filename := checkpoint_name epoch in
  let fs := <[filename := Saved state]> fs in
  if is_best then <[("BEST_" +:+ filename) := Saved state]> fs else fs.

(** The variables of the script that the checkpoint sets and the loop over
    the epochs updates, and the files. *)
Record state : Type := State {
  dae_ar : Model;
  dae_ar_optimizer : optimizer;
  epochs_since_improvement : Z;
  best_cider : Q;
  disk : files
}.

(** The load of the checkpoint at the start of the script, with
    [start_epoch]: a missing file, a file [torch.save] did not write, or a
    missing key raises.  A value of another type than the script goes on to
    use raises here, where it is read. *)
Definition load_checkpoint (fs : files) (checkpoint : string)
  : option (Z * state) :=
  f ← fs !! checkpoint;
  checkpoint ← match f with Saved state => Some state | _ => None end;
  epoch ← checkpoint !! "epoch";
  start_epoch ← match epoch with VInt n => Some (n + 1) | _ => None end;
  v ← checkpoint !! "epochs_since_improvement";
  epochs_since_improvement ← match v with VInt n => Some n | _ => None end;
  v ← checkpoint !! "cider";
  best_cider ← match v with
               | VFloat x => Some x
               | VInt n => Some (inject_Z n)
               | _ => None
               end;
  v ← checkpoint !! "dae_ar";
  dae_ar ← match v with VModel m => Some m | _ => None end;
  v ← checkpoint !! "dae_ar_optimizer";
  dae_ar_optimizer ← match v with VOptimizer o => Some o | _ => None end;
  Some (start_epoch,
        State dae_ar dae_ar_optimizer epochs_since_improvement best_cider fs).

(** [train] as the loop sees it: it updates the model and the optimizer, and
    may raise; it writes no file. *)
Variable train : Model -> optimizer -> Z -> option (Model * optimizer).

(** The two parts of [evaluate] that are not followed here: the loop over
    the images of the loader, which gives [results] (the loader shuffles, so
    the results may differ from one epoch to the next for one model), and
    the scorer [COCOEvalCap], which gives [cocoEval.eval] from the
    annotations and the results it reads back from [resFile]; both may
    raise.  Scores are exact rationals. *)
Variable captions : Model -> Z -> option (list (Z * string)).
Variable coco_eval : list (Z * string) -> option (gmap string Q).

Definition results_name (epoch : Z) : string :=
  ("cococaption/results/captions_val2014_results_" +:+ Py.str epoch) +:+ ".json".

Definition eval_name (epoch : Z) : string :=
  ("cococaption/results/captions_val2014_eval_" +:+ Py.str epoch) +:+ ".json".

(** [evaluate], after the loop over the images: the results are dumped to
    [resFile], scored, the scores dumped to [evalFile], and two of them
    returned.  An exception ends the script; the files it leaves are not
    followed. *)
Definition evaluate (fs : files) (dae_ar : Model) (epoch : Z)
  : option (files * (Q * Q)) :=
  results ← captions dae_ar epoch;
  let resFile := results_name epoch in
  let evalFile := eval_name epoch in
  let fs := <[resFile := ResultsJson results]> fs in
  eval ← coco_eval results;
  let fs := <[evalFile := EvalJson eval]> fs in
  cider ← eval !! "CIDEr";
  bleu4 ← eval !! "Bleu_4";
  Some (fs, (cider, bleu4)).

(** The two tests on the learning rate at the start of an epoch. *)
Definition epoch_learning_rate (first_epoch epoch since : Z) (o : optimizer)
  : option optimizer :=
  o ← (if epoch =? first_epoch
       then r ← set_learning_rate (param_groups o) (5 # 100000);
            Some (Optimizer r.1 (opt_state o))
       else Some o);
  if 0 <? since
  then r ← adjust_learning_rate (param_groups o) (1 # 2);
       Some (Optimizer r.1 (opt_state o))
  else Some o.

(** The body of [for epoch in range(start_epoch, epochs)]. *)
Definition epoch_body (first_epoch epoch : Z) (st : state) : option state :=
  o ← epoch_learning_rate first_epoch epoch (epochs_since_improvement st)
         (dae_ar_optimizer st);
  '(m, o) ← train (dae_ar st) o epoch;
  '(fs, (recent_cider, recent_bleu4)) ← evaluate (disk st) m epoch;
  (* recent_cider > best_cider, and max(recent_cider, best_cider) *)
  let is_best := negb (Qle_bool recent_cider (best_cider st)) in
  let best :=
    if negb (Qle_bool (best_cider st) recent_cider) then best_cider st
    else recent_cider in
  let since := if is_best then 0 else epochs_since_improvement st + 1 in
  let fs := save_checkpoint fs epoch since m o recent_cider is_best in
  Some (State m o since best fs).

Fixpoint for_epochs (epochs : list Z) (body : Z -> state -> option state)
    (st : state) : option state :=
  match epochs with
  | [] => Some st
  | epoch :: rest => st' ← body epoch st; for_epochs rest body st'
  end.

(** [epochs = 50]; the loop runs over [range(start_epoch, epochs)]. *)
Definition epochs : Z := 50.

Definition epoch_range (first_epoch : Z) : list Z :=
  seqZ first_epoch (epochs - first_epoch).

End Script.

End Script.

(** *** Vocabulary of the proofs *)

(** A string that starts, or ends, with a character [strip] keeps, and a
    string without white space. *)
Definition head_ok (s : string) : Prop :=
  match s with String c _ => Py.is_space c = false | EmptyString => False end.

Definition last_ok (s : string) : Prop :=
  exists s' c, s = s' +:+ String c EmptyString /\ Py.is_space c = false.

Fixpoint no_space (s : string) : bool :=
  match s with
  | EmptyString => true
  | String c s' => negb (Py.is_space c) && no_space s'
  end.

(** One row of the shifted mask of the loss. *)
Definition shift_row (row : list Z) : list Q :=
  1%Q :: removelast (Torch.gt0 <$> row).

(** The flag and the stored token of one sequence at one timestep. *)
Definition gt0b (w : Z) : bool := 0 <? w.
Definition mask_token (w : Z) (u : bool) : Z := w * (if u then 1 else 0).

(** The order of the entries [topk] returns. *)
Definition before (a b : Q * Z) : Prop := (b.1 <= a.1)%Q.

(** Inversion of a bind that returned a value. *)
Ltac bind_some H :=
  match type of H with
  | mbind _ ?m = Some _ =>
      let x := fresh "x" in
      let E := fresh "E" in
      destruct m as [x|] eqn:E; [cbn [mbind option_bind] in H|discriminate H]
  end.

(** The ids of a live hypothesis of the beam search, [<start>] and words
    other than [<end>]; and of a completed one, which ends with [<end>]. *)
Definition live_seq (s e : Z) (row : list Z) : Prop :=
  exists words, row = s :: words /\ e ∉ words.

Definition done_seq (s e : Z) (row : list Z) : Prop :=
  exists words, row = s :: words ++ [e] /\ e ∉ words.

(** The accumulated log-probability of a hypothesis, the reference the
    scores kept by the beam search are compared with: the decoder is run
    from its first state along the words, each word scored by the row of
    log-probabilities the decoder gives before it.  The result is the sum,
    the state of the decoder and the last word. *)
Section PathScore.
Variables Enc Row : Type.
Variable decoder_row : Enc -> Row -> Z -> Row * (nat -> Q).

Fixpoint replay (enc : Enc) (h : Row) (prev : Z) (acc : Q) (words : list Z)
  : Q * Row * Z :=
  match words with
  | [] => (acc, h, prev)
  | w :: rest =>
      let r := decoder_row enc h prev in
      replay enc r.1 w (acc + r.2 (Z.to_nat w))%Q rest
  end.

Definition path_score (enc : Enc) (init_row : Row) (start : Z)
    (words : list Z) : Q :=
  (replay enc init_row start 0%Q words).1.1.

End PathScore.

(** ** Part II: properties *)

Example array_to_str_ex : array_to_str [3; 4; 0; 0] = "3 4 0".
Proof. reflexivity. Qed.

(** *** Facts on [str] and [strip] *)

Section StringFacts.
Import Py.

Lemma app_cons_s c (s t : string) : String c s +:+ t = String c (s +:+ t).
Proof. reflexivity. Qed.

Lemma app_nil_l_s (t : string) : EmptyString +:+ t = t.
Proof. reflexivity. Qed.

Lemma app_nil_r_s (t : string) : t +:+ EmptyString = t.
Proof.
  induction t as [|c t IH]; [reflexivity|]. now rewrite app_cons_s, IH.
Qed.

Lemma app_assoc_s (a b c : string) : (a +:+ b) +:+ c = a +:+ (b +:+ c).
Proof.
  induction a as [|x a IH]; [reflexivity|].
  now rewrite !app_cons_s, IH.
Qed.

Lemma lstrip_head_ok s : head_ok s -> lstrip s = s.
Proof. destruct s as [|c s]; simpl; [tauto|]. now intros ->. Qed.

Lemma rstrip_snoc_space s c :
  is_space c = false -> rstrip (s +:+ String c " ") = s +:+ String c EmptyString.
Proof.
  intros Hc. induction s as [|a s IH].
  - rewrite !app_nil_l_s. simpl. now rewrite Hc.
  - rewrite !app_cons_s. simpl. rewrite IH. now destruct s.
Qed.

Lemma rstrip_last_ok_space s : last_ok s -> rstrip (s +:+ " ") = s.
Proof.
  intros (s' & c & -> & Hc). rewrite app_assoc_s, app_cons_s, app_nil_l_s.
  now apply rstrip_snoc_space.
Qed.

Lemma head_ok_app a b : head_ok a -> head_ok (a +:+ b).
Proof. now destruct a. Qed.

Lemma last_ok_app a b : last_ok b -> last_ok (a +:+ b).
Proof.
  intros (s' & c & -> & Hc). exists (a +:+ s'), c. now rewrite app_assoc_s.
Qed.

Lemma no_space_head s : no_space s = true -> s <> EmptyString -> head_ok s.
Proof.
  destruct s as [|c s]; simpl; [congruence|].
  intros H _. apply andb_prop in H as [H _]. now apply negb_true_iff in H.
Qed.

Lemma no_space_last s : no_space s = true -> s <> EmptyString -> last_ok s.
Proof.
  induction s as [|c s IH]; simpl; [congruence|].
  intros H _. apply andb_prop in H as [Hc Hs]. apply negb_true_iff in Hc.
  destruct s as [|d s].
  - now exists EmptyString, c.
  - destruct (IH Hs) as (s' & e & Heq & He); [discriminate|].
    exists (String c s'), e. now rewrite app_cons_s, <- Heq.
Qed.

Lemma uint_no_space d : no_space (NilEmpty.string_of_uint d) = true.
Proof. induction d; simpl; auto. Qed.

Lemma str_no_space n : no_space (str n) = true.
Proof.
  unfold str, NilZero.string_of_int, NilZero.string_of_uint.
  destruct (Z.to_int n) as [d|d]; destruct d; simpl; auto using uint_no_space.
Qed.

Lemma str_nonempty n : str n <> EmptyString.
Proof.
  unfold str, NilZero.string_of_int, NilZero.string_of_uint.
  destruct (Z.to_int n) as [d|d]; destruct d; simpl; congruence.
Qed.

Lemma str_head_ok n : head_ok (str n).
Proof. apply no_space_head; auto using str_no_space, str_nonempty. Qed.

Lemma str_last_ok n : last_ok (str n).
Proof. apply no_space_last; auto using str_no_space, str_nonempty. Qed.

Lemma ids_to_str_cons a b l :
  ids_to_str (a :: b :: l) = str a +:+ " " +:+ ids_to_str (b :: l).
Proof. reflexivity. Qed.

Lemma ids_to_str_head_ok a l : head_ok (ids_to_str (a :: l)).
Proof.
  destruct l as [|b l]; [apply str_head_ok|].
  rewrite ids_to_str_cons. apply head_ok_app, str_head_ok.
Qed.

Lemma ids_to_str_last_ok a l : last_ok (ids_to_str (a :: l)).
Proof.
  revert a. induction l as [|b l IH]; intros a; [apply str_last_ok|].
  rewrite ids_to_str_cons. now do 2 apply last_ok_app.
Qed.

(** The text accumulated by the loop: every id followed by one space. *)
Lemma array_to_str_loop_spec arr out :
  array_to_str_loop arr out =
  out +:+ match through_first_zero arr with
          | [] => EmptyString
          | ids => ids_to_str ids +:+ " "
          end.
Proof.
  revert out. induction arr as [|a rest IH]; intros out; simpl.
  - now rewrite app_nil_r_s.
  - destruct (a =? 0) eqn:Ha; [reflexivity|].
    rewrite IH. destruct (through_first_zero rest) as [|b l] eqn:Hr.
    + now rewrite app_nil_r_s.
    + rewrite ids_to_str_cons, !app_assoc_s. reflexivity.
Qed.

Lemma array_to_str_spec arr :
  array_to_str arr = ids_to_str (through_first_zero arr).
Proof.
  unfold array_to_str. rewrite array_to_str_loop_spec, app_nil_l_s.
  destruct (through_first_zero arr) as [|a l]; [reflexivity|].
  unfold strip. rewrite lstrip_head_ok.
  - apply rstrip_last_ok_space, ids_to_str_last_ok.
  - apply head_ok_app, ids_to_str_head_ok.
Qed.

End StringFacts.

Example shifted_mask_ex :
  RewardCriterion.shifted_mask [[5; 7; 0; 0]] = [[1; 1; 1; 0]]%Q.
Proof. reflexivity. Qed.

(** *** Sums of rationals and matrices of a given shape *)

Section SumFacts.
Local Open Scope Q_scope.

Lemma sum_cons x (a : list Q) : Torch.sum (x :: a) = x + Torch.sum a.
Proof. reflexivity. Qed.

Lemma sum_app (a b : list Q) : Torch.sum (a ++ b) == Torch.sum a + Torch.sum b.
Proof.
  induction a as [|x a IH]; [now rewrite Qplus_0_l|].
  rewrite <- app_comm_cons, !sum_cons, IH. ring.
Qed.

Lemma sum_map_ext (f g : nat -> Q) (l : list nat) :
  (forall t, In t l -> f t == g t) ->
  Torch.sum (f <$> l) == Torch.sum (g <$> l).
Proof.
  induction l as [|t l IH]; intros H; [reflexivity|].
  rewrite !fmap_cons, !sum_cons, (H t), IH; [reflexivity| |now left].
  intros t' Ht'. apply H. now right.
Qed.

Lemma sum_map_opp (f : nat -> Q) (l : list nat) :
  Torch.sum ((fun t => - f t) <$> l) == - Torch.sum (f <$> l).
Proof.
  induction l as [|t l IH]; [reflexivity|].
  rewrite !fmap_cons, !sum_cons, IH. ring.
Qed.

Lemma sum_nonneg (l : list Q) : Forall (fun x => 0 <= x) l -> 0 <= Torch.sum l.
Proof.
  induction 1 as [|x l Hx _ IH]; [apply Qle_refl|].
  rewrite sum_cons. apply Qle_trans with (0 + 0); [apply Qle_refl|].
  now apply Qplus_le_compat.
Qed.

Lemma zip_with_seq {A B C} (f : A -> B -> C) da db (a : list A) (b : list B) L :
  length a = L -> length b = L ->
  zip_with f a b = (fun t => f (nth t a da) (nth t b db)) <$> seq 0 L.
Proof.
  revert a b. induction L as [|L IH]; intros [|x a] [|y b] Ha Hb;
    simpl in *; try congruence.
  f_equal. rewrite <- seq_shift, <- list_fmap_compose. apply IH; congruence.
Qed.

Lemma fmap_seq_nth {A B} (f : A -> B) d (a : list A) :
  f <$> a = (fun t => f (nth t a d)) <$> seq 0 (length a).
Proof.
  induction a as [|x a IH]; simpl; [reflexivity|].
  f_equal. now rewrite <- seq_shift, <- list_fmap_compose.
Qed.

Lemma shape_cons {A} B L (row : list A) t :
  shape (S B) L (row :: t) <-> length row = L /\ shape B L t.
Proof.
  unfold shape. simpl. rewrite Forall_cons. intuition lia.
Qed.

Lemma shape_nil_inv {A} B L : shape B L (@nil (list A)) -> B = O.
Proof. now intros [<- _]. Qed.

Lemma shape_length_flat {A} B L (t : list (list A)) :
  shape B L t -> length (Torch.view_flat t) = (B * L)%nat.
Proof.
  revert B. induction t as [|row t IH]; intros B H.
  - now rewrite (shape_nil_inv _ _ H).
  - destruct B as [|B]; [destruct H; discriminate|].
    apply shape_cons in H as [Hr Ht]. unfold Torch.view_flat in *. simpl.
    rewrite length_app, (IH _ Ht). lia.
Qed.

Lemma sum2_S B L f :
  sum2 (S B) L f == Torch.sum (f O <$> seq 0 L) + sum2 B L (fun b => f (S b)).
Proof.
  unfold sum2. rewrite <- cons_seq, fmap_cons, sum_cons.
  rewrite <- seq_shift. change (map S) with (fmap (M:=list) S).
  rewrite <- list_fmap_compose. reflexivity.
Qed.

End SumFacts.

(** *** The loss mask and the loss *)

Section CriterionFacts.
Import RewardCriterion.
Local Open Scope Q_scope.

Lemma removelast_length {A} (l : list A) :
  length (removelast l) = pred (length l).
Proof.
  induction l as [|x [|y l] IH]; [reflexivity..|].
  change (removelast (x :: y :: l)) with (x :: removelast (y :: l)).
  simpl length in *. now rewrite IH.
Qed.

Lemma removelast_nth {A} (d : A) (l : list A) t :
  (S t < length l)%nat -> nth t (removelast l) d = nth t l d.
Proof.
  revert t. induction l as [|x [|y l] IH]; intros t Ht; simpl in Ht; [lia..|].
  change (removelast (x :: y :: l)) with (x :: removelast (y :: l)).
  destruct t as [|t]; [reflexivity|]. cbn [nth]. apply IH. simpl. lia.
Qed.

Lemma removelast_Forall {A} (P : A -> Prop) (l : list A) :
  Forall P l -> Forall P (removelast l).
Proof.
  induction l as [|x [|y l] IH]; intros H; [constructor..|].
  change (removelast (x :: y :: l)) with (x :: removelast (y :: l)).
  inversion H; subst. constructor; auto.
Qed.

Lemma shifted_mask_rows sq : shifted_mask sq = shift_row <$> sq.
Proof.
  unfold shifted_mask. rewrite <- list_fmap_compose. reflexivity.
Qed.

Lemma shift_row_length row : (1 <= length row)%nat ->
  length (shift_row row) = length row.
Proof.
  intros H. unfold shift_row. simpl. rewrite removelast_length, length_fmap. lia.
Qed.

Lemma shift_row_nth row t : (t < length row)%nat ->
  nth t (shift_row row) 0 = spec_mask row t.
Proof.
  intros Ht. destruct t as [|t]; [reflexivity|].
  unfold shift_row. simpl nth. rewrite removelast_nth.
  - change 0 with (Torch.gt0 0%Z) at 1.
    change (fmap Torch.gt0 row) with (map Torch.gt0 row).
    now rewrite map_nth.
  - now rewrite length_fmap.
Qed.

Lemma shifted_mask_shape B L sq : (1 <= L)%nat ->
  shape B L sq -> shape B L (shifted_mask sq).
Proof.
  intros HL [HB Hrows]. rewrite shifted_mask_rows. split.
  - now rewrite length_fmap.
  - apply Forall_fmap. eapply Forall_impl; [exact Hrows|].
    intros row Hr. unfold compose. cbv beta in Hr. rewrite shift_row_length; lia.
Qed.

Lemma zip_with3_seq (l r m : list Q) L :
  length l = L -> length r = L -> length m = L ->
  zip_with Qmult (zip_with Qmult (Qopp <$> l) r) m =
  (fun t => - nth t l 0 * nth t r 0 * nth t m 0) <$> seq 0 L.
Proof.
  revert l r m. induction L as [|L IH]; intros [|x l] [|y r] [|z m] Hl Hr Hm;
    simpl in *; try congruence.
  f_equal. rewrite <- seq_shift. change (map S) with (fmap (M:=list) S).
  rewrite <- list_fmap_compose. apply IH; congruence.
Qed.

Lemma row_loss (l r : list Q) (s : list Z) L : (1 <= L)%nat ->
  length l = L -> length r = L -> length s = L ->
  Torch.sum (zip_with Qmult (zip_with Qmult (Qopp <$> l) r) (shift_row s)) ==
  - Torch.sum ((fun t => nth t l 0 * nth t r 0 * spec_mask s t) <$> seq 0 L).
Proof.
  intros HL Hl Hr Hs.
  rewrite (zip_with3_seq l r (shift_row s) L); auto.
  2:{ rewrite shift_row_length; lia. }
  rewrite <- sum_map_opp. apply sum_map_ext. intros t Ht.
  apply in_seq in Ht. rewrite shift_row_nth by lia. ring.
Qed.

Lemma row_mask_sum (s : list Z) L : (1 <= L)%nat -> length s = L ->
  Torch.sum (shift_row s) == Torch.sum (spec_mask s <$> seq 0 L).
Proof.
  intros HL Hs.
  rewrite <- (list_fmap_id (shift_row s)).
  rewrite (fmap_seq_nth id 0 (shift_row s)), shift_row_length by lia.
  rewrite Hs. apply sum_map_ext. intros t Ht. apply in_seq in Ht.
  unfold id. rewrite shift_row_nth by lia. reflexivity.
Qed.

Lemma flat_loss B L (lp rw : list (list Q)) (sq : list (list Z)) :
  (1 <= L)%nat -> shape B L lp -> shape B L sq -> shape B L rw ->
  Torch.sum (zip_with Qmult
               (zip_with Qmult (Qopp <$> Torch.view_flat lp) (Torch.view_flat rw))
               (Torch.view_flat (shifted_mask sq))) ==
  - sum2 B L (fun b t => at2 0 lp b t * at2 0 rw b t * spec_mask (nth b sq []) t).
Proof.
  intros HL. rewrite shifted_mask_rows. unfold Torch.view_flat.
  revert lp rw sq. induction B as [|B IH]; intros lp rw sq Hlp Hsq Hrw.
  - destruct Hlp as [Hlp _], Hsq as [Hsq _], Hrw as [Hrw _].
    destruct lp, rw, sq; try discriminate. reflexivity.
  - destruct lp as [|l lp]; [destruct Hlp; discriminate|].
    destruct rw as [|r rw]; [destruct Hrw; discriminate|].
    destruct sq as [|s sq]; [destruct Hsq; discriminate|].
    apply shape_cons in Hlp as [Hl Hlp], Hsq as [Hs Hsq], Hrw as [Hr Hrw].
    rewrite fmap_cons. cbn [concat]. rewrite fmap_app.
    rewrite !zip_with_app.
    2:{ rewrite length_zip_with, length_fmap, shift_row_length; lia. }
    2:{ rewrite length_fmap. congruence. }
    rewrite sum_app, sum2_S, (row_loss l r s L), (IH lp rw sq); auto.
    unfold at2. cbn [nth]. ring.
Qed.

Lemma flat_mask_sum B L (sq : list (list Z)) :
  (1 <= L)%nat -> shape B L sq ->
  Torch.sum (Torch.view_flat (shifted_mask sq)) ==
  sum2 B L (fun b t => spec_mask (nth b sq []) t).
Proof.
  intros HL. rewrite shifted_mask_rows. unfold Torch.view_flat.
  revert sq. induction B as [|B IH]; intros sq Hsq.
  - destruct Hsq as [Hsq _]. destruct sq; try discriminate. reflexivity.
  - destruct sq as [|s sq]; [destruct Hsq; discriminate|].
    apply shape_cons in Hsq as [Hs Hsq].
    rewrite fmap_cons. cbn [concat].
    rewrite sum_app, sum2_S, (row_mask_sum s L), (IH sq); auto.
    reflexivity.
Qed.

End CriterionFacts.

Section CriterionTheorems.
Import RewardCriterion.
Local Open Scope Q_scope.

Lemma gt0_nonneg w : 0 <= Torch.gt0 w.
Proof. unfold Torch.gt0. destruct (0 <? w)%Z; discriminate. Qed.

Lemma shift_row_sum_ge row : 1 <= Torch.sum (shift_row row).
Proof.
  unfold shift_row. rewrite sum_cons.
  rewrite <- (Qplus_0_r 1) at 1. apply Qplus_le_compat; [apply Qle_refl|].
  apply sum_nonneg, removelast_Forall, Forall_fmap, Forall_forall.
  intros w _. apply gt0_nonneg.
Qed.

Lemma flat_mask_sum_ge sq :
  inject_Z (Z.of_nat (length sq)) <= Torch.sum (Torch.view_flat (shifted_mask sq)).
Proof.
  rewrite shifted_mask_rows. unfold Torch.view_flat.
  induction sq as [|s sq IH]; [apply Qle_refl|].
  rewrite fmap_cons. cbn [concat length]. rewrite sum_app.
  rewrite Nat2Z.inj_succ, <- Z.add_1_l, inject_Z_plus.
  apply Qplus_le_compat; [apply shift_row_sum_ge|exact IH].
Qed.

Lemma shift_row_spec row : (1 <= length row)%nat ->
  shift_row row = spec_mask row <$> seq 0 (length row).
Proof.
  intros H. rewrite <- (list_fmap_id (shift_row row)).
  rewrite (fmap_seq_nth id 0 (shift_row row)), shift_row_length by lia.
  apply map_ext_in. intros t Ht. apply in_seq in Ht.
  unfold id. apply shift_row_nth. lia.
Qed.

(** C1: on a batch of [B >= 1] rows and [L >= 1] columns,
    [RewardCriterion.forward] returns
    [- sum (logprob * advantage * mask) / sum mask], where row [b] of the mask
    is 1 at column 0 and the indicator of [seq[b][t-1] > 0] at column
    [t >= 1]; the denominator is not zero; for [seq = [5,7,0,0]] the mask is
    [[1,1,1,0]]. *)
Theorem C1_reward_criterion_forward B L (lp : list (list Q))
    (sq : list (list Z)) (rw : list (list Q)) :
  (1 <= B)%nat -> (1 <= L)%nat ->
  shape B L lp -> shape B L sq -> shape B L rw ->
  (exists out, forward lp sq rw = Some out /\ out == spec_loss B L lp sq rw)
  /\ ~ sum2 B L (fun b t => spec_mask (nth b sq []) t) == 0
  /\ (forall b row, sq !! b = Some row ->
        shifted_mask sq !! b = Some (spec_mask row <$> seq 0 L))
  /\ shifted_mask [[5; 7; 0; 0]%Z] = [[1; 1; 1; 0]].
Proof.
  intros HB HL Hlp Hsq Hrw.
  assert (Hden : 0 < Torch.sum (Torch.view_flat (shifted_mask sq))).
  { eapply Qlt_le_trans; [|apply flat_mask_sum_ge].
    destruct Hsq as [-> _]. change 0 with (inject_Z 0). rewrite <- Zlt_Qlt. lia. }
  split; [|split; [|split]].
  - unfold forward, Torch.pointwise.
    pose proof (shifted_mask_shape B L sq HL Hsq) as Hm.
    rewrite decide_True.
    2:{ rewrite length_fmap, (shape_length_flat B L lp), (shape_length_flat B L rw); auto. }
    cbn [mbind option_bind]. rewrite decide_True.
    2:{ rewrite length_zip_with, length_fmap.
        rewrite (shape_length_flat B L lp), (shape_length_flat B L rw),
          (shape_length_flat B L _ Hm); auto. lia. }
    cbn [mbind option_bind]. eexists; split; [reflexivity|].
    unfold spec_loss. rewrite (flat_loss B L), (flat_mask_sum B L); auto.
    reflexivity.
  - rewrite <- (flat_mask_sum B L) by auto. intros H. rewrite H in Hden.
    now apply Qlt_irrefl in Hden.
  - intros b row Hb. rewrite shifted_mask_rows, list_lookup_fmap, Hb. simpl.
    destruct Hsq as [_ Hrows]. rewrite Forall_forall in Hrows.
    assert (length row = L) as <-.
    { apply Hrows, list_elem_of_lookup. eauto. }
    now rewrite shift_row_spec.
  - reflexivity.
Qed.

(** C9: the first column of the shifted mask is 1 whatever the sequence
    tensor holds, so for a batch of [B >= 1] rows the sum of the mask is at
    least [B] and the divisor of the loss is not zero. *)
Theorem C9_mask_sum_positive (sq : list (list Z)) :
  (1 <= length sq)%nat ->
  Forall (fun row => row !! O = Some 1) (shifted_mask sq)
  /\ inject_Z (Z.of_nat (length sq))
       <= Torch.sum (Torch.view_flat (shifted_mask sq))
  /\ 0 < Torch.sum (Torch.view_flat (shifted_mask sq))
  /\ (forall lp rw out, forward lp sq rw = Some out ->
        exists num, out = num / Torch.sum (Torch.view_flat (shifted_mask sq))
                    /\ ~ Torch.sum (Torch.view_flat (shifted_mask sq)) == 0).
Proof.
  intros HB.
  assert (Hden : 0 < Torch.sum (Torch.view_flat (shifted_mask sq))).
  { eapply Qlt_le_trans; [|apply flat_mask_sum_ge].
    change 0 with (inject_Z 0). rewrite <- Zlt_Qlt. lia. }
  split; [|split; [|split]]; auto using flat_mask_sum_ge.
  - rewrite shifted_mask_rows. apply Forall_fmap, Forall_forall. now intros.
  - intros lp rw out. unfold forward.
    destruct (Torch.pointwise _ _ _) as [o1|]; [|discriminate]. cbn [mbind option_bind].
    destruct (Torch.pointwise _ _ _) as [o2|]; [|discriminate]. cbn [mbind option_bind].
    intros [= <-]. eexists; split; [reflexivity|].
    intros H. rewrite H in Hden. now apply Qlt_irrefl in Hden.
Qed.

End CriterionTheorems.

(** *** Loops that fill a dictionary *)

Section LoopFacts.
Context {X V : Type}.

Lemma for_loop_insert (src : nat -> option X) (g : nat -> X -> V)
    (k : nat -> nat) (indices : list nat) (m : gmap nat V) :
  (forall i j, k i = k j -> i = j) ->
  (forall i, i ∈ indices -> is_Some (src i)) ->
  exists m',
    for_loop indices (fun i s => x ← src i; Some (<[k i := g i x]> s)) m = Some m'
    /\ (forall i, i ∈ indices -> m' !! k i = g i <$> src i)
    /\ (forall j, (forall i, i ∈ indices -> j <> k i) -> m' !! j = m !! j).
Proof.
  intros Hk. revert m. induction indices as [|i0 rest IH]; intros m Hsrc.
  - exists m. split; [reflexivity|]. split; [|reflexivity].
    intros i Hi. now apply elem_of_nil in Hi.
  - destruct (Hsrc i0) as [x0 Hx0]; [left|].
    destruct (IH (<[k i0 := g i0 x0]> m)) as (m' & Hrun & Hin & Hout).
    { intros i Hi. apply Hsrc. now right. }
    exists m'. split; [|split].
    + cbn [for_loop]. rewrite Hx0. exact Hrun.
    + intros i Hi. apply elem_of_cons in Hi as [->|Hi]; [|now apply Hin].
      destruct (decide (i0 ∈ rest)) as [Hr|Hr]; [now apply Hin|].
      rewrite Hout, lookup_insert_eq, Hx0; [reflexivity|].
      intros i Hi Heq. apply Hk in Heq. now subst.
    + intros j Hj. rewrite Hout.
      * apply lookup_insert_ne. intros Heq. apply (Hj i0); [left|easy].
      * intros i Hi. apply Hj. now right.
Qed.

Lemma mapM_total {A B} (f : A -> option B) (h : A -> B) (l : list A) :
  (forall x, x ∈ l -> f x = Some (h x)) -> mapM f l = Some (h <$> l).
Proof.
  induction l as [|x l IH]; intros H; [reflexivity|].
  cbn [mapM]. rewrite (H x) by left. cbn [mbind option_bind].
  rewrite IH; [reflexivity|]. intros y Hy. apply H. now right.
Qed.

End LoopFacts.

Lemma lookup_nth_Some {A} (d : A) (l : list A) i :
  (i < length l)%nat -> l !! i = Some (nth i l d).
Proof.
  intros H. destruct (nth_lookup_or_length l i d) as [Hn|]; [|lia].
  rewrite <- Hn. apply lookup_lt_is_Some_2 in H as [x Hx]. now rewrite Hx.
Qed.

Lemma build_gts_spec (gt : list (list (list Z))) :
  exists gts, build_gts gt = Some gts
    /\ forall i, (i < length gt)%nat ->
         gts !! i = Some (array_to_str <$> nth i gt []).
Proof.
  unfold build_gts, for_range.
  destruct (for_loop_insert (fun i => gt !! i) (fun _ caps => array_to_str <$> caps)
              id (seq 0 (length gt)) ∅) as (g1 & Hrun & Hin & _); [auto|..].
  { intros i Hi. apply elem_of_seq in Hi. apply lookup_lt_is_Some_2. lia. }
  unfold id in Hrun. rewrite Hrun. exists g1. split; [reflexivity|].
  intros i Hi. change i with (id i) at 1. rewrite Hin by (apply elem_of_seq; lia).
  now rewrite (lookup_nth_Some [] gt i).
Qed.

(** *** The self-critical reward *)

Section RewardFacts.
Variable metric : list string -> list string -> Q.
Variables gen greedy : list (list Z).
Variable gt : list (list (list Z)).
Let B := length gen.
Hypothesis greedy_rows : (B <= length greedy)%nat.
Hypothesis gt_rows : (B <= length gt)%nat.

(** The hypothesis entry and the references of position [i] of the call. *)
Let hyp (i : nat) : list string :=
  if decide (i < B)%nat then [array_to_str (nth i gen [])]
  else [array_to_str (nth (i - B) greedy [])].
Let refs (i : nat) : list string := array_to_str <$> nth (i mod B) gt [].

Lemma build_res_spec :
  exists res, build_res gen greedy = Some res
    /\ forall i, (i < 2 * B)%nat -> res !! i = Some (hyp i).
Proof.
  unfold build_res, for_range. fold B.
  destruct (for_loop_insert (fun i => gen !! i) (fun _ row => [array_to_str row])
              id (seq 0 B) ∅) as (r1 & Hrun1 & Hin1 & _); [auto|..].
  { intros i Hi. apply elem_of_seq in Hi. apply lookup_lt_is_Some_2. unfold B in Hi. lia. }
  unfold id in Hrun1. rewrite Hrun1. cbn [mbind option_bind].
  destruct (for_loop_insert (fun i => greedy !! i) (fun _ row => [array_to_str row])
              (fun i => (B + i)%nat) (seq 0 B) r1) as (r2 & Hrun2 & Hin2 & Hout2).
  { intros i j. lia. }
  { intros i Hi. apply elem_of_seq in Hi. apply lookup_lt_is_Some_2. lia. }
  rewrite Hrun2. exists r2. split; [reflexivity|].
  intros i Hi. unfold hyp. destruct (decide (i < B)%nat) as [Hlt|Hge].
  - rewrite Hout2.
    + change i with (id i) at 1. rewrite Hin1 by (apply elem_of_seq; lia).
      rewrite (lookup_nth_Some [] gen i) by (unfold B in Hlt; lia). reflexivity.
    + intros j Hj. lia.
  - replace i with (B + (i - B))%nat at 1 by lia.
    rewrite Hin2 by (apply elem_of_seq; lia).
    rewrite (lookup_nth_Some [] greedy (i - B)) by lia. reflexivity.
Qed.

Lemma scorer_inputs_spec :
  exists gts, scorer_inputs gen greedy gt
              = Some (gts, (fun i => (i, hyp i)) <$> seq 0 (2 * B))
    /\ forall i, (i < 2 * B)%nat -> gts !! i = Some (refs i).
Proof.
  unfold scorer_inputs. fold B.
  destruct build_res_spec as (res & -> & Hres).
  destruct (build_gts_spec gt) as (gts0 & -> & Hgts0). cbn [mbind option_bind].
  rewrite (mapM_total _ (fun i => (i, hyp i))).
  2:{ intros i Hi. apply elem_of_seq in Hi. rewrite Hres by lia. reflexivity. }
  cbn [mbind option_bind]. unfold for_range.
  destruct (for_loop_insert (fun i => gts0 !! (i mod B)%nat) (fun _ r => r)
              id (seq 0 (2 * B)) ∅) as (g2 & Hrun & Hin & _); [auto|..].
  { intros i Hi. apply elem_of_seq in Hi. rewrite Hgts0; [eauto|].
    assert (i mod B < B)%nat by (apply Nat.mod_upper_bound; lia). lia. }
  unfold id in Hrun. rewrite Hrun. exists g2. split; [reflexivity|].
  intros i Hi. change i with (id i) at 1. rewrite Hin by (apply elem_of_seq; lia).
  rewrite Hgts0; [reflexivity|].
  assert (i mod B < B)%nat by (apply Nat.mod_upper_bound; lia). lia.
Qed.

Lemma compute_score_spec gts :
  (forall i, (i < 2 * B)%nat -> gts !! i = Some (refs i)) ->
  exists mean,
    CiderD_compute_score metric gts ((fun i => (i, hyp i)) <$> seq 0 (2 * B))
    = Some (mean, (fun i => metric (hyp i) (refs i)) <$> seq 0 (2 * B)).
Proof.
  intros Hgts. unfold CiderD_compute_score.
  rewrite (mapM_total _ (fun r => metric r.2 (refs r.1))).
  - cbn [mbind option_bind]. rewrite <- list_fmap_compose. eexists. reflexivity.
  - intros [i c] Hi. apply list_elem_of_fmap in Hi as (j & [= -> ->] & Hj).
    apply elem_of_seq in Hj. cbn [fst snd]. rewrite Hgts by lia. reflexivity.
Qed.

Lemma reward_rows :
  exists gts mean,
    scorer_inputs gen greedy gt
    = Some (gts, (fun i => (i, hyp i)) <$> seq 0 (2 * B))
    /\ (forall i, (i < 2 * B)%nat -> gts !! i = Some (refs i))
    /\ CiderD_compute_score metric gts ((fun i => (i, hyp i)) <$> seq 0 (2 * B))
       = Some (mean, (fun i => metric (hyp i) (refs i)) <$> seq 0 (2 * B))
    /\ get_self_critical_reward metric gen greedy gt 1
       = Some ((fun i => replicate (ncols gen)
                           (1 * metric (hyp i) (refs i)
                            - 1 * metric (hyp (B + i)) (refs (B + i)))%Q)
               <$> seq 0 B).
Proof.
  destruct scorer_inputs_spec as (gts & Hin & Hgts).
  destruct (compute_score_spec gts Hgts) as (mean & Hsc).
  exists gts, mean. repeat split; auto.
  unfold get_self_critical_reward. fold B. rewrite Hin. cbn [mbind option_bind].
  rewrite Hsc. cbn [mbind option_bind].
  replace (2 * B)%nat with (B + B)%nat by lia.
  rewrite seq_app, !fmap_app, Nat.add_0_l.
  rewrite take_app_length', drop_app_length' by now rewrite !length_fmap, length_seq.
  unfold Torch.pointwise. rewrite decide_True by now rewrite !length_fmap, !length_seq.
  cbn [mbind option_bind]. f_equal.
  replace (seq B B) with (Nat.add B <$> seq 0 B)
    by now rewrite fmap_add_seq, Nat.add_0_r.
  rewrite <- !list_fmap_compose, zip_with_fmap_l, zip_with_fmap_r, zip_with_diag.
  rewrite <- list_fmap_compose. reflexivity.
Qed.

End RewardFacts.

(** C2: [get_self_critical_reward] calls the scorer once, on the
    [2 * batch_size] hypotheses of the sampled and the greedy batch;
    hypotheses [i] and [batch_size + i] are scored against the references of
    image [i]; row [i] of the result repeats, in each of the [max_len]
    columns, the score of the sampled caption minus the score of the greedy
    one. *)
Theorem C2_self_critical_reward (metric : list string -> list string -> Q)
    (gen greedy : list (list Z)) (gt : list (list (list Z))) :
  (length gen <= length greedy)%nat -> (length gen <= length gt)%nat ->
  exists gts res_ mean cider_scores rewards,
    scorer_inputs gen greedy gt = Some (gts, res_)
    /\ CiderD_compute_score metric gts res_ = Some (mean, cider_scores)
    /\ get_self_critical_reward metric gen greedy gt 1 = Some rewards
    /\ length res_ = (2 * length gen)%nat
    /\ length rewards = length gen
    /\ forall i s g refs,
         gen !! i = Some s -> greedy !! i = Some g -> gt !! i = Some refs ->
         res_ !! i = Some (i, [array_to_str s])
         /\ res_ !! (length gen + i)%nat
            = Some ((length gen + i)%nat, [array_to_str g])
         /\ gts !! i = Some (array_to_str <$> refs)
         /\ gts !! (length gen + i)%nat = Some (array_to_str <$> refs)
         /\ exists adv,
              (adv == metric [array_to_str s] (array_to_str <$> refs)
                      - metric [array_to_str g] (array_to_str <$> refs))%Q
              /\ rewards !! i = Some (replicate (ncols gen) adv).
Proof.
  intros Hgreedy Hgt.
  destruct (reward_rows metric gen greedy gt Hgreedy Hgt)
    as (gts & mean & Hin & Hgts & Hsc & Hrw).
  set (B := length gen) in *.
  eexists gts, _, mean, _, _. split; [exact Hin|]. split; [exact Hsc|].
  split; [exact Hrw|]. split; [now rewrite length_fmap, length_seq|].
  split; [now rewrite length_fmap, length_seq|].
  intros i s g refs Hs Hg Hr.
  assert (Hi : (i < B)%nat) by (apply lookup_lt_Some in Hs; exact Hs).
  assert (Hmod : (i mod B = i)%nat) by (apply Nat.mod_small; lia).
  assert (Hmod' : ((B + i) mod B = i)%nat).
  { rewrite Nat.Div0.add_mod, Nat.Div0.mod_same, Nat.add_0_l, Nat.Div0.mod_mod.
    exact Hmod. }
  rewrite !list_lookup_fmap, !lookup_seq_lt by lia. cbn [fmap option_fmap option_map].
  rewrite !Hgts by lia. cbn [Nat.add].
  rewrite decide_True by lia. rewrite decide_False by lia.
  rewrite Hmod, Hmod'. replace (B + i - B)%nat with i by lia.
  rewrite (nth_lookup_Some _ _ [] _ Hs), (nth_lookup_Some _ _ [] _ Hg),
    (nth_lookup_Some _ _ [] _ Hr).
  repeat split. eexists. split; [|reflexivity]. ring.
Qed.

(** *** Scoring strings of hypotheses and references *)

Section ScoringFacts.
Variable word_map : gmap string Z.
Variables s p e : Z.
Hypothesis has_start : word_map !! "<start>" = Some s.
Hypothesis has_pad : word_map !! "<pad>" = Some p.
Hypothesis has_end : word_map !! "<end>" = Some e.

Lemma filter_snd_fst (b : Z -> bool) (c : list Z) :
  fst <$> filter (fun wb : Z * bool => snd wb = true) ((fun w => (w, b w)) <$> c)
  = filter (fun w => b w = true) c.
Proof.
  induction c as [|w c IH]; [reflexivity|].
  rewrite fmap_cons, !filter_cons. cbn [snd].
  destruct (decide (b w = true)); [rewrite fmap_cons|]; now rewrite IH.
Qed.

Lemma drop_start_pad_spec c :
  drop_start_pad word_map c
  = Some (filter (fun w => negb ((w =? s) || (w =? p)) = true) c).
Proof.
  unfold drop_start_pad.
  rewrite (mapM_total _ (fun w => (w, negb ((w =? s) || (w =? p))))).
  - cbn [mbind option_bind]. now rewrite filter_snd_fst.
  - intros w _. now rewrite has_start, has_pad.
Qed.

Lemma end_to_zero_spec c :
  end_to_zero word_map c = Some ((fun w => if negb (w =? e) then w else 0) <$> c).
Proof.
  unfold end_to_zero. apply mapM_total. intros w _. now rewrite has_end.
Qed.

Lemma preprocess_gd_spec (allcaps : list (list (list Z))) :
  preprocess_gd allcaps word_map
  = Some (fmap (M:=list) (strip_caption s p e) <$> allcaps).
Proof.
  unfold preprocess_gd. apply mapM_total. intros img_caps _.
  rewrite (mapM_total _ (filter (fun w => negb ((w =? s) || (w =? p)) = true))).
  - cbn [mbind option_bind].
    rewrite (mapM_total _ (fmap (M:=list) (fun w => if negb (w =? e) then w else 0))).
    + now rewrite <- list_fmap_compose.
    + intros c _. apply end_to_zero_spec.
  - intros c _. apply drop_start_pad_spec.
Qed.

End ScoringFacts.

(** C4, as stated, fails: the string of [[3,4,0,0]] is ["3 4 0"], with the
    first 0, not the ids before it. *)
Lemma C4_counterexample :
  array_to_str [3; 4; 0; 0] <> ids_to_str (before_first_zero [3; 4; 0; 0]).
Proof. vm_compute. discriminate. Qed.

(** C4, amended: [array_to_str] joins with single spaces the ids up to and
    including the first 0 (all of them when there is none); [preprocess_gd]
    drops the [<start>] and [<pad>] ids of every reference caption and then
    rewrites [<end>] to 0; the reference strings handed to the scorer are
    [array_to_str] of these captions, so hypotheses and references are cut by
    the same rule. *)
Theorem C4_scoring_strings (word_map : gmap string Z) (s p e : Z)
    (allcaps : list (list (list Z))) :
  word_map !! "<start>" = Some s ->
  word_map !! "<pad>" = Some p ->
  word_map !! "<end>" = Some e ->
  (forall arr, array_to_str arr = ids_to_str (through_first_zero arr))
  /\ exists ground_truth gts,
       preprocess_gd allcaps word_map = Some ground_truth
       /\ ground_truth = fmap (M:=list) (strip_caption s p e) <$> allcaps
       /\ build_gts ground_truth = Some gts
       /\ forall i caps, ground_truth !! i = Some caps ->
            gts !! i = Some ((fun c => ids_to_str (through_first_zero c)) <$> caps).
Proof.
  intros Hs Hp He. split; [apply array_to_str_spec|].
  destruct (build_gts_spec
              (fmap (M:=list) (fmap (M:=list) (strip_caption s p e)) allcaps))
    as (gts & Hrun & Hgts).
  eexists _, gts.
  split; [exact (preprocess_gd_spec word_map s p e Hs Hp He allcaps)|].
  split; [reflexivity|].
  split; [exact Hrun|]. intros i caps Hi.
  rewrite Hgts by (now apply lookup_lt_Some in Hi).
  rewrite (nth_lookup_Some _ _ [] _ Hi). f_equal.
  apply list_fmap_ext. intros _ c _. apply array_to_str_spec.
Qed.

(** *** The decoding loop *)

Section BreakFacts.
Context {S : Type}.

Lemma for_break_inv (P : nat -> S -> Prop) (Q : S -> Prop)
    (body : nat -> S -> option (ctl S)) (n start : nat) (s s_final : S) :
  (forall i s c, (start <= i < start + n)%nat -> P i s -> body i s = Some c ->
     match c with Next s' => P (Datatypes.S i) s' | Break s' => Q s' end) ->
  (forall s, P (start + n)%nat s -> Q s) ->
  P start s -> for_break (seq start n) body s = Some s_final -> Q s_final.
Proof.
  revert start s. induction n as [|n IH]; intros start s Hbody Hend HP Hrun.
  - injection Hrun as <-. apply Hend. now rewrite Nat.add_0_r.
  - cbn [seq for_break] in Hrun.
    destruct (body start s) as [[s'|s']|] eqn:Hb; [| |discriminate].
    + apply (IH (Datatypes.S start) s'); auto.
      * intros i s0 c Hi. apply Hbody. lia.
      * intros s0 Hs0. apply Hend.
        now replace (start + Datatypes.S n)%nat with (Datatypes.S start + n)%nat by lia.
      * apply (Hbody start s (Next s')); [lia|auto..].
    + injection Hrun as <-. apply (Hbody start s (Break s')); [lia|auto..].
Qed.

End BreakFacts.

Section RowFacts.

Lemma inv_row_init : inv_row O true (replicate DAE.max_len 0).
Proof.
  split; [apply length_replicate|]. split; [|split].
  - intros j Hj. apply lookup_replicate_2. lia.
  - intros i j w _ _ Hj. now apply lookup_replicate_1 in Hj as [-> _].
  - intros _ i Hi. lia.
Qed.

Lemma inv_row_step t u row w :
  (t < DAE.max_len)%nat -> inv_row t u row ->
  let u' := if decide (t = O) then 0 <? w else u && (0 <? w) in
  inv_row (S t) u' (<[t := w * (if u' then 1 else 0)]> row).
Proof.
  intros Ht (Hlen & Hzero & Hclosed & Hpos) u'.
  assert (Hv : u' = false -> w * (if u' then 1 else 0) = 0).
  { intros ->. lia. }
  assert (Hw : u' = true -> w * (if u' then 1 else 0) <> 0 /\ (t <> O -> u = true)).
  { intros Hu. rewrite Hu. subst u'. destruct (decide (t = O)).
    - apply Z.ltb_lt in Hu. split; [lia|easy].
    - apply andb_prop in Hu as [-> Hu]. apply Z.ltb_lt in Hu. split; [lia|easy]. }
  split; [now rewrite length_insert|]. split; [|split].
  - intros j Hj. rewrite list_lookup_insert_ne by lia. apply Hzero. lia.
  - intros i j x Hij Hi Hj.
    destruct (decide (j = t)) as [->|Hjt].
    + rewrite list_lookup_insert_eq in Hj by lia. injection Hj as <-.
      rewrite list_lookup_insert_ne in Hi by lia.
      apply Hv. destruct u' eqn:Hu; [|reflexivity].
      destruct (Hw eq_refl) as [_ Hu0]. exfalso.
      apply (Hpos (Hu0 ltac:(lia)) i); [lia|exact Hi].
    + rewrite list_lookup_insert_ne in Hj by lia.
      destruct (decide (i = t)) as [->|Hit].
      * rewrite Hzero in Hj; [congruence|]. apply lookup_lt_Some in Hj. lia.
      * rewrite list_lookup_insert_ne in Hi by lia. eapply Hclosed; eauto.
  - intros Hu i Hi. destruct (Hw Hu) as [Hne Hu0].
    destruct (decide (i = t)) as [->|Hit].
    + rewrite list_lookup_insert_eq by lia. congruence.
    + rewrite list_lookup_insert_ne by lia. apply Hpos; [apply Hu0|]; lia.
Qed.

End RowFacts.

Section StoreFacts.

Lemma stored_inv t (unf : list bool) (sq : list (list Z)) (it1 : list Z) :
  (t < DAE.max_len)%nat ->
  match t with
  | O => Forall (inv_row O true) sq
  | S _ => Forall2 (inv_row t) unf sq
  end ->
  let unf' := if decide (t = O) then gt0b <$> it1
              else zip_with andb unf (gt0b <$> it1) in
  let it' := zip_with mask_token it1 unf' in
  length it' = length sq ->
  Forall2 (inv_row (S t)) unf' (zip_with (fun row v => <[t := v]> row) sq it').
Proof.
  intros Ht Hinv unf' it' Hlen.
  assert (Hunf : length unf' = length sq).
  { subst it' unf'. rewrite length_zip_with in Hlen. destruct (decide (t = O)).
    - rewrite length_fmap in *. lia.
    - destruct t as [|t]; [easy|]. apply Forall2_length in Hinv.
      rewrite length_zip_with, length_fmap in *. lia. }
  apply Forall2_same_length_lookup_2.
  { rewrite length_zip_with. lia. }
  intros b u' row' Hu' Hrow'.
  apply lookup_zip_with_Some in Hrow' as (row & v & -> & Hrow & Hv).
  apply lookup_zip_with_Some in Hv as (w & u'' & -> & Hw & Hu'').
  rewrite Hu' in Hu''. injection Hu'' as <-.
  subst unf'. destruct (decide (t = O)) as [->|Hne].
  - rewrite list_lookup_fmap, Hw in Hu'. injection Hu' as <-.
    rewrite Forall_lookup in Hinv.
    apply (inv_row_step O true row w Ht (Hinv b row Hrow)).
  - destruct t as [|t]; [easy|].
    apply lookup_zip_with_Some in Hu' as (u & x & -> & Hu & Hx).
    rewrite list_lookup_fmap, Hw in Hx. injection Hx as <-.
    pose proof (Forall2_lookup_lr _ _ _ _ _ _ Hinv Hu Hrow) as Hr.
    pose proof (inv_row_step (S t) u row w Ht Hr) as Hstep.
    rewrite decide_False in Hstep by lia. exact Hstep.
Qed.

End StoreFacts.

Section ForwardFacts.
Variables Enc Hidden Gen : Type.
Variable caption_encoder : list (list Z) -> list Z -> option Enc.
Variable init_hidden_state : nat -> Hidden.
Variable decoder_step :
  Enc -> Hidden -> Gen -> list Z -> Hidden * Gen * list (list Q).
Variable multinomial : Gen -> list Q -> Gen * Z.

Local Abbreviation step := (DAE.step Enc Hidden Gen decoder_step multinomial).
Local Abbreviation forward :=
  (DAE.forward Enc Hidden Gen caption_encoder init_hidden_state decoder_step
     multinomial).

Lemma step_last word_map sample_max sample_rl enc s c :
  step word_map sample_max sample_rl enc DAE.max_len s = Some c ->
  exists s', c = Break s' /\ DAE.seq s' = DAE.seq s
             /\ DAE.seqLogprobs s' = DAE.seqLogprobs s
             /\ DAE.unfinished s' = DAE.unfinished s.
Proof.
  unfold DAE.step. destruct (decoder_step _ _ _ _) as [[h g] lps].
  rewrite decide_True by reflexivity. intros [= <-]. eauto.
Qed.

Lemma step_inv word_map sample_max sample_rl enc t s c :
  (t < DAE.max_len)%nat -> inv_state t s ->
  step word_map sample_max sample_rl enc t s = Some c ->
  inv_state (S t) (ctl_state c).
Proof.
  intros Ht Hinv Hstep. unfold DAE.step in Hstep.
  destruct (decoder_step _ _ _ _) as [[h g] lps].
  rewrite decide_False in Hstep by lia.
  bind_some Hstep. bind_some Hstep. bind_some Hstep. bind_some Hstep.
  bind_some Hstep. bind_some Hstep.
  match type of Hstep with
  | (if ?b then Some (Break ?s1) else _) = _ =>
      assert (Hc : ctl_state c = s1) by (destruct b; now injection Hstep as <-)
  end.
  rewrite Hc. unfold inv_state. cbn [DAE.unfinished DAE.seq].
  match goal with
  | E : DAE.set_column t ?v (DAE.seq s) = Some _ |- _ =>
      unfold DAE.set_column in E;
      destruct (decide (length v = length (DAE.seq s))) as [Hlen|];
      [injection E as <-|discriminate E]
  end.
  apply (stored_inv t (DAE.unfinished s) (DAE.seq s) _ Ht); [|exact Hlen].
  destruct t; exact Hinv.
Qed.

Lemma step_flags word_map sample_max sample_rl enc t s c :
  (t < DAE.max_len)%nat ->
  step word_map sample_max sample_rl enc t s = Some c ->
  forall b,
    (t <> O -> DAE.unfinished (ctl_state c) !! b = Some true ->
       DAE.unfinished s !! b = Some true)
    /\ (DAE.unfinished (ctl_state c) !! b = Some false ->
          DAE.it (ctl_state c) !! b = Some 0)
    /\ (forall e, word_map !! "<end>" = Some e -> e <> 0 ->
          DAE.it (ctl_state c) !! b <> Some e).
Proof.
  intros Ht Hstep b. unfold DAE.step in Hstep.
  destruct (decoder_step _ _ _ _) as [[h g] lps].
  rewrite decide_False in Hstep by lia.
  bind_some Hstep. bind_some Hstep. bind_some Hstep. bind_some Hstep.
  bind_some Hstep. bind_some Hstep.
  match type of Hstep with
  | (if ?b then Some (Break ?s1) else _) = _ =>
      assert (Hc : ctl_state c = s1) by (destruct b; now injection Hstep as <-)
  end.
  rewrite Hc. cbn [DAE.unfinished DAE.it]. clear Hc Hstep.
  split; [|split].
  - intros Hne Hu. rewrite decide_False in Hu by exact Hne.
    apply lookup_zip_with_Some in Hu as (u & v & Huv & Hu & _).
    symmetry in Huv. apply andb_prop in Huv as [-> _]. exact Hu.
  - intros Hu.
    assert (Hit : exists w, ((fun w => if w =? x1 then 0 else w) <$> x0.2) !! b
                            = Some w).
    { apply lookup_lt_is_Some_2. apply lookup_lt_Some in Hu.
      destruct (decide (t = O)); [now rewrite !length_fmap in *|].
      rewrite length_zip_with, !length_fmap in Hu. rewrite length_fmap. lia. }
    destruct Hit as [w Hw].
    erewrite lookup_zip_with, Hw, Hu. cbn. f_equal. lia.
  - intros e [= <-] Hne Hit.
    apply lookup_zip_with_Some in Hit as (w & u & Hwu & Hw & _).
    rewrite list_lookup_fmap in Hw.
    destruct (x0.2 !! b) as [w0|]; [|discriminate Hw]. injection Hw as <-.
    destruct (w0 =? x1) eqn:Hwe; destruct u; lia.
Qed.

Lemma forward_inv word_map caps lens sample_max sample_rl g sq lps :
  forward word_map caps lens sample_max sample_rl g = Some (sq, lps) ->
  Forall zero_closed sq.
Proof.
  unfold DAE.forward. intros H. bind_some H. bind_some H. bind_some H.
  injection H as <- <-.
  match goal with
  | E : for_break _ _ _ = Some ?s |- _ =>
      apply (for_break_inv inv_state (fun s => Forall zero_closed (DAE.seq s))
               _ _ O _ s) in E; [exact E|..]
  end.
  - intros i s c Hi Hs Hc.
    destruct (decide (i = DAE.max_len)) as [->|Hne].
    + apply step_last in Hc as (s' & -> & Hseq & _). rewrite Hseq.
      cbv beta iota in Hs. eapply Forall2_Forall_r; [exact Hs|].
      apply Forall_true. now intros u row (_ & _ & Hclosed & _).
    + assert (Hlt : (i < DAE.max_len)%nat) by (unfold DAE.max_len in *; lia).
      pose proof (step_inv _ _ _ _ _ _ _ Hlt Hs Hc) as Hnext.
      destruct c as [s'|s']; [exact Hnext|].
      cbn [ctl_state inv_state] in Hnext. eapply Forall2_Forall_r; [exact Hnext|].
      apply Forall_true. now intros u row (_ & _ & Hclosed & _).
  - intros s Hs. cbv beta iota in Hs. eapply Forall2_Forall_r; [exact Hs|].
    apply Forall_true. now intros u row (_ & _ & Hclosed & _).
  - cbn [inv_state DAE.seq]. apply Forall_replicate, inv_row_init.
Qed.

Lemma for_break_ext {S} (body1 body2 : nat -> S -> option (ctl S)) indices s :
  (forall i s, body1 i s = body2 i s) ->
  for_break indices body1 s = for_break indices body2 s.
Proof.
  intros H. revert s. induction indices as [|i rest IH]; intros s; [reflexivity|].
  cbn [for_break]. rewrite H. destruct (body2 i s) as [[s'|s']|]; auto.
Qed.

Lemma torch_max_None_sample lps g :
  DAE.torch_max lps = None -> DAE.sample_rows Gen multinomial g lps = None.
Proof.
  unfold DAE.torch_max. intros H.
  destruct (mapM DAE.max_row lps) as [rows|] eqn:E; [discriminate|]. clear H.
  apply mapM_None_1 in E. revert g.
  induction E as [row rest Hrow|row rest _ IH]; intros g.
  - destruct row; [reflexivity|discriminate].
  - cbn [DAE.sample_rows]. destruct row as [|x row]; [reflexivity|].
    destruct (multinomial g (x :: row)) as [g' i]. now rewrite IH.
Qed.

Lemma step_both word_map enc t s :
  step word_map true true enc t s = step word_map false true enc t s.
Proof.
  unfold DAE.step. destruct (decoder_step _ _ _ _) as [[h g] lps].
  destruct (decide (t = DAE.max_len)); [reflexivity|].
  destruct (DAE.torch_max lps) as [r|] eqn:E; [reflexivity|].
  cbn [mbind option_bind]. now rewrite (torch_max_None_sample lps g E).
Qed.

End ForwardFacts.

(** C3: in a sequence tensor returned by [DAE.forward], whatever the two
    flags, a 0 in a row is followed by 0 only.  At every timestep after the
    first a flag that is true was true before; a sequence whose flag is false
    stores 0; the id of [<end>] is never stored. *)
Theorem C3_zero_stays_zero (Enc Hidden Gen : Type)
    (caption_encoder : list (list Z) -> list Z -> option Enc)
    (init_hidden_state : nat -> Hidden)
    (decoder_step : Enc -> Hidden -> Gen -> list Z -> Hidden * Gen * list (list Q))
    (multinomial : Gen -> list Q -> Gen * Z)
    (word_map : gmap string Z) (caps : list (list Z)) (lens : list Z)
    (sample_max sample_rl : bool) (g : Gen)
    (sq : list (list Z)) (lps : list (list Q)) :
  DAE.forward Enc Hidden Gen caption_encoder init_hidden_state decoder_step
    multinomial word_map caps lens sample_max sample_rl g = Some (sq, lps) ->
  (forall row i j w, row ∈ sq -> (i < j)%nat ->
     row !! i = Some 0 -> row !! j = Some w -> w = 0)
  /\ (forall enc t s c b, (t < DAE.max_len)%nat ->
        DAE.step Enc Hidden Gen decoder_step multinomial word_map
          sample_max sample_rl enc t s = Some c ->
        (t <> O -> DAE.unfinished (ctl_state c) !! b = Some true ->
           DAE.unfinished s !! b = Some true)
        /\ (DAE.unfinished (ctl_state c) !! b = Some false ->
              DAE.it (ctl_state c) !! b = Some 0)
        /\ (forall e, word_map !! "<end>" = Some e -> e <> 0 ->
              DAE.it (ctl_state c) !! b <> Some e)).
Proof.
  intros Hrun. split.
  - intros row i j w Hrow. apply forward_inv in Hrun.
    rewrite Forall_forall in Hrun. exact (Hrun row Hrow i j w).
  - intros enc t s c b Ht Hstep. eapply step_flags; eauto.
Qed.

(** C10: with [sample_max] and [sample_rl] both true the sampling branch
    runs after the greedy one and overwrites its token and log-probability,
    so from the same generator state the call returns what the call with
    [sample_max = False], [sample_rl = True] returns. *)
Theorem C10_both_flags_sample (Enc Hidden Gen : Type)
    (caption_encoder : list (list Z) -> list Z -> option Enc)
    (init_hidden_state : nat -> Hidden)
    (decoder_step : Enc -> Hidden -> Gen -> list Z -> Hidden * Gen * list (list Q))
    (multinomial : Gen -> list Q -> Gen * Z)
    (word_map : gmap string Z) (caps : list (list Z)) (lens : list Z) (g : Gen) :
  DAE.forward Enc Hidden Gen caption_encoder init_hidden_state decoder_step
    multinomial word_map caps lens true true g
  = DAE.forward Enc Hidden Gen caption_encoder init_hidden_state decoder_step
      multinomial word_map caps lens false true g.
Proof.
  unfold DAE.forward.
  destruct (word_map !! "<start>") as [start_idx|]; [|reflexivity].
  cbn [mbind option_bind].
  destruct (caption_encoder caps lens) as [enc|]; [|reflexivity].
  cbn [mbind option_bind].
  rewrite (for_break_ext _ (DAE.step Enc Hidden Gen decoder_step multinomial
                              word_map false true enc)); [reflexivity|].
  intros i s. apply step_both.
Qed.

Example mock_greedy_run :
  fst <$> Mock.forward [3; 4; 2] Mock.word_map [[1; 3; 2]] [3] true false O
  = Some [3 :: 4 :: replicate 16 0].
Proof. vm_compute. reflexivity. Qed.

Example mock_sample_run :
  fst <$> Mock.forward [3; 4; 2] Mock.word_map [[1; 3; 2]; [1; 4; 2]] [3; 3] false true 3%nat
  = Some [3 :: 0 :: replicate 16 0; 4 :: 1 :: 3 :: replicate 15 0].
Proof. vm_compute. reflexivity. Qed.

(** *** Greedy decoding of a forced script *)

Section GreedyFacts.
Variables Enc Hidden Gen : Type.
Variable caption_encoder : list (list Z) -> list Z -> option Enc.
Variable init_hidden_state : nat -> Hidden.
Variable decoder_step :
  Enc -> Hidden -> Gen -> list Z -> Hidden * Gen * list (list Q).
Variable multinomial : Gen -> list Q -> Gen * Z.

Local Abbreviation step := (DAE.step Enc Hidden Gen decoder_step multinomial).

Lemma step_greedy word_map enc t s h g lps vals idx e :
  t <> DAE.max_len ->
  decoder_step enc (DAE.hidden s) (DAE.generator s) (DAE.it s) = (h, g, lps) ->
  DAE.torch_max lps = Some (vals, idx) ->
  word_map !! "<end>" = Some e ->
  step word_map true false enc t s =
    let it1 := (fun w => if w =? e then 0 else w) <$> idx in
    let unf := if decide (t = O) then gt0b <$> it1
               else zip_with andb (DAE.unfinished s) (gt0b <$> it1) in
    let it' := zip_with mask_token it1 unf in
    sq ← DAE.set_column t it' (DAE.seq s);
    slp ← DAE.set_column t vals (DAE.seqLogprobs s);
    let s' := DAE.Locals it' h g sq slp unf (Some vals) in
    if forallb negb unf then Some (Break s') else Some (Next s').
Proof.
  intros Ht Hdec Hmax He. unfold DAE.step.
  rewrite Hdec, decide_False, Hmax, He by exact Ht. reflexivity.
Qed.

Lemma mock_start : Mock.word_map !! "<start>" = Some 1.
Proof. vm_compute. reflexivity. Qed.

Lemma mock_end : Mock.word_map !! "<end>" = Some 2.
Proof. vm_compute. reflexivity. Qed.

Lemma forced_script caps lens g enc h1 h2 h3 g1 g2 g3 lp0 lp1 lp2 v0 v1 v2 :
  caption_encoder [caps] lens = Some enc ->
  decoder_step enc (init_hidden_state 1) g [1] = (h1, g1, lp0) ->
  DAE.torch_max lp0 = Some ([v0], [3]) ->
  decoder_step enc h1 g1 [3] = (h2, g2, lp1) ->
  DAE.torch_max lp1 = Some ([v1], [4]) ->
  decoder_step enc h2 g2 [4] = (h3, g3, lp2) ->
  DAE.torch_max lp2 = Some ([v2], [2]) ->
  DAE.forward Enc Hidden Gen caption_encoder init_hidden_state decoder_step
    multinomial Mock.word_map [caps] lens true false g
  = Some ([3 :: 4 :: replicate 16 0],
          [v0 :: v1 :: v2 :: replicate 15 0%Q]).
Proof.
  intros Henc Hd0 Hm0 Hd1 Hm1 Hd2 Hm2. unfold DAE.forward.
  rewrite mock_start. cbn [mbind option_bind length]. rewrite Henc.
  cbn [mbind option_bind]. change (DAE.max_len + 1)%nat with 19%nat.
  cbn [List.seq for_break replicate].
  assert (Hne : forall t, (t < 3)%nat -> t <> DAE.max_len)
    by (unfold DAE.max_len; lia).
  rewrite (step_greedy Mock.word_map enc 0 _ h1 g1 lp0 [v0] [3] 2);
    [|apply Hne; lia|exact Hd0|exact Hm0|exact mock_end].
  unfold DAE.set_column. cbn. rewrite !decide_True by reflexivity. cbn.
  rewrite (step_greedy Mock.word_map enc 1 _ h2 g2 lp1 [v1] [4] 2);
    [|apply Hne; lia|exact Hd1|exact Hm1|exact mock_end].
  unfold DAE.set_column. cbn. rewrite decide_False by discriminate.
  rewrite !decide_True by reflexivity. cbn.
  rewrite (step_greedy Mock.word_map enc 2 _ h3 g3 lp2 [v2] [2] 2);
    [|apply Hne; lia|exact Hd2|exact Hm2|exact mock_end].
  unfold DAE.set_column. cbn. rewrite decide_False by discriminate.
  rewrite !decide_True by reflexivity. cbn. reflexivity.
Qed.

End GreedyFacts.

(** *** The validity mask of the encoder *)

Section EncoderFacts.
Variable Emb : Type.
Variable embed : Z -> Emb.
Variable lstm_output : list Emb -> nat -> list Q.
Variable lstm_hidden : list Emb -> list Q.
Variable concat_tanh : list Q -> list Q.
Variable feature_dim : nat.

Local Abbreviation enc_forward :=
  (CaptionEncoder.forward Emb embed lstm_output lstm_hidden concat_tanh
     feature_dim).

Lemma sum_zero_row n : CaptionEncoder.nonzero_sum (replicate n 0%Q) = 0%Q.
Proof.
  unfold CaptionEncoder.nonzero_sum.
  assert (H : (Torch.sum (replicate n 0) == 0)%Q).
  { induction n as [|n IH]; [reflexivity|].
    cbn [replicate]. rewrite sum_cons, IH. reflexivity. }
  apply Qeq_bool_iff in H. now rewrite H.
Qed.

Lemma le_longest (lens : list nat) len :
  len ∈ lens -> (len <= foldr Nat.max O lens)%nat.
Proof.
  induction lens as [|l lens IH]; intros H; [now apply elem_of_nil in H|].
  cbn [foldr]. apply elem_of_cons in H as [->|H]; [lia|].
  specialize (IH H). lia.
Qed.

Lemma packed_lengths_ok (src : list (list Z)) (src_len : list Z) :
  length src_len = length src ->
  (forall l, l ∈ src_len -> 1 <= l <= Z.of_nat (ncols src)) ->
  CaptionEncoder.packed_lengths src src_len = Some (Z.to_nat <$> src_len).
Proof.
  intros Hlen Hrange. unfold CaptionEncoder.packed_lengths.
  rewrite decide_True by lia. apply mapM_total.
  intros l Hl. specialize (Hrange l Hl).
  destruct (0 <? l) eqn:H1; [|apply Z.ltb_ge in H1; lia].
  destruct (l <=? Z.of_nat (ncols src)) eqn:H2; [reflexivity|].
  apply Z.leb_gt in H2. lia.
Qed.

Lemma mask_row (valid : list Emb) (len width : nat) :
  (len <= width)%nat ->
  CaptionEncoder.nonzero_sum
  <$> ((lstm_output valid <$> seq 0 len)
       ++ replicate (width - len) (replicate feature_dim 0%Q))
  = (fun t => if decide (t < len)%nat
              then CaptionEncoder.nonzero_sum (lstm_output valid t)
              else 0%Q) <$> seq 0 width.
Proof.
  intros Hle. replace width with (len + (width - len))%nat at 2 by lia.
  rewrite seq_app, !fmap_app, fmap_replicate, sum_zero_row. f_equal.
  - rewrite <- list_fmap_compose. apply list_fmap_ext. intros i t Ht.
    apply lookup_seq in Ht as [-> Ht]. now rewrite decide_True by lia.
  - cbn [Nat.add]. generalize (width - len)%nat as n. intros n.
    apply list_eq. intros i. rewrite list_lookup_fmap.
    destruct (decide (i < n)%nat) as [Hi|Hi].
    + rewrite lookup_replicate_2, lookup_seq_lt by lia. cbn.
      now rewrite decide_False by lia.
    + rewrite (proj1 (lookup_replicate_None n 0%Q i)) by lia.
      now rewrite lookup_seq_ge by lia.
Qed.

End EncoderFacts.

(** C5, as stated, fails: a valid position whose feature row sums to zero
    is masked out.  With an LSTM whose parameters are all zero every feature
    row is [[0, 0]] and the mask of a sequence of length 4 is all zero. *)
Lemma C5_counterexample :
  exists outputs final_hidden mask,
    MockEncoder.forward [0; 0]%Q [[1; 3; 4; 2; 0]] [4]
    = Some (outputs, final_hidden, mask)
    /\ mask = [[0; 0; 0; 0]]%Q
    /\ mask <> [length_mask 4 4].
Proof.
  eexists _, _, _. split; [vm_compute; reflexivity|].
  split; [reflexivity|]. vm_compute. discriminate.
Qed.

(** C5, amended: for lengths between 1 and the padded length, the mask of
    [CaptionEncoder.forward] has as many columns as the longest length of
    the batch; it is 1 exactly at the positions before the length of the
    sequence whose feature row has a sum other than zero, and 0 elsewhere;
    it is the mask of the lengths when no feature row of a valid position
    sums to zero. *)
Theorem C5_validity_mask (Emb : Type) (embed : Z -> Emb)
    (lstm_output : list Emb -> nat -> list Q)
    (lstm_hidden : list Emb -> list Q) (concat_tanh : list Q -> list Q)
    (feature_dim : nat) (src : list (list Z)) (src_len : list Z) :
  length src_len = length src ->
  (forall l, l ∈ src_len -> 1 <= l <= Z.of_nat (ncols src)) ->
  exists outputs final_hidden mask,
    CaptionEncoder.forward Emb embed lstm_output lstm_hidden concat_tanh
      feature_dim src src_len = Some (outputs, final_hidden, mask)
    /\ length mask = length src
    /\ forall b row l, src !! b = Some row -> src_len !! b = Some l ->
         let len := Z.to_nat l in
         let width := foldr Nat.max O (Z.to_nat <$> src_len) in
         let valid := embed <$> take len row in
         exists mrow,
           mask !! b = Some mrow
           /\ length mrow = width
           /\ (forall t, (t < width)%nat ->
                 mrow !! t = Some (if decide (t < len)%nat
                                   then if Qeq_bool (Torch.sum (lstm_output valid t)) 0
                                        then 0%Q else 1%Q
                                   else 0%Q))
           /\ ((forall t, (t < len)%nat ->
                  ~ (Torch.sum (lstm_output valid t) == 0)%Q) ->
               mrow = length_mask width len).
Proof.
  intros Hlen Hrange. unfold CaptionEncoder.forward.
  rewrite (packed_lengths_ok src src_len Hlen Hrange). cbn [mbind option_bind].
  eexists _, _, _. split; [reflexivity|]. split.
  { unfold CaptionEncoder.sum_mask, CaptionEncoder.padded_outputs.
    rewrite length_fmap, length_zip_with, !length_fmap. lia. }
  intros b row l Hrow Hl.
  set (len := Z.to_nat l). set (width := foldr Nat.max O (Z.to_nat <$> src_len)).
  set (valid := embed <$> take len row).
  assert (Hle : (len <= width)%nat).
  { apply le_longest, list_elem_of_fmap. exists l. split; [reflexivity|].
    apply list_elem_of_lookup. eauto. }
  eexists. split.
  { unfold CaptionEncoder.sum_mask, CaptionEncoder.padded_outputs,
      CaptionEncoder.packed.
    rewrite list_lookup_fmap, lookup_zip_with, !list_lookup_fmap, Hrow, Hl.
    cbn [fmap option_fmap option_map mbind option_bind].
    rewrite <- fmap_take. fold len valid width. rewrite (mask_row Emb lstm_output feature_dim valid len width Hle).
    reflexivity. }
  split; [now rewrite length_fmap, length_seq|]. split.
  - intros t Ht. rewrite list_lookup_fmap, lookup_seq_lt by lia. reflexivity.
  - intros Hnz. unfold length_mask. apply list_fmap_ext. intros i t Ht.
    destruct (decide (t < len)%nat) as [Hlt|]; [|reflexivity].
    unfold CaptionEncoder.nonzero_sum.
    destruct (Qeq_bool _ 0) eqn:E; [|reflexivity].
    apply Qeq_bool_iff in E. now apply Hnz in E.
Qed.

(** *** The k largest entries *)

Section TopkFacts.
Import Beam.

Lemma Qle_bool_false x y : Qle_bool x y = false -> (y <= x)%Q.
Proof.
  intros H. apply Qlt_le_weak, Qnot_le_lt. intros Hle.
  apply Qle_bool_iff in Hle. congruence.
Qed.

Lemma insert_desc_perm x l : insert_desc x l ≡ₚ x :: l.
Proof.
  induction l as [|y l IH]; [reflexivity|]. cbn [insert_desc].
  destruct (Qle_bool y.1 x.1); [reflexivity|].
  rewrite IH. apply Permutation_swap.
Qed.

Lemma sort_desc_perm l : sort_desc l ≡ₚ l.
Proof.
  induction l as [|x l IH]; [reflexivity|].
  cbn [sort_desc foldr]. rewrite insert_desc_perm. now constructor.
Qed.

Lemma insert_desc_sorted x l :
  StronglySorted before l -> StronglySorted before (insert_desc x l).
Proof.
  induction l as [|y l IH]; intros Hs; cbn [insert_desc].
  - repeat constructor.
  - apply StronglySorted_cons in Hs as [Hy Hl].
    destruct (Qle_bool y.1 x.1) eqn:E.
    + apply Qle_bool_iff in E. constructor.
      * now constructor.
      * constructor; [exact E|]. eapply Forall_impl; [exact Hy|].
        intros z Hz. unfold before in *. now apply Qle_trans with y.1.
    + apply Qle_bool_false in E. constructor; [now apply IH|].
      rewrite insert_desc_perm. now constructor.
Qed.

Lemma sort_desc_sorted l : StronglySorted before (sort_desc l).
Proof.
  induction l as [|x l IH]; [constructor|]. now apply insert_desc_sorted.
Qed.

Lemma elem_of_enumerate t v w :
  (v, w) ∈ enumerate t <->
  0 <= w < Z.of_nat (length t) /\ t !! Z.to_nat w = Some v.
Proof.
  unfold enumerate. rewrite list_elem_of_lookup. split.
  - intros (i & Hi). apply lookup_zip_with_Some in Hi as (v' & w' & [= <- <-] & Hv & Hw).
    apply lookup_seqZ in Hw as [-> Hw]. rewrite Z.add_0_l, Nat2Z.id. split; [lia|exact Hv].
  - intros (Hw & Hv). exists (Z.to_nat w). apply lookup_zip_with_Some.
    exists v, w. split; [reflexivity|]. split; [exact Hv|].
    apply lookup_seqZ. lia.
Qed.

Lemma enumerate_snd t : (enumerate t).*2 = seqZ 0 (Z.of_nat (length t)).
Proof. apply snd_zip. rewrite length_seqZ. lia. Qed.

Lemma topk_spec k (t : list Q) vals words :
  topk k t = Some (vals, words) ->
  length vals = k /\ length words = k /\ NoDup words
  /\ StronglySorted (fun a b => (b <= a)%Q) vals
  /\ (forall j w, words !! j = Some w ->
        exists v, vals !! j = Some v
                  /\ 0 <= w < Z.of_nat (length t)
                  /\ t !! Z.to_nat w = Some v)
  /\ (forall i x v, t !! i = Some x -> Z.of_nat i ∉ words -> v ∈ vals ->
        (x <= v)%Q).
Proof.
  unfold topk. destruct (decide (k <= length t)%nat) as [Hk|]; [|discriminate].
  intros [= <- <-].
  pose proof (sort_desc_perm (enumerate t)) as Hperm.
  pose proof (sort_desc_sorted (enumerate t)) as Hsorted.
  set (sorted := sort_desc (enumerate t)) in *.
  assert (Hlen : length sorted = length t).
  { rewrite Hperm. unfold enumerate. rewrite length_zip_with, length_seqZ. lia. }
  split; [rewrite length_fmap, length_take; lia|].
  split; [rewrite length_fmap, length_take; lia|].
  split; [|split; [|split]].
  - rewrite fmap_take. eapply sublist_NoDup; [|apply sublist_take].
    rewrite Hperm, enumerate_snd. apply NoDup_seqZ.
  - apply (StronglySorted_fmap _ before); [auto|].
    rewrite <- (take_drop k sorted) in Hsorted.
    now apply StronglySorted_app_1_l in Hsorted.
  - intros j w Hw. rewrite list_lookup_fmap in Hw.
    destruct (take k sorted !! j) as [[v w']|] eqn:E; [|discriminate].
    injection Hw as <-. exists v. rewrite list_lookup_fmap, E. split; [reflexivity|].
    apply elem_of_enumerate. rewrite <- Hperm.
    apply (subseteq_take k). apply list_elem_of_lookup. eauto.
  - intros i x v Hx Hi Hv.
    apply list_elem_of_fmap in Hv as ([v' w'] & -> & Hv).
    assert (Hin : (x, Z.of_nat i) ∈ sorted).
    { rewrite Hperm. apply elem_of_enumerate. rewrite Nat2Z.id.
      split; [|exact Hx]. apply lookup_lt_Some in Hx. lia. }
    rewrite <- (take_drop k sorted) in Hin, Hsorted.
    apply elem_of_app in Hin as [Hin|Hin].
    + exfalso. apply Hi. apply list_elem_of_fmap. now exists (x, Z.of_nat i).
    + exact (StronglySorted_app_1_elem_of _ _ _ _ _ Hsorted Hv Hin).
Qed.

Lemma topk_Some k (t : list Q) : (k <= length t)%nat -> is_Some (topk k t).
Proof. intros H. unfold topk. rewrite decide_True by exact H. eauto. Qed.

End TopkFacts.

(** *** Flat indices of a matrix *)

Section FlatFacts.

Lemma lookup_flat {A} (m : list (list A)) (V w : nat) :
  (0 < V)%nat -> Forall (fun row => length row = V) m ->
  Torch.view_flat m !! w = m !! (w / V)%nat ≫= fun row => row !! (w mod V)%nat.
Proof.
  intros HV Hm. unfold Torch.view_flat. revert w.
  induction Hm as [|row m Hrow _ IH]; intros w; [reflexivity|].
  cbn [concat]. destruct (decide (w < V)%nat) as [Hlt|Hge].
  - rewrite lookup_app_l by lia.
    now rewrite Nat.div_small, Nat.mod_small by lia.
  - rewrite lookup_app_r by lia. rewrite Hrow, IH.
    assert (Hd : (w / V = S ((w - V) / V))%nat).
    { replace w with ((w - V) + 1 * V)%nat at 1 by lia.
      rewrite Nat.div_add by lia. lia. }
    assert (Hr : (w mod V = (w - V) mod V)%nat).
    { replace w with ((w - V) + 1 * V)%nat at 1 by lia.
      now rewrite Nat.Div0.mod_add. }
    now rewrite Hd, Hr.
Qed.

Lemma length_flat {A} (m : list (list A)) (V : nat) :
  Forall (fun row => length row = V) m ->
  length (Torch.view_flat m) = (length m * V)%nat.
Proof. intros H. now apply shape_length_flat. Qed.

End FlatFacts.

Lemma select_spec (step k V : nat) (scores : list (list Q))
    (vals : list Q) (words : list Z) :
  (0 < V)%nat -> Forall (fun row => length row = V) scores ->
  Beam.select step k scores = Some (vals, words) ->
  let flat := if decide (step = 1%nat) then nth O scores []
              else Torch.view_flat scores in
  length words = k /\ length vals = k /\ NoDup words
  /\ StronglySorted (fun a b => (b <= a)%Q) vals
  /\ (forall i x v, flat !! i = Some x -> Z.of_nat i ∉ words -> v ∈ vals ->
        (x <= v)%Q)
  /\ (forall j w, words !! j = Some w ->
        let p := Beam.prev_word_ind V w in
        let n := Beam.next_word_ind V w in
        w = p * Z.of_nat V + n
        /\ 0 <= n < Z.of_nat V
        /\ 0 <= p < Z.of_nat (length scores)
        /\ (step = 1%nat -> p = 0)
        /\ exists row v, scores !! Z.to_nat p = Some row
                         /\ row !! Z.to_nat n = Some v
                         /\ vals !! j = Some v).
Proof.
  intros HV Hrows Hsel flat. unfold Beam.select in Hsel.
  assert (Hflat : exists t, Beam.topk k t = Some (vals, words) /\ flat = t
            /\ (step = 1%nat -> scores !! O = Some t)
            /\ (step <> 1%nat -> t = Torch.view_flat scores)).
  { subst flat. destruct (decide (step = 1%nat)) as [Hs|Hs].
    - destruct (scores !! O) as [row|] eqn:E; [|discriminate].
      exists row. split; [exact Hsel|]. split; [|easy].
      now rewrite (nth_lookup_Some _ _ [] _ E).
    - exists (Torch.view_flat scores). split; [exact Hsel|]. easy. }
  destruct Hflat as (t & Htop & Hft & Hfirst & Hlater). rewrite Hft. clear Hft flat.
  destruct (topk_spec k t vals words Htop) as (Hlv & Hlw & Hnd & Hsorted & Hsel' & Hrest).
  repeat (split; [assumption|]).
  intros j w Hw p n. destruct (Hsel' j w Hw) as (v & Hv & Hrange & Htw).
  assert (Hdiv : w = p * Z.of_nat V + n).
  { subst p n. unfold Beam.prev_word_ind, Beam.next_word_ind.
    rewrite Z.mul_comm. apply Z.div_mod. lia. }
  assert (Hn : 0 <= n < Z.of_nat V).
  { subst n. unfold Beam.next_word_ind. apply Z.mod_pos_bound. lia. }
  assert (Hp0 : 0 <= p).
  { subst p. unfold Beam.prev_word_ind. apply Z.div_pos; lia. }
  split; [exact Hdiv|]. split; [exact Hn|].
  destruct (decide (step = 1%nat)) as [Hs|Hs].
  - pose proof (Hfirst Hs) as Hrow.
    assert (Hlen : length t = V).
    { rewrite Forall_forall in Hrows. apply Hrows, list_elem_of_lookup. eauto. }
    assert (Hp : p = 0).
    { subst p. unfold Beam.prev_word_ind. apply Z.div_small. lia. }
    assert (Hnw : n = w) by lia.
    split; [apply lookup_lt_Some in Hrow; lia|]. split; [easy|].
    exists t, v. rewrite Hp, Hnw. auto.
  - assert (Hlen : length t = (length scores * V)%nat).
    { rewrite (Hlater Hs). now apply length_flat. }
    assert (Hp : p < Z.of_nat (length scores)) by nia.
    split; [lia|]. split; [easy|].
    rewrite (Hlater Hs), (lookup_flat scores V) in Htw by assumption.
    assert (Hq : (Z.to_nat w / V)%nat = Z.to_nat p).
    { subst p. unfold Beam.prev_word_ind.
      rewrite Z2Nat.inj_div, Nat2Z.id by lia. reflexivity. }
    assert (Hr : (Z.to_nat w mod V)%nat = Z.to_nat n).
    { subst n. unfold Beam.next_word_ind.
      rewrite Z2Nat.inj_mod, Nat2Z.id by lia. reflexivity. }
    rewrite Hq, Hr in Htw.
    destruct (scores !! Z.to_nat p) as [row|]; [|discriminate].
    exists row, v. auto.
Qed.

Example beam_never_ends :
  match MockBeam.search MockBeam.never_ends MockBeam.never_ends 51 with
  | Exit (st, sen) =>
      Beam.infinite_pred st = true /\ Beam.step st = 51%nat
      /\ Beam.k st = 3%nat /\ sen = replicate 17 3
  | _ => False
  end.
Proof. vm_compute. auto. Qed.

Example beam_one_ends :
  match MockBeam.search MockBeam.ends_first MockBeam.never_ends 51 with
  | Exit (st, sen) =>
      Beam.infinite_pred st = true /\ Beam.step st = 51%nat
      /\ Beam.k st = 2%nat /\ Beam.complete_seqs st = [[1; 2]]
  | _ => False
  end.
Proof. vm_compute. auto. Qed.

(** *** One iteration of the beam search *)

Section ListPicks.

Lemma rows_at_Some {A} (l : list A) (inds : list nat) :
  (forall i, i ∈ inds -> (i < length l)%nat) ->
  exists r, Beam.rows_at l inds = Some r
            /\ length r = length inds
            /\ (forall x, x ∈ r -> x ∈ l).
Proof.
  intros H. unfold Beam.rows_at.
  destruct (mapM (fun i => l !! i) inds) as [r|] eqn:E.
  - exists r. split; [reflexivity|]. apply mapM_Some_1 in E. split.
    + symmetry. eapply Forall2_length, E.
    + intros x Hx. apply list_elem_of_lookup in Hx as [j Hj].
      destruct (Forall2_lookup_r _ _ _ _ _ E Hj) as (i & _ & Hi).
      apply list_elem_of_lookup. eauto.
  - apply mapM_None_1, Exists_exists in E as (i & Hi & Hnone).
    apply lookup_ge_None in Hnone. specialize (H i Hi). lia.
Qed.

Lemma filter_split_length {A} (P Q : A -> Prop) `{!forall x, Decision (P x)}
    `{!forall x, Decision (Q x)} (l : list A) :
  (forall x, x ∈ l -> Q x <-> ~ P x) ->
  (length (filter P l) + length (filter Q l) = length l)%nat.
Proof.
  induction l as [|x l IH]; intros HPQ; [reflexivity|].
  rewrite !filter_cons.
  assert (Hx : Q x <-> ~ P x) by (apply HPQ; left).
  assert (Hl : forall y, y ∈ l -> Q y <-> ~ P y)
    by (intros y Hy; apply HPQ; now right).
  specialize (IH Hl).
  destruct (decide (P x)), (decide (Q x)); cbn [length]; try lia; tauto.
Qed.

End ListPicks.

Section BodyFacts.
Variables Enc Row : Type.
Variable decoder_row : Enc -> Row -> Z -> Row * (nat -> Q).
Variable word_map : gmap string Z.
Variable e : Z.
Hypothesis has_end : word_map !! "<end>" = Some e.
Variable beam_size : nat.

Local Abbreviation V := (size word_map).
Local Abbreviation body := (Beam.body Enc Row decoder_row word_map).
Local Abbreviation expand := (Beam.expand_scores Enc Row decoder_row).

Lemma vocab_pos : (0 < V)%nat.
Proof.
  destruct (decide (V = O)) as [H|H]; [|lia].
  apply map_size_empty_inv in H. rewrite H, lookup_empty in has_end.
  discriminate.
Qed.

Lemma expand_length enc (st : Beam.state Row) :
  live beam_size V st -> length (expand V enc st) = Beam.k st.
Proof.
  intros (H1 & H2 & H3 & H4 & _). unfold Beam.expand_scores.
  rewrite length_zip_with, length_zip_with. lia.
Qed.

Lemma expand_rows enc (st : Beam.state Row) :
  Forall (fun row => length row = V) (snd <$> expand V enc st).
Proof.
  apply Forall_fmap, Forall_forall. intros r Hr. unfold Beam.expand_scores in Hr.
  apply elem_of_zip_with in Hr as (hw & top & -> & _ & _).
  unfold compose. cbn [snd]. now rewrite length_fmap, length_seq.
Qed.

Lemma select_Some enc (st : Beam.state Row) :
  live beam_size V st ->
  is_Some (Beam.select (Beam.step st) (Beam.k st) (snd <$> expand V enc st)).
Proof.
  intros Hlive. pose proof (expand_length enc st Hlive) as Hlen.
  pose proof (expand_rows enc st) as Hrows.
  destruct Hlive as (_ & _ & _ & _ & Hk & Hfirst & _).
  unfold Beam.select. destruct (decide (Beam.step st = 1%nat)) as [Hs|Hs].
  - destruct ((snd <$> expand V enc st) !! O) as [row|] eqn:E.
    + cbn [mbind option_bind]. apply topk_Some.
      rewrite Forall_forall in Hrows.
      rewrite (Hrows row) by (apply list_elem_of_lookup; eauto). auto.
    + apply lookup_ge_None in E. rewrite length_fmap in E. lia.
  - apply topk_Some. rewrite (length_flat _ V Hrows), length_fmap, Hlen.
    pose proof vocab_pos. nia.
Qed.

Lemma body_spec enc (st : Beam.state Row) :
  live beam_size V st ->
  exists vals words c,
    Beam.select (Beam.step st) (Beam.k st) (snd <$> expand V enc st)
    = Some (vals, words)
    /\ body enc st = Some c
    /\ (e ∉ Beam.next_word_ind V <$> words ->
          Beam.k (ctl_state c) = Beam.k st
          /\ Beam.complete_seqs (ctl_state c) = Beam.complete_seqs st)
    /\ match c with
       | Next st' =>
           live beam_size V st' /\ Beam.step st' = S (Beam.step st)
       | Break st' => exit_empty beam_size st' \/ exit_cap beam_size st'
       end.
Proof.
  intros Hlive.
  pose proof (expand_length enc st Hlive) as Hlen.
  pose proof (expand_rows enc st) as Hrows.
  destruct (select_Some enc st Hlive) as [[vals words] Hsel].
  destruct (select_spec _ _ V _ vals words vocab_pos Hrows Hsel)
    as (Hlw & Hlv & _ & _ & _ & Hidx).
  destruct Hlive as (Hseqs & Htop & Hprev & Hhid & Hk & Hfirst & Hstep & Hinf
                     & Hcount & Hcs & Hrowlen).
  exists vals, words. unfold Beam.body. rewrite Hsel. cbn [mbind option_bind].
  set (prev := Beam.prev_word_ind V <$> words).
  set (next := Beam.next_word_ind V <$> words).
  assert (Hlp : length prev = Beam.k st) by (subst prev; now rewrite length_fmap).
  assert (Hln : length next = Beam.k st) by (subst next; now rewrite length_fmap).
  assert (Hp_range : forall p, p ∈ prev -> 0 <= p < Z.of_nat (Beam.k st)).
  { intros p Hp. apply list_elem_of_fmap in Hp as (w & -> & Hw).
    apply list_elem_of_lookup in Hw as [j Hj].
    destruct (Hidx j w Hj) as (_ & _ & Hr & _).
    rewrite length_fmap, Hlen in Hr. exact Hr. }
  set (grow := fun pn : Z * Z => nth (Z.to_nat pn.1) (Beam.seqs st) [] ++ [pn.2]).
  rewrite (mapM_total _ grow).
  2:{ intros pn Hpn. apply list_elem_of_lookup in Hpn as [j Hj].
      apply lookup_zip_with_Some in Hj as (p & n & -> & Hp & _).
      assert (Hp' : p ∈ prev) by (apply list_elem_of_lookup; eauto).
      apply Hp_range in Hp'. cbn [fst snd].
      rewrite (lookup_nth_Some [] (Beam.seqs st)) by lia. reflexivity. }
  cbn [mbind option_bind]. rewrite has_end. cbn [mbind option_bind].
  rewrite Hln.
  set (seqs' := grow <$> zip prev next).
  set (inc := filter (fun ind => next !! ind <> Some e) (seq 0 (Beam.k st))).
  set (comp := filter (fun ind => ind ∉ inc) (seq 0 (Beam.k st))).
  assert (Hls : length seqs' = Beam.k st).
  { subst seqs'. rewrite length_fmap, length_zip_with. lia. }
  assert (Hrows' : Forall (fun r => length r = S (Beam.step st)) seqs').
  { apply Forall_fmap, Forall_forall. intros pn Hpn.
    apply list_elem_of_lookup in Hpn as [j Hj].
    apply lookup_zip_with_Some in Hj as (p & n & -> & Hp & _).
    assert (Hp' : p ∈ prev) by (apply list_elem_of_lookup; eauto).
    apply Hp_range in Hp'. unfold compose, grow. cbn [fst snd].
    rewrite length_app. cbn [length]. rewrite Forall_forall in Hrowlen.
    rewrite (Hrowlen (nth (Z.to_nat p) (Beam.seqs st) [])); [lia|].
    apply list_elem_of_lookup. exists (Z.to_nat p). apply lookup_nth_Some. lia. }
  assert (Hinc_range : forall i, i ∈ inc -> (i < Beam.k st)%nat).
  { intros i Hi. apply list_elem_of_filter in Hi as [_ Hi].
    apply elem_of_seq in Hi. lia. }
  assert (Hcomp_range : forall i, i ∈ comp -> (i < Beam.k st)%nat).
  { intros i Hi. apply list_elem_of_filter in Hi as [_ Hi].
    apply elem_of_seq in Hi. lia. }
  assert (Hsplit : (length inc + length comp = Beam.k st)%nat).
  { subst inc comp.
    rewrite (filter_split_length _ _ (seq 0 (Beam.k st))), length_seq; [reflexivity|].
    intros i Hi. rewrite list_elem_of_filter. tauto. }
  assert (Hnever : e ∉ next -> comp = []).
  { intros Hne. apply elem_of_nil_inv. intros i Hi.
    apply list_elem_of_filter in Hi as [Hni Hi]. apply Hni.
    apply list_elem_of_filter. split; [|exact Hi].
    intros Heq. apply Hne, list_elem_of_lookup. eauto. }
  destruct (rows_at_Some seqs' comp) as (done_seqs & -> & Hld & _);
    [intros i Hi; rewrite Hls; auto|].
  destruct (rows_at_Some vals comp) as (done_scores & -> & Hlds & _);
    [intros i Hi; rewrite Hlv; auto|].
  cbn [mbind option_bind].
  destruct (decide ((Beam.k st - length comp)%nat = O)) as [Hz|Hnz].
  - eexists. split; [reflexivity|]. split; [reflexivity|]. split.
    + intros Hne. apply Hnever in Hne. rewrite Hne in Hz. cbn [length] in Hz. lia.
    + left. unfold exit_empty. cbn [Beam.k Beam.infinite_pred Beam.step
        Beam.complete_seqs Beam.complete_seqs_scores].
      rewrite !length_app. repeat split; try lia; auto.
  - destruct (rows_at_Some seqs' inc) as (seqs0 & -> & Hl0 & Hin0);
      [intros i Hi; rewrite Hls; auto|].
    destruct (rows_at_Some prev inc) as (prev0 & -> & Hlp0 & Hinp0);
      [intros i Hi; rewrite Hlp; auto|].
    cbn [mbind option_bind].
    destruct (rows_at_Some (expand V enc st).*1 (Z.to_nat <$> prev0))
      as (h0 & -> & Hlh0 & _).
    { intros i Hi. apply list_elem_of_fmap in Hi as (p & -> & Hp).
      apply Hinp0, Hp_range in Hp. rewrite length_fmap, Hlen. lia. }
    destruct (rows_at_Some vals inc) as (top0 & -> & Hlt0 & _);
      [intros i Hi; rewrite Hlv; auto|].
    destruct (rows_at_Some next inc) as (words0 & -> & Hlw0 & _);
      [intros i Hi; rewrite Hln; auto|].
    cbn [mbind option_bind]. rewrite length_fmap in Hlh0.
    assert (Hrows0 : Forall (fun r => length r = S (Beam.step st)) seqs0).
    { apply Forall_forall. intros r Hr. rewrite Forall_forall in Hrows'. auto. }
    assert (Hdone : e ∉ next ->
              (Beam.k st - length comp)%nat = Beam.k st
              /\ Beam.complete_seqs st ++ done_seqs = Beam.complete_seqs st).
    { intros Hne. apply Hnever in Hne. rewrite Hne in *. cbn [length] in *.
      destruct done_seqs; [|discriminate]. rewrite app_nil_r. split; [lia|reflexivity]. }
    destruct (decide (50 < Beam.step st)%nat) as [Hcap|Hgo].
    + eexists. split; [reflexivity|]. split; [reflexivity|]. split; [exact Hdone|].
      right. unfold exit_cap. cbn [Beam.k Beam.infinite_pred Beam.step
        Beam.complete_seqs Beam.seqs].
      rewrite length_app. replace (Beam.step st) with 51%nat in * by lia.
      repeat split; try lia. exact Hrows0.
    + eexists. split; [reflexivity|]. split; [reflexivity|]. split; [exact Hdone|].
      split; [|cbn [Beam.step]; lia]. unfold live.
      cbn [Beam.k Beam.infinite_pred Beam.step Beam.complete_seqs Beam.seqs
           Beam.top_k_scores Beam.k_prev_words Beam.hidden
           Beam.complete_seqs_scores].
      rewrite !length_app, Nat.add_1_r. repeat split; try lia; auto.
Qed.

Lemma selected_words_spec enc (st : Beam.state Row) vals words :
  Beam.select (Beam.step st) (Beam.k st) (snd <$> expand V enc st)
  = Some (vals, words) ->
  selected_words Enc Row decoder_row word_map enc st
  = Some (Beam.next_word_ind V <$> words).
Proof. intros H. unfold selected_words. now rewrite H. Qed.

Lemma never_emits_next enc (st st' : Beam.state Row) :
  body enc st = Some (Next st') ->
  never_emits Enc Row decoder_row word_map enc e st ->
  never_emits Enc Row decoder_row word_map enc e st'.
Proof.
  intros Hb Hnever n st1 words Hit. apply (Hnever (S n)).
  cbn [iterate]. now rewrite Hb.
Qed.

Lemma loop_spec enc fuel (st : Beam.state Row) :
  live beam_size V st -> (52 - Beam.step st <= fuel)%nat ->
  exists st',
    while_true fuel (body enc) st = Exit st'
    /\ (exit_empty beam_size st' \/ exit_cap beam_size st')
    /\ (never_emits Enc Row decoder_row word_map enc e st ->
          exit_cap beam_size st' /\ Beam.k st' = Beam.k st
          /\ Beam.complete_seqs st' = Beam.complete_seqs st).
Proof.
  revert st. induction fuel as [|fuel IH]; intros st Hlive Hfuel.
  - destruct Hlive as (_ & _ & _ & _ & _ & _ & Hstep & _). lia.
  - destruct (body_spec enc st Hlive) as (vals & words & c & Hsel & Hb & Hkeep & Hc).
    cbn [while_true]. rewrite Hb. destruct c as [st'|st'].
    + destruct Hc as [Hlive' Hstep'].
      destruct (IH st' Hlive') as (st'' & Hrun & Hexit & Hnever); [lia|].
      exists st''. split; [exact Hrun|]. split; [exact Hexit|].
      intros Hne.
      destruct (Hnever (never_emits_next enc st st' Hb Hne)) as (Hcap & Hk & Hcs).
      destruct Hkeep as [Hk' Hcs'].
      { apply (Hne O st); [reflexivity|]. now apply (selected_words_spec enc st vals). }
      cbn [ctl_state] in Hk', Hcs'. split; [exact Hcap|]. split; congruence.
    + exists st'. split; [reflexivity|]. split; [exact Hc|].
      intros Hne. destruct Hkeep as [Hk' Hcs'].
      { apply (Hne O st); [reflexivity|]. now apply (selected_words_spec enc st vals). }
      cbn [ctl_state] in Hk', Hcs'. split; [|split; assumption].
      destruct Hc as [Hempty|Hcap]; [|exact Hcap].
      destruct Hempty as (Hz & _). destruct Hlive as (_ & _ & _ & _ & Hk & _). lia.
Qed.

Lemma init_live init_row start :
  (1 <= beam_size <= V)%nat ->
  live beam_size V (Beam.init Row init_row beam_size start).
Proof.
  intros Hb. unfold live, Beam.init.
  cbn [Beam.k Beam.infinite_pred Beam.step Beam.complete_seqs Beam.seqs
       Beam.top_k_scores Beam.k_prev_words Beam.hidden
       Beam.complete_seqs_scores length].
  rewrite !length_replicate. repeat split; try lia.
  apply Forall_replicate. reflexivity.
Qed.

End BodyFacts.

(** *** One iteration, hypothesis by hypothesis *)

Section PickFacts.
Context {A : Type}.

Lemma rows_at_lookup (l : list A) (inds : list nat) r j y :
  Beam.rows_at l inds = Some r -> r !! j = Some y ->
  exists i, inds !! j = Some i /\ l !! i = Some y.
Proof.
  unfold Beam.rows_at. intros H Hj. apply mapM_Some_1 in H.
  destruct (Forall2_lookup_r _ _ _ _ _ H Hj) as (i & Hi & Hy). eauto.
Qed.

Lemma rows_at_length (l : list A) (inds : list nat) r :
  Beam.rows_at l inds = Some r -> length r = length inds.
Proof.
  unfold Beam.rows_at. intros H. apply mapM_Some_1 in H.
  symmetry. eapply Forall2_length, H.
Qed.



End PickFacts.


Section StepTrace.
Variables Enc Row : Type.
Variable decoder_row : Enc -> Row -> Z -> Row * (nat -> Q).
Variable word_map : gmap string Z.

Local Abbreviation V := (size word_map).
Local Abbreviation body := (Beam.body Enc Row decoder_row word_map).
Local Abbreviation expand := (Beam.expand_scores Enc Row decoder_row).

Lemma expand_lookup enc (st : Beam.state Row) i h pw top :
  Beam.hidden st !! i = Some h -> Beam.k_prev_words st !! i = Some pw ->
  Beam.top_k_scores st !! i = Some top ->
  expand V enc st !! i
  = Some ((decoder_row enc h pw).1,
          (fun j => (top + (decoder_row enc h pw).2 j)%Q) <$> seq 0 V).
Proof.
  intros Hh Hpw Htop. unfold Beam.expand_scores.
  rewrite lookup_zip_with, lookup_zip_with, Hh. cbn [mbind option_bind].
  rewrite Hpw. cbn [mbind option_bind]. rewrite Htop. reflexivity.
Qed.

Lemma expand_lookup_inv enc (st : Beam.state Row) i r :
  expand V enc st !! i = Some r ->
  exists h pw top,
    Beam.hidden st !! i = Some h /\ Beam.k_prev_words st !! i = Some pw
    /\ Beam.top_k_scores st !! i = Some top
    /\ r = ((decoder_row enc h pw).1,
            (fun j => (top + (decoder_row enc h pw).2 j)%Q) <$> seq 0 V).
Proof.
  unfold Beam.expand_scores. intros H.
  apply lookup_zip_with_Some in H as ([h pw] & top & -> & Hz & Htop).
  apply lookup_zip_with_Some in Hz as (h' & pw' & [= <- <-] & Hh & Hpw).
  exists h, pw, top. auto.
Qed.

Lemma rows_at_pair {A B} (l : list A) (m : list B) inds r s j' x :
  Beam.rows_at l inds = Some r -> Beam.rows_at m inds = Some s ->
  r !! j' = Some x ->
  exists j y, inds !! j' = Some j /\ l !! j = Some x /\ m !! j = Some y
              /\ s !! j' = Some y.
Proof.
  intros Hr Hs Hx.
  destruct (rows_at_lookup _ _ _ _ _ Hr Hx) as (j & Hj & Hl).
  destruct (lookup_lt_is_Some_2 s j') as [y Hy].
  { rewrite (rows_at_length _ _ _ Hs), <- (rows_at_length _ _ _ Hr).
    now apply lookup_lt_Some in Hx. }
  destruct (rows_at_lookup _ _ _ _ _ Hs Hy) as (j2 & Hj2 & Hm).
  rewrite Hj in Hj2. injection Hj2 as <-. eauto 10.
Qed.

(** One iteration, read off its result: where each selected score comes
    from, and where each row of the next state comes from. *)
Lemma body_trace enc (st : Beam.state Row) c :
  body enc st = Some c ->
  exists vals words e done_seqs done_scores,
    Beam.select (Beam.step st) (Beam.k st) (snd <$> expand V enc st)
    = Some (vals, words)
    /\ word_map !! "<end>" = Some e
    /\ (forall j w, words !! j = Some w ->
          let p := Z.to_nat (Beam.prev_word_ind V w) in
          let n := Beam.next_word_ind V w in
          exists h pw top parent,
            Beam.hidden st !! p = Some h
            /\ Beam.k_prev_words st !! p = Some pw
            /\ Beam.top_k_scores st !! p = Some top
            /\ Beam.seqs st !! p = Some parent
            /\ vals !! j
               = Some (top + (decoder_row enc h pw).2 (Z.to_nat n))%Q)
    /\ (forall j' row, Beam.seqs (ctl_state c) !! j' = Some row ->
          exists j w parent v,
            let p := Z.to_nat (Beam.prev_word_ind V w) in
            let n := Beam.next_word_ind V w in
            words !! j = Some w
            /\ Beam.seqs st !! p = Some parent
            /\ row = parent ++ [n]
            /\ vals !! j = Some v
            /\ Beam.top_k_scores (ctl_state c) !! j' = Some v
            /\ (forall st', c = Next st' ->
                  n <> e
                  /\ Beam.k_prev_words st' !! j' = Some n
                  /\ exists h pw,
                       Beam.hidden st !! p = Some h
                       /\ Beam.k_prev_words st !! p = Some pw
                       /\ Beam.hidden st' !! j'
                          = Some (decoder_row enc h pw).1))
    /\ Beam.complete_seqs (ctl_state c) = Beam.complete_seqs st ++ done_seqs
    /\ Beam.complete_seqs_scores (ctl_state c)
       = Beam.complete_seqs_scores st ++ done_scores
    /\ length done_scores = length done_seqs
    /\ (forall i row, done_seqs !! i = Some row ->
          exists j w parent v,
            words !! j = Some w
            /\ Beam.next_word_ind V w = e
            /\ Beam.seqs st !! Z.to_nat (Beam.prev_word_ind V w) = Some parent
            /\ row = parent ++ [e]
            /\ vals !! j = Some v
            /\ done_scores !! i = Some v).
Proof.
  unfold Beam.body. intros H.
  destruct (Beam.select _ _ _) as [[vals words]|] eqn:Hsel; [|discriminate].
  cbn [mbind option_bind] in H.
  bind_some H. bind_some H. bind_some H. bind_some H.
  rename x into seqs1, x0 into e, x1 into done_seqs, x2 into done_scores.
  rename E into Hseqs, E0 into He, E1 into Hds, E2 into Hdsc.
  destruct (select_spec _ _ V _ vals words (vocab_pos word_map e He)
              (expand_rows Enc Row decoder_row word_map enc st) Hsel)
    as (Hlw & Hlv & _ & _ & _ & Hidx).
  set (prev := Beam.prev_word_ind V <$> words) in *.
  set (next := Beam.next_word_ind V <$> words) in *.
  assert (Hln : length next = length words) by (subst next; apply length_fmap).
  assert (Hl1 : length seqs1 = length words).
  { apply mapM_Some_1, Forall2_length in Hseqs.
    rewrite length_zip_with in Hseqs. subst prev. rewrite length_fmap in Hseqs. lia. }
  assert (F1 : forall j w, words !! j = Some w ->
            exists parent,
              Beam.seqs st !! Z.to_nat (Beam.prev_word_ind V w) = Some parent
              /\ seqs1 !! j = Some (parent ++ [Beam.next_word_ind V w])).
  { intros j w Hw. pose proof (mapM_Some_1 _ _ _ Hseqs) as Hall.
    assert (Hz : zip prev next !! j
                 = Some (Beam.prev_word_ind V w, Beam.next_word_ind V w)).
    { subst prev next. rewrite lookup_zip_with, !list_lookup_fmap, Hw. reflexivity. }
    destruct (Forall2_lookup_l _ _ _ _ _ Hall Hz) as (y & Hy & Hf).
    cbn [fst snd] in Hf.
    destruct (Beam.seqs st !! Z.to_nat (Beam.prev_word_ind V w)) as [parent|];
      [|discriminate].
    injection Hf as <-. eauto. }
  assert (F2 : forall j w, words !! j = Some w ->
            exists h pw top,
              Beam.hidden st !! Z.to_nat (Beam.prev_word_ind V w) = Some h
              /\ Beam.k_prev_words st !! Z.to_nat (Beam.prev_word_ind V w) = Some pw
              /\ Beam.top_k_scores st !! Z.to_nat (Beam.prev_word_ind V w) = Some top
              /\ vals !! j
                 = Some (top + (decoder_row enc h pw).2
                                 (Z.to_nat (Beam.next_word_ind V w)))%Q).
  { intros j w Hw.
    destruct (Hidx j w Hw) as (_ & Hn & _ & _ & row & v & Hrow & Hv & Hvals).
    rewrite list_lookup_fmap in Hrow.
    destruct (expand V enc st !! Z.to_nat (Beam.prev_word_ind V w)) as [r|] eqn:Hr;
      [|discriminate].
    injection Hrow as <-.
    destruct (expand_lookup_inv _ _ _ _ Hr) as (h & pw & top & Hh & Hpw & Htop & ->).
    cbn [snd] in Hv. rewrite list_lookup_fmap, lookup_seq_lt in Hv by lia.
    injection Hv as <-. exists h, pw, top. auto. }
  assert (Hnext : forall j w, words !! j = Some w ->
            next !! j = Some (Beam.next_word_ind V w)).
  { intros j w Hw. subst next. now rewrite list_lookup_fmap, Hw. }
  assert (Hprev : forall j w, words !! j = Some w ->
            prev !! j = Some (Beam.prev_word_ind V w)).
  { intros j w Hw. subst prev. now rewrite list_lookup_fmap, Hw. }
  assert (Hword : forall inds j' j, inds !! j' = Some j ->
            inds ⊆ seq 0 (length next) -> exists w, words !! j = Some w).
  { intros inds j' j Hj Hsub. apply lookup_lt_is_Some_2.
    assert (Hin : j ∈ seq 0 (length next)).
    { apply Hsub, list_elem_of_lookup. eauto. }
    apply elem_of_seq in Hin. lia. }
  set (inc := filter (fun ind => next !! ind <> Some e) (seq 0 (length next))) in *.
  set (comp := filter (fun ind => ind ∉ inc) (seq 0 (length next))) in *.
  assert (Hinc : inc ⊆ seq 0 (length next)).
  { intros i Hi. now apply list_elem_of_filter in Hi as [_ Hi]. }
  assert (Hcomp : comp ⊆ seq 0 (length next)).
  { intros i Hi. now apply list_elem_of_filter in Hi as [_ Hi]. }
  assert (Hdone : forall i row, done_seqs !! i = Some row ->
            exists j w parent v,
              words !! j = Some w
              /\ Beam.next_word_ind V w = e
              /\ Beam.seqs st !! Z.to_nat (Beam.prev_word_ind V w) = Some parent
              /\ row = parent ++ [e]
              /\ vals !! j = Some v
              /\ done_scores !! i = Some v).
  { intros i row Hrow.
    destruct (rows_at_pair _ _ _ _ _ _ _ Hds Hdsc Hrow)
      as (j & v & Hj & Hs1 & Hv & Hsc).
    destruct (Hword comp i j Hj Hcomp) as [w Hw].
    destruct (F1 j w Hw) as (parent & Hparent & Hs1').
    rewrite Hs1 in Hs1'. injection Hs1' as ->.
    assert (Hne : Beam.next_word_ind V w = e).
    { assert (Hjc : j ∈ comp) by (apply list_elem_of_lookup; eauto).
      apply list_elem_of_filter in Hjc as [Hnot Hjs].
      destruct (decide (Beam.next_word_ind V w = e)) as [|Hd]; [assumption|].
      exfalso. apply Hnot. apply list_elem_of_filter. split; [|exact Hjs].
      rewrite (Hnext j w Hw). congruence. }
    exists j, w, parent, v. rewrite Hne. auto 10. }
  exists vals, words, e, done_seqs, done_scores.
  split; [reflexivity|]. split; [reflexivity|]. split.
  { intros j w Hw. destruct (F1 j w Hw) as (parent & Hparent & _).
    destruct (F2 j w Hw) as (h & pw & top & Hh & Hpw & Htop & Hv).
    exists h, pw, top, parent. auto. }
  match type of H with
  | (if decide (?k = O) then _ else _) = _ =>
      destruct (decide (k = O)) as [Hz|Hnz]
  end.
  - injection H as <-. cbn [ctl_state Beam.complete_seqs Beam.complete_seqs_scores
      Beam.seqs Beam.top_k_scores].
    split; [|split; [reflexivity|split; [reflexivity|split;
      [now rewrite (rows_at_length _ _ _ Hdsc), (rows_at_length _ _ _ Hds)
      |exact Hdone]]]].
    intros j' row Hrow.
    destruct (lookup_lt_is_Some_2 words j') as [w Hw].
    { rewrite <- Hl1. now apply lookup_lt_Some in Hrow. }
    destruct (F1 j' w Hw) as (parent & Hparent & Hs1).
    destruct (F2 j' w Hw) as (h & pw & top & _ & _ & _ & Hv).
    rewrite Hs1 in Hrow. injection Hrow as <-.
    eexists j', w, parent, _. cbv zeta.
    split; [exact Hw|]. split; [exact Hparent|]. split; [reflexivity|].
    split; [exact Hv|]. split; [exact Hv|]. intros st' Hc. discriminate Hc.
  - bind_some H. bind_some H. bind_some H. bind_some H. bind_some H.
    rename x into seqs0, x0 into prev0, x1 into h0, x2 into top0, x3 into words0.
    assert (Hkept : forall j' row, seqs0 !! j' = Some row ->
              exists j w parent v,
                inc !! j' = Some j
                /\ words !! j = Some w
                /\ Beam.seqs st !! Z.to_nat (Beam.prev_word_ind V w) = Some parent
                /\ row = parent ++ [Beam.next_word_ind V w]
                /\ vals !! j = Some v
                /\ top0 !! j' = Some v
                /\ Beam.next_word_ind V w <> e
                /\ words0 !! j' = Some (Beam.next_word_ind V w)
                /\ exists h pw,
                     Beam.hidden st !! Z.to_nat (Beam.prev_word_ind V w) = Some h
                     /\ Beam.k_prev_words st !! Z.to_nat (Beam.prev_word_ind V w)
                        = Some pw
                     /\ h0 !! j' = Some (decoder_row enc h pw).1).
    { intros j' row Hrow.
      destruct (rows_at_pair _ _ _ _ _ _ _ E E2 Hrow) as (j & v & Hj & Hs1 & Hv & Htop).
      destruct (rows_at_pair _ _ _ _ _ _ _ E E3 Hrow) as (j2 & n & Hj2 & _ & Hn & Hw0).
      rewrite Hj in Hj2. injection Hj2 as <-.
      destruct (rows_at_pair _ _ _ _ _ _ _ E E0 Hrow) as (j2 & p & Hj2 & _ & Hp & Hp0).
      rewrite Hj in Hj2. injection Hj2 as <-.
      destruct (Hword inc j' j Hj Hinc) as [w Hw].
      destruct (F1 j w Hw) as (parent & Hparent & Hs1').
      destruct (F2 j w Hw) as (h & pw & top & Hh & Hpw & Htop' & Hv').
      rewrite Hs1 in Hs1'. injection Hs1' as ->.
      rewrite (Hnext j w Hw) in Hn. injection Hn as <-.
      rewrite (Hprev j w Hw) in Hp. injection Hp as <-.
      exists j, w, parent, v. repeat (split; [assumption || reflexivity|]).
      split.
      { assert (Hji : j ∈ inc) by (apply list_elem_of_lookup; eauto).
        apply list_elem_of_filter in Hji as [Hne _].
        rewrite (Hnext j w Hw) in Hne. congruence. }
      split; [exact Hw0|]. exists h, pw. split; [exact Hh|]. split; [exact Hpw|].
      destruct (lookup_lt_is_Some_2 h0 j') as [y Hy].
      { rewrite (rows_at_length _ _ _ E1), length_fmap,
          (rows_at_length _ _ _ E0), <- (rows_at_length _ _ _ E).
        now apply lookup_lt_Some in Hrow. }
      destruct (rows_at_lookup _ _ _ _ _ E1 Hy) as (i & Hi & Hfst).
      rewrite list_lookup_fmap, Hp0 in Hi. injection Hi as <-.
      rewrite list_lookup_fmap, (expand_lookup _ _ _ _ _ _ Hh Hpw Htop') in Hfst.
      injection Hfst as <-. exact Hy. }
    assert (Hlen : length done_scores = length done_seqs)
      by now rewrite (rows_at_length _ _ _ Hdsc), (rows_at_length _ _ _ Hds).
    destruct (decide (50 < Beam.step st)%nat); injection H as <-;
      cbn [ctl_state Beam.complete_seqs Beam.complete_seqs_scores
           Beam.seqs Beam.top_k_scores Beam.k_prev_words Beam.hidden];
      (split; [|split; [reflexivity|split; [reflexivity|split;
         [exact Hlen|exact Hdone]]]]);
      intros j' row Hrow;
      destruct (Hkept j' row Hrow)
        as (j & w & parent & v & _ & Hw & Hparent & -> & Hv & Htop & Hne & Hw0
            & h & pw & Hh & Hpw & Hh0);
      exists j, w, parent, v; cbv zeta;
      (split; [exact Hw|]); (split; [exact Hparent|]); (split; [reflexivity|]);
      (split; [exact Hv|]); (split; [exact Htop|]).
    + intros st' Hc. discriminate Hc.
    + intros st' [= <-]. cbn [Beam.k_prev_words Beam.hidden].
      split; [exact Hne|]. split; [exact Hw0|]. exists h, pw. auto.
Qed.

End StepTrace.

(** C7: in every iteration of the beam search the tensor that is searched
    is the cumulative one, row [i] holding [top_k_scores[i]] plus the
    log-probabilities the decoder gives hypothesis [i], one row of
    [vocab_size] entries per live hypothesis.  The iteration selects [k]
    distinct flat indices with their scores in decreasing order, and no
    entry left out has a larger score than one selected; after the first
    step the entries are those of the flattened tensor, on the first step
    those of its row 0.  For a selected index [w], [w / vocab_size] is the
    row (the hypothesis it extends) and [w % vocab_size] the column (the
    next word) of the entry, exactly:
    [w = (w / vocab_size) * vocab_size + w % vocab_size], and the score
    selected with [w] is the cumulative score at that row and column.  Every
    row of [seqs] after the iteration is the hypothesis [w / vocab_size]
    with the word [w % vocab_size] added, for a selected [w], and carries
    the score selected with it. *)
Theorem C7_beam_index_arithmetic (Enc Row : Type)
    (decoder_row : Enc -> Row -> Z -> Row * (nat -> Q))
    (word_map : gmap string Z) (enc : Enc) (st : Beam.state Row)
    (c : ctl (Beam.state Row)) :
  Beam.body Enc Row decoder_row word_map enc st = Some c ->
  let V := size word_map in
  let scores := snd <$> Beam.expand_scores Enc Row decoder_row V enc st in
  let flat := if decide (Beam.step st = 1%nat) then nth O scores []
              else Torch.view_flat scores in
  exists vals words,
    Beam.select (Beam.step st) (Beam.k st) scores = Some (vals, words)
    /\ Forall (fun row => length row = V) scores
    /\ (forall i h pw top,
          Beam.hidden st !! i = Some h ->
          Beam.k_prev_words st !! i = Some pw ->
          Beam.top_k_scores st !! i = Some top ->
          scores !! i
          = Some ((fun j => (top + (decoder_row enc h pw).2 j)%Q) <$> seq 0 V))
    /\ length words = Beam.k st /\ length vals = Beam.k st /\ NoDup words
    /\ StronglySorted (fun a b => (b <= a)%Q) vals
    /\ (forall i x v, flat !! i = Some x -> Z.of_nat i ∉ words -> v ∈ vals ->
          (x <= v)%Q)
    /\ (forall j w, words !! j = Some w ->
          let p := Beam.prev_word_ind V w in
          let n := Beam.next_word_ind V w in
          w = p * Z.of_nat V + n
          /\ 0 <= n < Z.of_nat V
          /\ 0 <= p < Z.of_nat (length scores)
          /\ (Beam.step st = 1%nat -> p = 0)
          /\ exists h pw top parent,
               Beam.hidden st !! Z.to_nat p = Some h
               /\ Beam.k_prev_words st !! Z.to_nat p = Some pw
               /\ Beam.top_k_scores st !! Z.to_nat p = Some top
               /\ Beam.seqs st !! Z.to_nat p = Some parent
               /\ vals !! j
                  = Some (top + (decoder_row enc h pw).2 (Z.to_nat n))%Q)
    /\ (forall j' row, Beam.seqs (ctl_state c) !! j' = Some row ->
          exists j w parent v,
            words !! j = Some w
            /\ Beam.seqs st !! Z.to_nat (Beam.prev_word_ind V w) = Some parent
            /\ row = parent ++ [Beam.next_word_ind V w]
            /\ vals !! j = Some v
            /\ Beam.top_k_scores (ctl_state c) !! j' = Some v).
Proof.
  intros Hb V scores flat.
  destruct (body_trace _ _ _ _ _ _ _ Hb)
    as (vals & words & e & done_seqs & done_scores & Hsel & He & Hentry & Hrows & _).
  pose proof (expand_rows Enc Row decoder_row word_map enc st) as Hshape.
  destruct (select_spec _ _ V _ vals words (vocab_pos word_map e He) Hshape Hsel)
    as (Hlw & Hlv & Hnd & Hsorted & Hbest & Hidx).
  exists vals, words. split; [exact Hsel|]. split; [exact Hshape|]. split.
  { intros i h pw top Hh Hpw Htop. unfold scores, V.
    rewrite list_lookup_fmap.
    now rewrite (expand_lookup _ _ _ _ _ _ _ _ _ _ Hh Hpw Htop). }
  repeat (split; [assumption|]). split.
  - intros j w Hw p n. destruct (Hidx j w Hw) as (Hdiv & Hn & Hp & Hfirst & _).
    repeat (split; [assumption|]). exact (Hentry j w Hw).
  - intros j' row Hrow.
    destruct (Hrows j' row Hrow) as (j & w & parent & v & Hw & Hparent & Hr & Hv & Htop & _).
    exists j, w, parent, v. auto.
Qed.

(** *** The search of one image *)

Section SearchFacts.

Lemma max_from_range best bi i row :
  let r := DAE.max_from best bi i row in
  r.2 = bi \/ i <= r.2 < i + Z.of_nat (length row).
Proof.
  revert best bi i. induction row as [|x row IH]; intros best bi i; [now left|].
  cbn [DAE.max_from length]. destruct (Qle_bool x best).
  - destruct (IH best bi (i + 1)) as [H|H]; [now left|right; lia].
  - destruct (IH x i (i + 1)) as [H|H]; right; lia.
Qed.

Lemma max_row_range (l : list Q) :
  l <> [] ->
  exists v i, DAE.max_row l = Some (v, i) /\ 0 <= i < Z.of_nat (length l).
Proof.
  destruct l as [|x rest]; [congruence|]. intros _.
  destruct (DAE.max_from x 0 1 rest) as [v i] eqn:E.
  exists v, i. cbn [DAE.max_row]. rewrite E. split; [reflexivity|].
  pose proof (max_from_range x 0 1 rest) as H. rewrite E in H.
  cbn [snd length] in *. lia.
Qed.

End SearchFacts.

(** C6, as stated, fails: with a beam of 3, one hypothesis completes at
    step 1 and the other two never do; the loop does not end on an empty
    beam but at step 51, with two live hypotheses and the flag set. *)
Lemma C6_counterexample :
  exists st sen,
    MockBeam.search MockBeam.ends_first MockBeam.never_ends 51 = Exit (st, sen)
    /\ Beam.complete_seqs st = [[1; 2]]
    /\ Beam.k st = 2%nat
    /\ Beam.step st = 51%nat
    /\ Beam.infinite_pred st = true.
Proof. eexists _, _. vm_compute. repeat split. Qed.

(** C6, amended: for a beam of 1 up to [vocab_size] hypotheses the search
    leaves its loop within 51 iterations, in one of two ways: all the
    hypotheses have completed and the beam is empty (flag unset), or a
    hypothesis is still live at step 51, the flag is set and the caption is
    the first live hypothesis cut to 18 tokens, even when other hypotheses
    have completed.  When [<end>] is never selected the loop ends at step
    exactly 51 with the flag set, the whole beam live and nothing
    completed. *)
Theorem C6_beam_step_cap (Enc Row : Type)
    (caption_encoder : list (list Z) -> list Z -> option Enc) (init_row : Row)
    (decoder_row : Enc -> Row -> Z -> Row * (nat -> Q))
    (word_map : gmap string Z) (beam_size fuel : nat)
    (previous_caption : list (list Z)) (prev_caplen : list Z)
    (enc : Enc) (s e p : Z) :
  caption_encoder previous_caption prev_caplen = Some enc ->
  word_map !! "<start>" = Some s ->
  word_map !! "<end>" = Some e ->
  word_map !! "<pad>" = Some p ->
  (1 <= beam_size <= size word_map)%nat ->
  (51 <= fuel)%nat ->
  exists st sen,
    Beam.search Enc Row caption_encoder init_row decoder_row fuel word_map
      beam_size previous_caption prev_caplen = Exit (st, sen)
    /\ (Beam.step st <= 51)%nat
    /\ ((Beam.infinite_pred st = false /\ Beam.k st = O
         /\ length (Beam.complete_seqs st) = beam_size)
        \/ (Beam.infinite_pred st = true /\ Beam.step st = 51%nat
            /\ (1 <= Beam.k st)%nat
            /\ (length (Beam.complete_seqs st) + Beam.k st = beam_size)%nat
            /\ exists seq0, Beam.seqs st !! O = Some seq0
                 /\ length seq0 = 52%nat
                 /\ Beam.chosen_seq Row st = Some (take 18 seq0)
                 /\ length (take 18 seq0) = 18%nat))
    /\ (never_emits Enc Row decoder_row word_map enc e
          (Beam.init Row init_row beam_size s) ->
        Beam.infinite_pred st = true /\ Beam.step st = 51%nat
        /\ Beam.k st = beam_size /\ Beam.complete_seqs st = []).
Proof.
  intros Henc Hs He Hp Hbeam Hfuel.
  destruct (loop_spec Enc Row decoder_row word_map e He beam_size enc fuel
              (Beam.init Row init_row beam_size s))
    as (st & Hrun & Hexit & Hnever).
  { now apply init_live. }
  { cbn [Beam.init Beam.step]. lia. }
  assert (Hseq : exists sq, Beam.chosen_seq Row st = Some sq
            /\ (Beam.infinite_pred st = true ->
                exists seq0, Beam.seqs st !! O = Some seq0 /\ sq = take 18 seq0
                             /\ length seq0 = 52%nat)).
  { unfold Beam.chosen_seq. destruct Hexit as [Hempty|Hcap].
    - destruct Hempty as (_ & Hinf & _ & Hlc & Hls). rewrite Hinf.
      destruct (max_row_range (Beam.complete_seqs_scores st)) as (v & i & -> & Hi).
      { intros Hnil. rewrite Hnil in Hls. cbn [length] in Hls. lia. }
      cbn [mbind option_bind snd].
      destruct (lookup_lt_is_Some_2 (Beam.complete_seqs st) (Z.to_nat i)) as [sq Hsq];
        [lia|].
      exists sq. split; [exact Hsq|]. discriminate.
    - destruct Hcap as (Hinf & _ & Hk & Hl & _ & Hrows). rewrite Hinf.
      destruct (lookup_lt_is_Some_2 (Beam.seqs st) O) as [seq0 Hseq0]; [lia|].
      rewrite Hseq0. cbn [mbind option_bind]. exists (take 18 seq0).
      split; [reflexivity|]. intros _. exists seq0. repeat split.
      rewrite Forall_forall in Hrows. apply Hrows, list_elem_of_lookup. eauto. }
  destruct Hseq as (sq & Hsq & Hsq').
  eexists st, _. split.
  { unfold Beam.search. rewrite Henc, Hs, Hrun, Hsq. cbn [mbind option_bind].
    rewrite (mapM_total _ (fun w => (w, negb ((w =? s) || (w =? e) || (w =? p))))).
    - reflexivity.
    - intros w _. now rewrite He, Hp. }
  split.
  { destruct Hexit as [(_ & _ & H & _)|(_ & H & _)]; lia. }
  split.
  - destruct Hexit as [Hempty|Hcap].
    + left. destruct Hempty as (Hk & Hinf & _ & Hlc & _). auto.
    + right. pose proof Hcap as (Hinf & Hstep & Hk & Hl & Hcount & Hrows).
      destruct (Hsq' Hinf) as (seq0 & Hseq0 & -> & Hlen).
      repeat split; auto. exists seq0. repeat split; auto.
      rewrite length_take. lia.
  - intros Hne. destruct (Hnever Hne) as ((Hinf & Hstep & _) & Hk & Hcs).
    cbn [Beam.init Beam.k Beam.complete_seqs] in Hk, Hcs. auto.
Qed.

(** C8: with the vocabulary [<pad>:0, <start>:1, <end>:2, a:3, dog:4] and a
    decoder whose largest log-probabilities are at the tokens 3, 4 and 2 on
    the first three timesteps, greedy [DAE.forward] on one sequence stores
    [[3, 4, 0, 0, ...]]: [<end>] is stored as 0 and the loop stops; the
    scoring string of that row is ["3 4 0"]. *)
Theorem C8_end_to_end (Enc Hidden Gen : Type)
    (caption_encoder : list (list Z) -> list Z -> option Enc)
    (init_hidden_state : nat -> Hidden)
    (decoder_step : Enc -> Hidden -> Gen -> list Z -> Hidden * Gen * list (list Q))
    (multinomial : Gen -> list Q -> Gen * Z)
    (caps lens : list Z) (g g1 g2 g3 : Gen) (enc : Enc) (h1 h2 h3 : Hidden)
    (lp0 lp1 lp2 : list (list Q)) (v0 v1 v2 : Q) :
  caption_encoder [caps] lens = Some enc ->
  decoder_step enc (init_hidden_state 1%nat) g [1] = (h1, g1, lp0) ->
  DAE.torch_max lp0 = Some ([v0], [3]) ->
  decoder_step enc h1 g1 [3] = (h2, g2, lp1) ->
  DAE.torch_max lp1 = Some ([v1], [4]) ->
  decoder_step enc h2 g2 [4] = (h3, g3, lp2) ->
  DAE.torch_max lp2 = Some ([v2], [2]) ->
  exists sq lps,
    DAE.forward Enc Hidden Gen caption_encoder init_hidden_state decoder_step
      multinomial Mock.word_map [caps] lens true false g = Some (sq, lps)
    /\ sq = [3 :: 4 :: replicate 16 0]
    /\ Forall (fun row => array_to_str row = "3 4 0") sq.
Proof.
  intros Henc Hd0 Hm0 Hd1 Hm1 Hd2 Hm2. eexists _, _. split.
  - exact (forced_script Enc Hidden Gen caption_encoder init_hidden_state
             decoder_step multinomial caps lens g enc h1 h2 h3 g1 g2 g3
             lp0 lp1 lp2 v0 v1 v2 Henc Hd0 Hm0 Hd1 Hm1 Hd2 Hm2).
  - split; [reflexivity|]. repeat constructor.
Qed.

(** *** Runs on concrete inputs *)

Lemma C1_witness :
  exists out,
    RewardCriterion.forward [[-1; -2; -3; -4]]%Q [[5; 7; 0; 0]] [[2; 2; 2; 2]]%Q
    = Some out
    /\ (out == spec_loss 1 4 [[-1; -2; -3; -4]] [[5; 7; 0; 0]%Z] [[2; 2; 2; 2]])%Q.
Proof.
  apply (C1_reward_criterion_forward 1 4); try lia;
    (split; [reflexivity|repeat constructor]).
Defined.

Lemma C9_witness :
  (0 < Torch.sum (Torch.view_flat
                    (RewardCriterion.shifted_mask [[0; 0; 0]; [0; 0; 0]]%Z)))%Q.
Proof.
  apply (C9_mask_sum_positive [[0; 0; 0]; [0; 0; 0]]). simpl. lia.
Defined.

Lemma C2_witness :
  exists rewards,
    get_self_critical_reward
      (fun hypo refs => inject_Z (Z.of_nat (length refs)))
      [[3; 4; 0]] [[3; 0; 0]] [[[3; 4; 0]; [4; 0]]] 1 = Some rewards
    /\ length rewards = 1%nat.
Proof.
  destruct (C2_self_critical_reward
              (fun hypo refs => inject_Z (Z.of_nat (length refs)))
              [[3; 4; 0]] [[3; 0; 0]] [[[3; 4; 0]; [4; 0]]])
    as (gts & res_ & mean & cider_scores & rewards & _ & _ & H & _ & Hlen & _).
  - simpl. lia.
  - simpl. lia.
  - exists rewards. split; [exact H|exact Hlen].
Defined.

Lemma C3_witness :
  exists sq lps,
    Mock.forward [3; 4; 2] Mock.word_map [[1; 3; 2]; [1; 4; 2]] [3; 3]
      false true 3%nat = Some (sq, lps)
    /\ Forall zero_closed sq.
Proof.
  destruct (Mock.forward [3; 4; 2] Mock.word_map [[1; 3; 2]; [1; 4; 2]] [3; 3]
              false true 3%nat) as [[sq lps]|] eqn:E.
  - exists sq, lps. split; [reflexivity|]. apply Forall_forall.
    intros row Hrow i j w.
    exact (proj1 (C3_zero_stays_zero unit nat nat Mock.caption_encoder
                    Mock.init_hidden_state (Mock.decoder_step [3; 4; 2])
                    Mock.multinomial Mock.word_map [[1; 3; 2]; [1; 4; 2]]
                    [3; 3] false true 3%nat sq lps E) row i j w Hrow).
  - vm_compute in E. discriminate E.
Defined.

Lemma C4_witness :
  preprocess_gd [[[1; 3; 4; 2; 0]]] Mock.word_map = Some [[[3; 4; 0]]].
Proof.
  destruct (C4_scoring_strings Mock.word_map 1 0 2 [[[1; 3; 4; 2; 0]]])
    as (_ & ground_truth & gts & Hgd & -> & _); [vm_compute; reflexivity..|].
  exact Hgd.
Defined.

Lemma C5_witness :
  exists outputs final_hidden mask,
    MockEncoder.forward [1 # 2; 1 # 4]%Q [[1; 3; 4; 2; 0]; [1; 3; 2; 0; 0]] [4; 3]
    = Some (outputs, final_hidden, mask)
    /\ mask !! 1%nat = Some (length_mask 4 3).
Proof.
  destruct (C5_validity_mask Z MockEncoder.embed
              (MockEncoder.lstm_output [1 # 2; 1 # 4]%Q)
              MockEncoder.lstm_hidden MockEncoder.concat_tanh 2
              [[1; 3; 4; 2; 0]; [1; 3; 2; 0; 0]] [4; 3])
    as (outputs & final_hidden & mask & H & _ & Hrows).
  - reflexivity.
  - intros l Hl. apply elem_of_cons in Hl as [->|Hl]; [simpl; lia|].
    apply list_elem_of_singleton in Hl. subst l. simpl. lia.
  - exists outputs, final_hidden, mask. split; [exact H|].
    destruct (Hrows 1%nat [1; 3; 2; 0; 0] 3 eq_refl eq_refl)
      as (mrow & Hm & _ & _ & Hmask).
    rewrite Hm. f_equal. apply Hmask. intros t _. vm_compute. discriminate.
Defined.

Lemma C7_witness :
  exists c vals words,
    Beam.body unit nat
      (MockBeam.decoder_row MockBeam.never_ends MockBeam.ends_first)
      Mock.word_map tt
      (Beam.State 3 [[1; 3]; [1; 4]; [1; 0]] [-1; -2; -5]%Q [3; 4; 0]
                  [1; 1; 1]%nat [] [] 2 false) = Some c
    /\ Beam.select 2 3
         (snd <$> Beam.expand_scores unit nat
                    (MockBeam.decoder_row MockBeam.never_ends MockBeam.ends_first)
                    (size Mock.word_map) tt
                    (Beam.State 3 [[1; 3]; [1; 4]; [1; 0]] [-1; -2; -5]%Q
                                [3; 4; 0] [1; 1; 1]%nat [] [] 2 false))
       = Some (vals, words)
    /\ length words = 3%nat /\ NoDup words.
Proof.
  destruct (Beam.body unit nat
              (MockBeam.decoder_row MockBeam.never_ends MockBeam.ends_first)
              Mock.word_map tt
              (Beam.State 3 [[1; 3]; [1; 4]; [1; 0]] [-1; -2; -5]%Q [3; 4; 0]
                          [1; 1; 1]%nat [] [] 2 false)) as [c|] eqn:E;
    [|vm_compute in E; discriminate E].
  destruct (C7_beam_index_arithmetic _ _ _ _ _ _ _ E)
    as (vals & words & Hsel & _ & _ & Hlen & _ & Hnd & _).
  exists c, vals, words. split; [reflexivity|]. split; [exact Hsel|].
  split; [exact Hlen|exact Hnd].
Defined.

Lemma C8_witness :
  exists sq lps,
    Mock.forward [3; 4; 2] Mock.word_map [[1; 3; 2]] [3] true false O
    = Some (sq, lps)
    /\ sq = [3 :: 4 :: replicate 16 0]
    /\ Forall (fun row => array_to_str row = "3 4 0") sq.
Proof.
  apply (C8_end_to_end unit nat nat Mock.caption_encoder Mock.init_hidden_state
           (Mock.decoder_step [3; 4; 2]) Mock.multinomial [1; 3; 2] [3]
           O O O O tt 1%nat 2%nat 3%nat
           [Mock.peak 3] [Mock.peak 4] [Mock.peak 2] 0%Q 0%Q 0%Q);
    vm_compute; reflexivity.
Defined.

Lemma iterate_None_more {S} (body : S -> option (ctl S)) n m s :
  iterate n body s = None -> iterate (n + m) body s = None.
Proof.
  revert s. induction n as [|n IH]; intros s H; [discriminate|].
  cbn [iterate Nat.add] in *. destruct (body s) as [[s'|s']|]; auto.
Qed.

Lemma mock_never_emits :
  never_emits unit nat
    (MockBeam.decoder_row MockBeam.never_ends MockBeam.never_ends)
    Mock.word_map tt 2 (Beam.init nat O 3 1).
Proof.
  intros n st words Hit Hsel.
  destruct (le_lt_dec 51 n) as [Hge|Hlt].
  - replace n with (51 + (n - 51))%nat in Hit by lia.
    rewrite iterate_None_more in Hit; [discriminate|]. vm_compute. reflexivity.
  - do 51 (destruct n as [|n];
           [vm_compute in Hit; injection Hit as <-;
            vm_compute in Hsel; injection Hsel as <-;
            intros Hin; repeat (apply elem_of_cons in Hin as [Hin|Hin];
                                [discriminate Hin|]);
            now apply elem_of_nil in Hin|]).
    lia.
Qed.

Lemma C6_witness :
  exists st sen,
    MockBeam.search MockBeam.never_ends MockBeam.never_ends 51 = Exit (st, sen)
    /\ Beam.infinite_pred st = true /\ Beam.step st = 51%nat
    /\ Beam.k st = 3%nat /\ Beam.complete_seqs st = [].
Proof.
  destruct (C6_beam_step_cap unit nat Mock.caption_encoder O
              (MockBeam.decoder_row MockBeam.never_ends MockBeam.never_ends)
              Mock.word_map 3 51 [[1; 3; 4; 2]] [4] tt 1 2 0)
    as (st & sen & Hrun & _ & _ & Hnever).
  - reflexivity.
  - vm_compute. reflexivity.
  - vm_compute. reflexivity.
  - vm_compute. reflexivity.
  - vm_compute. lia.
  - lia.
  - exists st, sen. split; [exact Hrun|]. exact (Hnever mock_never_emits).
Defined.

(** ** Part III: further properties of the code *)

(** *** Scoring strings determine the ids *)

Section StringInjective.
Import Py.

Lemma to_int_wf n : Z.to_int n <> Pos Nil /\ Z.to_int n <> Neg Nil.
Proof.
  destruct n as [|p|p]; cbn [Z.to_int]; split; try discriminate;
    intros [= H]; now apply (DecimalPos.Unsigned.to_uint_nonnil p).
Qed.

Lemma str_inj n m : str n = str m -> n = m.
Proof.
  unfold str. intros H. apply DecimalZ.to_int_inj.
  destruct (to_int_wf n) as [Hn1 Hn2]. destruct (to_int_wf m) as [Hm1 Hm2].
  pose proof (NilZero.isi (Z.to_int n) Hn1 Hn2) as Pn.
  pose proof (NilZero.isi (Z.to_int m) Hm1 Hm2) as Pm.
  rewrite H in Pn. congruence.
Qed.

Lemma no_space_app a b : no_space (a +:+ b) = no_space a && no_space b.
Proof.
  induction a as [|c a IH]; [reflexivity|].
  rewrite app_cons_s. cbn [no_space]. rewrite IH. now rewrite andb_assoc.
Qed.

Lemma no_space_split a b r r' :
  no_space a = true -> no_space b = true ->
  a +:+ String " " r = b +:+ String " " r' -> a = b /\ r = r'.
Proof.
  revert b. induction a as [|c a IH]; intros [|d b] Ha Hb H.
  - rewrite !app_nil_l_s in H. now injection H.
  - rewrite app_nil_l_s, app_cons_s in H. injection H as <- _.
    cbn in Hb. discriminate.
  - rewrite app_nil_l_s, app_cons_s in H. injection H as -> _.
    cbn in Ha. discriminate.
  - rewrite !app_cons_s in H. injection H as <- H.
    cbn [no_space] in Ha, Hb. apply andb_prop in Ha as [_ Ha], Hb as [_ Hb].
    destruct (IH b Ha Hb H) as [-> ->]. auto.
Qed.

Lemma ids_to_str_nonempty a l : ids_to_str (a :: l) <> EmptyString.
Proof.
  pose proof (ids_to_str_head_ok a l) as H.
  destruct (ids_to_str (a :: l)); [contradiction|discriminate].
Qed.

Lemma ids_to_str_inj l l' : ids_to_str l = ids_to_str l' -> l = l'.
Proof.
  revert l'. induction l as [|a l IH]; intros [|b l'] H.
  - reflexivity.
  - symmetry in H. now apply ids_to_str_nonempty in H.
  - now apply ids_to_str_nonempty in H.
  - destruct l as [|a2 l], l' as [|b2 l'].
    + f_equal. now apply str_inj.
    + rewrite ids_to_str_cons in H. exfalso.
      assert (Hs : no_space (ids_to_str [a]) = true) by apply str_no_space.
      rewrite H, no_space_app in Hs. apply andb_prop in Hs as [_ Hs].
      rewrite app_cons_s in Hs. cbn in Hs. discriminate.
    + rewrite ids_to_str_cons in H. exfalso.
      assert (Hs : no_space (ids_to_str [b]) = true) by apply str_no_space.
      rewrite <- H, no_space_app in Hs. apply andb_prop in Hs as [_ Hs].
      rewrite app_cons_s in Hs. cbn in Hs. discriminate.
    + rewrite !ids_to_str_cons, !app_cons_s, !app_nil_l_s in H.
      apply no_space_split in H as [Hab Hrest]; auto using str_no_space.
      apply str_inj in Hab. apply IH in Hrest. congruence.
Qed.

End StringInjective.

(** X1: the scoring string determines the ids it was made of: two arrays with
    the same string agree up to and with their first 0. *)
Theorem X1_array_to_str_injective (a b : list Z) :
  array_to_str a = array_to_str b ->
  through_first_zero a = through_first_zero b.
Proof.
  rewrite !array_to_str_spec. apply ids_to_str_inj.
Qed.

Lemma X1_witness : through_first_zero [3; 4; 0; 7] = through_first_zero [3; 4; 0; 0].
Proof. apply X1_array_to_str_injective. reflexivity. Defined.

(** *** Reference captions *)

Section ReferenceFacts.

Lemma through_first_zero_nonzero (words : list Z) :
  Forall (fun w => w <> 0) words ->
  through_first_zero (words ++ [0]) = words ++ [0].
Proof.
  induction 1 as [|w words Hw _ IH]; [reflexivity|].
  cbn [app through_first_zero]. apply Z.eqb_neq in Hw. now rewrite Hw, IH.
Qed.

Lemma strip_caption_layout (s p e : Z) (words : list Z) (n : nat) :
  e <> s -> e <> p ->
  Forall (fun w => w <> s /\ w <> p /\ w <> e) words ->
  strip_caption s p e ([s] ++ words ++ [e] ++ replicate n p) = words ++ [0].
Proof.
  intros Hes Hep Hwords. unfold strip_caption.
  rewrite !filter_app, !fmap_app.
  assert (H1 : filter (fun w => negb ((w =? s) || (w =? p)) = true) [s] = []).
  { rewrite filter_cons, decide_False; [reflexivity|]. now rewrite Z.eqb_refl. }
  assert (H2 : filter (fun w => negb ((w =? s) || (w =? p)) = true) [e] = [e]).
  { rewrite filter_cons, decide_True; [reflexivity|].
    apply Z.eqb_neq in Hes, Hep. now rewrite Hes, Hep. }
  assert (H3 : filter (fun w => negb ((w =? s) || (w =? p)) = true)
                 (replicate n p) = []).
  { induction n as [|n IH]; [reflexivity|]. cbn [replicate].
    rewrite filter_cons, decide_False; [exact IH|].
    now rewrite Z.eqb_refl, orb_true_r. }
  rewrite H1, H2, H3. cbn [fmap list_fmap app]. rewrite Z.eqb_refl. cbn [negb].
  f_equal.
  induction Hwords as [|w words (Hs & Hp & He) _ IH]; [reflexivity|].
  rewrite filter_cons, decide_True.
  2:{ apply Z.eqb_neq in Hs, Hp. now rewrite Hs, Hp. }
  rewrite fmap_cons, IH. apply Z.eqb_neq in He. now rewrite He.
Qed.

End ReferenceFacts.

(** X2: a reference caption laid out as [<start>], words, [<end>], padding
    comes out of [preprocess_gd] as the words followed by 0, and its scoring
    string is the ids of the words followed by ["0"]. *)
Theorem X2_reference_layout (word_map : gmap string Z) (s p e : Z)
    (words : list Z) (n : nat) :
  word_map !! "<start>" = Some s ->
  word_map !! "<pad>" = Some p ->
  word_map !! "<end>" = Some e ->
  e <> s -> e <> p ->
  Forall (fun w => w <> s /\ w <> p /\ w <> e /\ w <> 0) words ->
  preprocess_gd [[[s] ++ words ++ [e] ++ replicate n p]] word_map
  = Some [[words ++ [0]]]
  /\ array_to_str (words ++ [0]) = ids_to_str (words ++ [0]).
Proof.
  intros Hs Hp He Hes Hep Hwords. split.
  - rewrite (preprocess_gd_spec word_map s p e Hs Hp He). cbn [fmap list_fmap].
    rewrite strip_caption_layout; auto.
    eapply Forall_impl; [exact Hwords|]. intros w Hw. cbv beta in *. tauto.
  - rewrite array_to_str_spec, through_first_zero_nonzero; [reflexivity|].
    eapply Forall_impl; [exact Hwords|]. intros w Hw. cbv beta in *. tauto.
Qed.

Lemma X2_witness :
  preprocess_gd [[[1] ++ [3; 4] ++ [2] ++ replicate 2 0]] Mock.word_map
  = Some [[[3; 4] ++ [0]]]
  /\ array_to_str ([3; 4] ++ [0]) = ids_to_str ([3; 4] ++ [0]).
Proof.
  apply (X2_reference_layout Mock.word_map 1 0 2 [3; 4] 2);
    try (vm_compute; reflexivity); try lia.
  repeat constructor; lia.
Defined.

(** X3: [preprocess_gd] looks the special words up once per word of a
    caption: without [<start>] or [<pad>] in the word map it raises as soon as
    one caption has a word, and returns the captions unchanged when all of
    them are empty. *)
Theorem X3_preprocess_gd_missing_key (word_map : gmap string Z)
    (allcaps : list (list (list Z))) :
  (word_map !! "<start>" = None \/ word_map !! "<pad>" = None) ->
  (Exists (Exists (fun c => c <> [])) allcaps ->
     preprocess_gd allcaps word_map = None)
  /\ (Forall (Forall (fun c => c = [])) allcaps ->
        preprocess_gd allcaps word_map = Some allcaps).
Proof.
  intros Hmiss. split.
  - intros Hex. unfold preprocess_gd. apply mapM_None_2.
    eapply Exists_impl; [exact Hex|]. intros img Himg. cbv beta.
    assert (Hnone : mapM (drop_start_pad word_map) img = None).
    { apply mapM_None_2. eapply Exists_impl; [exact Himg|].
      intros c Hc. cbv beta. unfold drop_start_pad.
      destruct c as [|w c]; [congruence|]. cbn [mapM].
      destruct Hmiss as [-> | ->]; [reflexivity|].
      now destruct (word_map !! "<start>"). }
    now rewrite Hnone.
  - intros Hall. unfold preprocess_gd.
    rewrite <- (list_fmap_id allcaps) at 2. apply mapM_total.
    intros img Himg. rewrite Forall_forall in Hall. specialize (Hall img Himg).
    rewrite (mapM_total _ id).
    + cbn [mbind option_bind]. rewrite list_fmap_id.
      rewrite <- (list_fmap_id img) at 2. apply mapM_total.
      intros c Hc. rewrite Forall_forall in Hall. now rewrite (Hall c Hc).
    + intros c Hc. rewrite Forall_forall in Hall. now rewrite (Hall c Hc).
Qed.

Lemma X3_witness :
  preprocess_gd [[[3; 4]; []]] (<["<end>" := 2]> ∅) = None
  /\ preprocess_gd [[[]; []]] (<["<end>" := 2]> ∅) = Some [[[]; []]].
Proof.
  destruct (X3_preprocess_gd_missing_key (<["<end>" := 2]> ∅) [[[3; 4]; []]])
    as [H1 _]; [left; vm_compute; reflexivity|].
  destruct (X3_preprocess_gd_missing_key (<["<end>" := 2]> ∅) [[[]; []]])
    as [_ H2]; [left; vm_compute; reflexivity|].
  split.
  - apply H1. repeat constructor. discriminate.
  - apply H2. repeat constructor.
Defined.

(** *** The reward for any weight *)

Section RewardWeight.
Variable metric : list string -> list string -> Q.
Variables gen greedy : list (list Z).
Variable gt : list (list (list Z)).
Variable cider_weight : Q.
Let B := length gen.
Hypothesis greedy_rows : (B <= length greedy)%nat.
Hypothesis gt_rows : (B <= length gt)%nat.

Let hyp (i : nat) : list string :=
  if decide (i < B)%nat then [array_to_str (nth i gen [])]
  else [array_to_str (nth (i - B) greedy [])].
Let refs (i : nat) : list string := array_to_str <$> nth (i mod B) gt [].

Lemma reward_rows_weight :
  get_self_critical_reward metric gen greedy gt cider_weight
  = Some ((fun i => replicate (ncols gen)
                      (cider_weight * metric (hyp i) (refs i)
                       - cider_weight * metric (hyp (B + i)) (refs (B + i)))%Q)
          <$> seq 0 B).
Proof.
  destruct (scorer_inputs_spec gen greedy gt greedy_rows gt_rows)
    as (gts & Hin & Hgts).
  destruct (compute_score_spec metric gen greedy gt greedy_rows gt_rows gts Hgts)
    as (mean & Hsc).
  cbv beta in Hin, Hsc. unfold get_self_critical_reward.
  rewrite Hin. cbn [mbind option_bind]. rewrite Hsc. cbn [mbind option_bind].
  fold B. replace (2 * B)%nat with (B + B)%nat by lia.
  rewrite seq_app, !fmap_app, Nat.add_0_l.
  rewrite take_app_length', drop_app_length' by now rewrite !length_fmap, length_seq.
  unfold Torch.pointwise. rewrite decide_True by now rewrite !length_fmap, !length_seq.
  cbn [mbind option_bind]. f_equal.
  replace (seq B B) with (Nat.add B <$> seq 0 B)
    by now rewrite fmap_add_seq, Nat.add_0_r.
  rewrite <- !list_fmap_compose, zip_with_fmap_l, zip_with_fmap_r, zip_with_diag.
  rewrite <- list_fmap_compose. reflexivity.
Qed.

End RewardWeight.

Lemma reward_same_batch (metric : list string -> list string -> Q)
    (gen : list (list Z)) (gt : list (list (list Z))) (cider_weight : Q) :
  (length gen <= length gt)%nat ->
  exists rewards,
    get_self_critical_reward metric gen gen gt cider_weight = Some rewards
    /\ length rewards = length gen
    /\ Forall (fun row => length row = ncols gen
                          /\ Forall (fun x => x == 0)%Q row) rewards.
Proof.
  intros Hgt. eexists. split.
  { apply reward_rows_weight; [reflexivity|exact Hgt]. }
  split; [now rewrite length_fmap, length_seq|].
  apply Forall_fmap, Forall_forall. intros i Hi. apply elem_of_seq in Hi.
  unfold compose. split; [apply length_replicate|].
  apply Forall_replicate.
  rewrite decide_True, decide_False by lia.
  replace (length gen + i - length gen)%nat with i by lia.
  assert (Hmod : ((length gen + i) mod length gen = i mod length gen)%nat).
  { rewrite Nat.Div0.add_mod, Nat.Div0.mod_same, Nat.add_0_l.
    now rewrite Nat.Div0.mod_mod. }
  rewrite Hmod. ring.
Qed.

(** X4: when the sampled batch is the greedy batch, every reward is zero,
    whatever the weight, the scorer and the references. *)
Theorem X4_reward_symmetry (metric : list string -> list string -> Q)
    (gen : list (list Z)) (gt : list (list (list Z))) (cider_weight : Q) :
  (length gen <= length gt)%nat ->
  exists rewards,
    get_self_critical_reward metric gen gen gt cider_weight = Some rewards
    /\ length rewards = length gen
    /\ Forall (fun row => length row = ncols gen
                          /\ Forall (fun x => x == 0)%Q row) rewards.
Proof. apply reward_same_batch. Qed.

Lemma X4_witness :
  exists rewards,
    get_self_critical_reward (fun hypo refs => inject_Z (Z.of_nat (length refs)))
      [[3; 4; 0]; [4; 0; 0]] [[3; 4; 0]; [4; 0; 0]] [[[3; 0]]; [[4; 0]; [3; 0]]]
      (1 # 2) = Some rewards
    /\ length rewards = 2%nat.
Proof.
  destruct (X4_reward_symmetry (fun hypo refs => inject_Z (Z.of_nat (length refs)))
              [[3; 4; 0]; [4; 0; 0]] [[[3; 0]]; [[4; 0]; [3; 0]]] (1 # 2))
    as (rewards & H & Hlen & _); [simpl; lia|].
  exists rewards. split; [exact H|exact Hlen].
Defined.

(** *** Exceptions of the reward *)

Section LoopFailure.
Context {X V : Type}.

Lemma for_loop_insert_None (src : nat -> option X) (g : nat -> X -> V)
    (k : nat -> nat) (indices : list nat) (m : gmap nat V) :
  Exists (fun i => src i = None) indices ->
  for_loop indices (fun i s => x ← src i; Some (<[k i := g i x]> s)) m = None.
Proof.
  intros H. revert m. induction H as [i rest Hi|i rest _ IH]; intros m.
  - cbn [for_loop]. now rewrite Hi.
  - cbn [for_loop]. destruct (src i) as [x|]; [|reflexivity].
    cbn [mbind option_bind]. apply IH.
Qed.

End LoopFailure.

(** X5: [get_self_critical_reward] raises when the greedy batch has fewer
    rows than the sampled batch ([greedy_res[i]] is out of range) and when
    there are fewer reference sets than sampled sequences
    ([gts[i % batch_size]] is a missing key). *)
Theorem X5_reward_raises (metric : list string -> list string -> Q)
    (gen greedy : list (list Z)) (gt : list (list (list Z))) (cider_weight : Q) :
  (length greedy < length gen)%nat \/ (length gt < length gen)%nat ->
  get_self_critical_reward metric gen greedy gt cider_weight = None.
Proof.
  intros H. unfold get_self_critical_reward.
  assert (Hin : scorer_inputs gen greedy gt = None); [|now rewrite Hin].
  unfold scorer_inputs. destruct H as [Hgreedy|Hgt].
  - assert (Hres : build_res gen greedy = None); [|now rewrite Hres].
    unfold build_res, for_range.
    destruct (for_loop _ _ ∅) as [res|]; [|reflexivity]. cbn [mbind option_bind].
    apply (for_loop_insert_None (fun i => greedy !! i)
             (fun _ row => [array_to_str row]) (fun i => (length gen + i)%nat)).
    apply Exists_exists. exists (length greedy).
    split; [apply elem_of_seq; lia|]. now apply lookup_ge_None.
  - destruct (build_res gen greedy) as [res|]; [|reflexivity].
    cbn [mbind option_bind]. unfold build_gts, for_range.
    destruct (for_loop_insert (fun i => gt !! i) (fun _ caps => array_to_str <$> caps)
                id (seq 0 (length gt)) ∅) as (g1 & Hrun & _ & Hout); [auto|..].
    { intros i Hi. apply elem_of_seq in Hi. apply lookup_lt_is_Some_2. lia. }
    unfold id in Hrun. rewrite Hrun. cbn [mbind option_bind].
    destruct (mapM _ (seq 0 (2 * length gen))) as [res_|]; [|reflexivity].
    cbn [mbind option_bind].
    rewrite (for_loop_insert_None (fun i => g1 !! (i mod length gen)%nat)
               (fun _ r => r) id); [reflexivity|].
    apply Exists_exists. exists (length gt).
    split; [apply elem_of_seq; lia|].
    rewrite Nat.mod_small by lia. rewrite Hout; [apply lookup_empty|].
    intros i Hi. apply elem_of_seq in Hi. unfold id. lia.
Qed.

Lemma X5_witness :
  get_self_critical_reward (fun hypo refs => inject_Z (Z.of_nat (length refs)))
    [[3; 4; 0]; [4; 0; 0]] [[3; 4; 0]] [[[3; 0]]; [[4; 0]]] 1 = None.
Proof. apply X5_reward_raises. left. simpl. lia. Defined.

(** *** Shape and tokens of the decoder's output *)

Section ColumnFacts.
Context {A : Type}.

Lemma set_column_shape t (vals : list A) m m' B L :
  DAE.set_column t vals m = Some m' -> shape B L m -> shape B L m'.
Proof.
  unfold DAE.set_column. destruct (decide _) as [Hlen|]; [|discriminate].
  intros [= <-] [HB HL]. split; [rewrite length_zip_with; lia|].
  apply Forall_lookup. intros b row' Hrow'.
  apply lookup_zip_with_Some in Hrow' as (row & v & -> & Hrow & _).
  rewrite length_insert. rewrite Forall_lookup in HL. eauto.
Qed.

Lemma set_column_Forall (P : A -> Prop) t (vals : list A) m m' :
  DAE.set_column t vals m = Some m' ->
  Forall (Forall P) m -> Forall P vals -> Forall (Forall P) m'.
Proof.
  unfold DAE.set_column. destruct (decide _) as [Hlen|]; [|discriminate].
  intros [= <-] Hm Hvals. apply Forall_lookup. intros b row' Hrow'.
  apply lookup_zip_with_Some in Hrow' as (row & v & -> & Hrow & Hv).
  rewrite Forall_lookup in Hm. rewrite Forall_lookup in Hvals.
  apply Forall_insert; eauto.
Qed.

End ColumnFacts.

Section TokenFacts.

Lemma torch_max_nonneg lps r :
  DAE.torch_max lps = Some r -> Forall (fun i => 0 <= i) r.2.
Proof.
  unfold DAE.torch_max. intros H. bind_some H. injection H as <-.
  cbn [snd]. apply mapM_Some_1 in E. apply Forall_fmap.
  eapply Forall2_Forall_r; [exact E|]. apply Forall_true.
  intros row [v i] Hrow. destruct row as [|q rest]; [discriminate|].
  destruct (max_row_range (q :: rest)) as (v' & i' & Hmax & Hi); [easy|].
  rewrite Hmax in Hrow. injection Hrow as <- <-. cbn. lia.
Qed.

Lemma gather_nonneg lps it lp :
  DAE.gather lps it = Some lp -> length it = length lps ->
  Forall (fun i => 0 <= i) it.
Proof.
  unfold DAE.gather. intros H Hlen. apply mapM_Some_1 in H.
  apply Forall_lookup. intros b i Hi.
  destruct (lookup_lt_is_Some_2 lps b) as [row Hrow].
  { rewrite <- Hlen. now apply lookup_lt_Some in Hi. }
  assert (Hz : zip lps it !! b = Some (row, i)).
  { erewrite lookup_zip_with, Hrow, Hi. reflexivity. }
  destruct (Forall2_lookup_l _ _ _ _ _ H Hz) as (y & _ & Hy).
  cbn [fst snd] in Hy. destruct (0 <=? i) eqn:E; [lia|discriminate].
Qed.

End TokenFacts.

Section ForwardShape.
Variables Enc Hidden Gen : Type.
Variable caption_encoder : list (list Z) -> list Z -> option Enc.
Variable init_hidden_state : nat -> Hidden.
Variable decoder_step :
  Enc -> Hidden -> Gen -> list Z -> Hidden * Gen * list (list Q).
Variable multinomial : Gen -> list Q -> Gen * Z.

Local Abbreviation step := (DAE.step Enc Hidden Gen decoder_step multinomial).
Local Abbreviation forward :=
  (DAE.forward Enc Hidden Gen caption_encoder init_hidden_state decoder_step
     multinomial).

Lemma forward_no_flag word_map caps lens g :
  forward word_map caps lens false false g = None.
Proof.
  unfold DAE.forward.
  destruct (word_map !! "<start>") as [start_idx|]; [|reflexivity].
  cbn [mbind option_bind].
  destruct (caption_encoder caps lens) as [enc|]; [|reflexivity].
  cbn [mbind option_bind].
  assert (Hstep : forall s, DAE.sampleLogprobs s = None ->
            step word_map false false enc 0 s = None).
  { intros s Hs. unfold DAE.step.
    destruct (decoder_step _ _ _ _) as [[h g'] lps].
    rewrite decide_False by (unfold DAE.max_len; lia).
    cbn [mbind option_bind fst snd].
    destruct (word_map !! "<end>") as [e|]; [|reflexivity].
    cbn [mbind option_bind].
    destruct (DAE.set_column _ _ _) as [sq|]; [|reflexivity].
    cbn [mbind option_bind]. now rewrite Hs. }
  change (List.seq 0 (DAE.max_len + 1)) with (O :: List.seq 1 DAE.max_len).
  cbn [for_break]. now rewrite Hstep.
Qed.

Lemma sample_rows_length g lps r :
  DAE.sample_rows Gen multinomial g lps = Some r -> length r.2 = length lps.
Proof.
  revert g r. induction lps as [|row rest IH]; intros g r H.
  - injection H as <-. reflexivity.
  - cbn [DAE.sample_rows] in H. destruct row as [|q row]; [discriminate|].
    destruct (multinomial g (q :: row)) as [g' i].
    bind_some H. injection H as <-. cbn [snd length]. f_equal. eauto.
Qed.

(** What the loop keeps of the two output tensors. *)
Let kept (B : nat) (s : DAE.locals Hidden Gen) : Prop :=
  shape B DAE.max_len (DAE.seq s) /\ shape B DAE.max_len (DAE.seqLogprobs s)
  /\ Forall (Forall (fun w => 0 <= w)) (DAE.seq s).

Lemma step_shape word_map sample_max sample_rl enc t s c B :
  (t < DAE.max_len)%nat -> sample_max = true \/ sample_rl = true ->
  step word_map sample_max sample_rl enc t s = Some c ->
  kept B s -> kept B (ctl_state c).
Proof.
  intros Ht Hflag Hstep (Hsq & Hlp & Hnn). unfold DAE.step in Hstep.
  destruct (decoder_step _ _ _ _) as [[h g] lps].
  rewrite decide_False in Hstep by lia.
  bind_some Hstep. bind_some Hstep. bind_some Hstep. bind_some Hstep.
  bind_some Hstep. bind_some Hstep.
  match type of Hstep with
  | (if ?b then Some (Break ?s1) else _) = _ =>
      assert (Hc : ctl_state c = s1) by (destruct b; now injection Hstep as <-)
  end.
  rewrite Hc. unfold kept. cbn [DAE.seq DAE.seqLogprobs]. clear Hc Hstep.
  assert (Hit : Forall (fun i => 0 <= i) x0.2).
  { destruct sample_rl.
    - bind_some E0. bind_some E0. injection E0 as <-. cbn [snd].
      eapply gather_nonneg; [eassumption|]. eapply sample_rows_length; eassumption.
    - destruct Hflag as [->|]; [|discriminate]. injection E0 as <-. cbn [snd].
      bind_some E. injection E as <-. cbn [snd].
      eapply torch_max_nonneg; eassumption. }
  split; [eapply set_column_shape; eassumption|].
  split; [eapply set_column_shape; eassumption|].
  eapply set_column_Forall; [eassumption|exact Hnn|].
  apply Forall_lookup. intros b v Hv.
  apply lookup_zip_with_Some in Hv as (w & u & -> & Hw & _).
  rewrite list_lookup_fmap in Hw.
  destruct (x0.2 !! b) as [i|] eqn:Hi; [|discriminate]. injection Hw as <-.
  rewrite Forall_lookup in Hit. specialize (Hit b i Hi).
  destruct (i =? x1), u; lia.
Qed.

Lemma forward_shape word_map caps lens sample_max sample_rl g sq lps :
  forward word_map caps lens sample_max sample_rl g = Some (sq, lps) ->
  shape (length caps) DAE.max_len sq /\ shape (length caps) DAE.max_len lps
  /\ Forall (Forall (fun w => 0 <= w)) sq.
Proof.
  intros H.
  assert (Hflag : sample_max = true \/ sample_rl = true).
  { destruct sample_max; [now left|]. destruct sample_rl; [now right|].
    now rewrite forward_no_flag in H. }
  unfold DAE.forward in H. bind_some H. bind_some H. bind_some H.
  injection H as <- <-.
  match goal with
  | E : for_break _ _ _ = Some ?s |- _ =>
      apply (for_break_inv (fun _ => kept (length caps)) (kept (length caps))
               _ _ O _ s) in E; [exact E|..]
  end.
  - intros i s c Hi Hs Hc.
    destruct (decide (i = DAE.max_len)) as [->|Hne].
    + apply step_last in Hc as (s' & -> & Hseq & Hlps & _).
      unfold kept. now rewrite Hseq, Hlps.
    + assert (Hlt : (i < DAE.max_len)%nat) by (unfold DAE.max_len in *; lia).
      pose proof (step_shape _ _ _ _ _ _ _ _ Hlt Hflag Hc Hs) as Hnext.
      now destruct c.
  - auto.
  - unfold kept, shape. cbn [DAE.seq DAE.seqLogprobs].
    rewrite !length_replicate. repeat split.
    + apply Forall_replicate, length_replicate.
    + apply Forall_replicate, length_replicate.
    + apply Forall_replicate, Forall_replicate. lia.
Qed.

End ForwardShape.

(** X6: [DAE.forward] called with [sample_max] and [sample_rl] both false
    raises on every input: at timestep 0 neither branch assigns
    [sampleLogprobs], so [seqLogprobs[:,timestep] = sampleLogprobs.view(-1)]
    reads an unbound local (when nothing raised before it). *)
Theorem X6_no_flag_raises (Enc Hidden Gen : Type)
    (caption_encoder : list (list Z) -> list Z -> option Enc)
    (init_hidden_state : nat -> Hidden)
    (decoder_step : Enc -> Hidden -> Gen -> list Z -> Hidden * Gen * list (list Q))
    (multinomial : Gen -> list Q -> Gen * Z)
    (word_map : gmap string Z) (caps : list (list Z)) (lens : list Z) (g : Gen) :
  DAE.forward Enc Hidden Gen caption_encoder init_hidden_state decoder_step
    multinomial word_map caps lens false false g = None.
Proof. apply forward_no_flag. Qed.

(** X7: the two tensors [DAE.forward] returns have one row per input caption
    and [max_len = 18] columns, and no stored token id is negative. *)
Theorem X7_forward_shape (Enc Hidden Gen : Type)
    (caption_encoder : list (list Z) -> list Z -> option Enc)
    (init_hidden_state : nat -> Hidden)
    (decoder_step : Enc -> Hidden -> Gen -> list Z -> Hidden * Gen * list (list Q))
    (multinomial : Gen -> list Q -> Gen * Z)
    (word_map : gmap string Z) (caps : list (list Z)) (lens : list Z)
    (sample_max sample_rl : bool) (g : Gen)
    (sq : list (list Z)) (lps : list (list Q)) :
  DAE.forward Enc Hidden Gen caption_encoder init_hidden_state decoder_step
    multinomial word_map caps lens sample_max sample_rl g = Some (sq, lps) ->
  shape (length caps) 18 sq /\ shape (length caps) 18 lps
  /\ Forall (Forall (fun w => 0 <= w)) sq.
Proof. apply forward_shape. Qed.

Lemma X7_witness :
  exists sq lps,
    Mock.forward [3; 4; 2] Mock.word_map [[1; 3; 2]; [1; 4; 2]] [3; 3]
      false true 3%nat = Some (sq, lps)
    /\ shape 2 18 sq /\ shape 2 18 lps
    /\ Forall (Forall (fun w => 0 <= w)) sq.
Proof.
  destruct (Mock.forward [3; 4; 2] Mock.word_map [[1; 3; 2]; [1; 4; 2]] [3; 3]
              false true 3%nat) as [[sq lps]|] eqn:E.
  - exists sq, lps. split; [reflexivity|].
    exact (X7_forward_shape unit nat nat Mock.caption_encoder
             Mock.init_hidden_state (Mock.decoder_step [3; 4; 2])
             Mock.multinomial Mock.word_map [[1; 3; 2]; [1; 4; 2]]
             [3; 3] false true 3%nat sq lps E).
  - vm_compute in E. discriminate E.
Defined.

(** *** The loss mask of a decoded batch *)

Section MaskFacts.

Lemma through_first_zero_lt (row : list Z) (t : nat) :
  (t < length (through_first_zero row))%nat <->
  (t < length row)%nat /\ forall i, (i < t)%nat -> row !! i <> Some 0.
Proof.
  revert t. induction row as [|a rest IH]; intros t.
  - cbn. split; [lia|intros [? _]; lia].
  - cbn [through_first_zero]. destruct (a =? 0) eqn:Ha.
    + apply Z.eqb_eq in Ha as ->. cbn [length]. split.
      * intros Ht. split; [lia|]. intros i Hi. lia.
      * intros [_ Hz]. destruct t as [|t]; [lia|].
        now destruct (Hz O ltac:(lia)).
    + apply Z.eqb_neq in Ha. cbn [length]. destruct t as [|t].
      * split; [|lia]. intros _. split; [lia|]. intros i Hi. lia.
      * rewrite <- Nat.succ_lt_mono, IH, <- Nat.succ_lt_mono.
        split; intros [Ht Hz]; (split; [exact Ht|]).
        -- intros [|i] Hi; [cbn; congruence|]. apply Hz. lia.
        -- intros i Hi. apply (Hz (S i)). lia.
Qed.

Lemma through_first_zero_length (row : list Z) :
  (length (through_first_zero row) <= length row)%nat.
Proof.
  induction row as [|a rest IH]; [reflexivity|].
  cbn [through_first_zero]. destruct (a =? 0); cbn [length]; lia.
Qed.

Lemma shift_row_closed (row : list Z) :
  (1 <= length row)%nat -> zero_closed row -> Forall (fun w => 0 <= w) row ->
  shift_row row = length_mask (length row) (length (through_first_zero row)).
Proof.
  intros Hlen Hclosed Hnn. rewrite shift_row_spec by exact Hlen.
  unfold length_mask. apply map_ext_in. intros t Ht. apply in_seq in Ht.
  destruct t as [|t].
  - cbn [spec_mask]. rewrite decide_True; [reflexivity|].
    apply through_first_zero_lt. split; [lia|]. intros i Hi. lia.
  - cbn [spec_mask].
    destruct (lookup_lt_is_Some_2 row t) as [w Hw]; [lia|].
    rewrite (nth_lookup_Some _ _ _ _ Hw).
    rewrite Forall_lookup in Hnn. pose proof (Hnn t w Hw) as Hw0.
    destruct (0 <? w) eqn:Hpos.
    + apply Z.ltb_lt in Hpos. rewrite decide_True; [reflexivity|].
      apply through_first_zero_lt. split; [lia|]. intros i Hi Hz.
      destruct (decide (i = t)) as [->|Hne]; [rewrite Hw in Hz; injection Hz; lia|].
      pose proof (Hclosed i t w ltac:(lia) Hz Hw). lia.
    + apply Z.ltb_ge in Hpos. rewrite decide_False; [reflexivity|].
      intros Hlt. apply through_first_zero_lt in Hlt as [_ Hz].
      apply (Hz t); [lia|]. rewrite Hw. f_equal. lia.
Qed.

Lemma sum_length_mask (L n : nat) :
  (Torch.sum (length_mask L n) == inject_Z (Z.of_nat (n `min` L)))%Q.
Proof.
  unfold length_mask. induction L as [|L IH]; [now rewrite Nat.min_0_r|].
  rewrite seq_S, fmap_app, sum_app, IH. cbn [fmap list_fmap Nat.add].
  rewrite sum_cons. cbn [Torch.sum foldr]. destruct (decide (L < n)%nat).
  - replace (n `min` S L)%nat with (S (n `min` L)) by lia.
    rewrite Nat2Z.inj_succ, <- Z.add_1_r, inject_Z_plus. ring.
  - replace (n `min` S L)%nat with (n `min` L)%nat by lia. ring.
Qed.

End MaskFacts.

(** X8: on the sequence tensor [DAE.forward] returns, the mask of the loss
    has in each row ones on the first [n] of the 18 positions and zeros
    after them, [n] being the number of ids [array_to_str] prints for the row
    (its ids up to and with the first 0); the divisor of the loss is the
    number of ids printed for the whole batch. *)
Theorem X8_mask_covers_scored_ids (Enc Hidden Gen : Type)
    (caption_encoder : list (list Z) -> list Z -> option Enc)
    (init_hidden_state : nat -> Hidden)
    (decoder_step : Enc -> Hidden -> Gen -> list Z -> Hidden * Gen * list (list Q))
    (multinomial : Gen -> list Q -> Gen * Z)
    (word_map : gmap string Z) (caps : list (list Z)) (lens : list Z)
    (sample_max sample_rl : bool) (g : Gen)
    (sq : list (list Z)) (lps : list (list Q)) :
  DAE.forward Enc Hidden Gen caption_encoder init_hidden_state decoder_step
    multinomial word_map caps lens sample_max sample_rl g = Some (sq, lps) ->
  RewardCriterion.shifted_mask sq
  = (fun row => length_mask 18 (length (through_first_zero row))) <$> sq
  /\ Forall (fun row => array_to_str row = ids_to_str (through_first_zero row)) sq
  /\ (Torch.sum (Torch.view_flat (RewardCriterion.shifted_mask sq))
      == inject_Z (Z.of_nat (length (concat (through_first_zero <$> sq)))))%Q.
Proof.
  intros Hrun.
  pose proof Hrun as Hclosed. apply forward_inv in Hclosed.
  pose proof Hrun as Hshape. apply forward_shape in Hshape.
  destruct Hshape as ((_ & Hlen) & _ & Hnn).
  assert (Hmask : RewardCriterion.shifted_mask sq
   = (fun row => length_mask 18 (length (through_first_zero row))) <$> sq).
  { rewrite shifted_mask_rows. apply Forall_fmap_ext_1.
    rewrite Forall_forall in Hclosed, Hlen, Hnn. apply Forall_forall.
    intros row Hrow. change 18%nat with DAE.max_len.
    rewrite <- (Hlen row Hrow). apply shift_row_closed; auto.
    rewrite (Hlen row Hrow). unfold DAE.max_len. lia. }
  split; [exact Hmask|]. split.
  - apply Forall_forall. intros row _. apply array_to_str_spec.
  - rewrite Hmask. unfold Torch.view_flat. clear Hmask Hrun Hclosed Hnn.
    induction Hlen as [|row rest Hrow _ IH]; [reflexivity|].
    rewrite !fmap_cons. cbn [concat]. rewrite sum_app, length_app.
    rewrite Nat2Z.inj_add, inject_Z_plus, IH, sum_length_mask.
    pose proof (through_first_zero_length row). unfold DAE.max_len in Hrow.
    rewrite Nat.min_l by lia. reflexivity.
Qed.

Lemma X8_witness :
  exists sq lps,
    Mock.forward [3; 4; 2] Mock.word_map [[1; 3; 2]; [1; 4; 2]] [3; 3]
      false true 3%nat = Some (sq, lps)
    /\ RewardCriterion.shifted_mask sq
       = (fun row => length_mask 18 (length (through_first_zero row))) <$> sq.
Proof.
  destruct (Mock.forward [3; 4; 2] Mock.word_map [[1; 3; 2]; [1; 4; 2]] [3; 3]
              false true 3%nat) as [[sq lps]|] eqn:E.
  - exists sq, lps. split; [reflexivity|].
    exact (proj1 (X8_mask_covers_scored_ids unit nat nat Mock.caption_encoder
                    Mock.init_hidden_state (Mock.decoder_step [3; 4; 2])
                    Mock.multinomial Mock.word_map [[1; 3; 2]; [1; 4; 2]]
                    [3; 3] false true 3%nat sq lps E)).
  - vm_compute in E. discriminate E.
Defined.

(** *** The loss on zero rewards and on masked positions *)

Section LossFacts.
Import RewardCriterion.
Local Open Scope Q_scope.

Lemma sum_map_zero (f : nat -> Q) (l : list nat) :
  (forall t, In t l -> f t == 0) -> Torch.sum (f <$> l) == 0.
Proof.
  induction l as [|t l IH]; intros H; [reflexivity|].
  rewrite fmap_cons, sum_cons, (H t), IH; [ring| |now left].
  intros t' Ht'. apply H. now right.
Qed.

Lemma sum2_ext B L (f g : nat -> nat -> Q) :
  (forall b t, (b < B)%nat -> (t < L)%nat -> f b t == g b t) ->
  sum2 B L f == sum2 B L g.
Proof.
  intros H. unfold sum2. apply sum_map_ext. intros b Hb. apply in_seq in Hb.
  apply sum_map_ext. intros t Ht. apply in_seq in Ht. apply H; lia.
Qed.

Lemma sum2_zero B L (f : nat -> nat -> Q) :
  (forall b t, (b < B)%nat -> (t < L)%nat -> f b t == 0) -> sum2 B L f == 0.
Proof.
  intros H. unfold sum2. apply sum_map_zero. intros b Hb. apply in_seq in Hb.
  apply sum_map_zero. intros t Ht. apply in_seq in Ht. apply H; lia.
Qed.

Lemma forward_spec B L (lp : list (list Q)) (sq : list (list Z))
    (rw : list (list Q)) :
  (1 <= L)%nat -> shape B L lp -> shape B L sq -> shape B L rw ->
  exists out, forward lp sq rw = Some out /\ out == spec_loss B L lp sq rw.
Proof.
  intros HL Hlp Hsq Hrw. unfold forward, Torch.pointwise.
  pose proof (shifted_mask_shape B L sq HL Hsq) as Hm.
  rewrite decide_True.
  2:{ rewrite length_fmap, (shape_length_flat B L lp), (shape_length_flat B L rw); auto. }
  cbn [mbind option_bind]. rewrite decide_True.
  2:{ rewrite length_zip_with, length_fmap.
      rewrite (shape_length_flat B L lp), (shape_length_flat B L rw),
        (shape_length_flat B L _ Hm); auto. lia. }
  cbn [mbind option_bind]. eexists; split; [reflexivity|].
  unfold spec_loss. rewrite (flat_loss B L), (flat_mask_sum B L); auto.
  reflexivity.
Qed.

Lemma at2_zero (rw : list (list Q)) b t :
  Forall (Forall (fun x => x == 0)) rw -> at2 0 rw b t == 0.
Proof.
  intros H. unfold at2. rewrite (nth_lookup (nth b rw [])), (nth_lookup rw).
  destruct (rw !! b) as [row|] eqn:Hb; [|reflexivity].
  cbn [default from_option id].
  destruct (row !! t) as [x|] eqn:Ht; [|reflexivity].
  cbn [default from_option id].
  rewrite Forall_lookup in H. specialize (H b row Hb).
  rewrite Forall_lookup in H. exact (H t x Ht).
Qed.

Lemma mask_zero_or_one (row : list Z) t :
  (spec_mask row t = 0 /\ exists t', t = S t' /\ (nth t' row 0 <= 0)%Z)
  \/ (spec_mask row t = 1 /\ (t = O \/ exists t', t = S t' /\ (0 < nth t' row 0)%Z)).
Proof.
  destruct t as [|t']; [right; split; [reflexivity|now left]|].
  cbn [spec_mask]. destruct (0 <? nth t' row 0)%Z eqn:E.
  - apply Z.ltb_lt in E. right. split; [reflexivity|]. right. eauto.
  - apply Z.ltb_ge in E. left. split; [reflexivity|]. eauto.
Qed.

End LossFacts.

(** X9: when the sampled batch equals the greedy batch the training step
    has no learning signal: [get_self_critical_reward] returns zero rewards
    and [RewardCriterion.forward] on them returns a loss of 0, whatever the
    log-probabilities, the scorer, the references and the weight. *)
Theorem X9_no_signal_when_sample_is_greedy
    (metric : list string -> list string -> Q) (B L : nat)
    (gen : list (list Z)) (gt : list (list (list Z))) (cider_weight : Q)
    (lp : list (list Q)) :
  (1 <= B)%nat -> (1 <= L)%nat -> shape B L gen -> shape B L lp ->
  (B <= length gt)%nat ->
  exists rewards out,
    get_self_critical_reward metric gen gen gt cider_weight = Some rewards
    /\ RewardCriterion.forward lp gen rewards = Some out
    /\ (out == 0)%Q.
Proof.
  intros HB HL Hgen Hlp Hgt.
  destruct (reward_same_batch metric gen gt cider_weight)
    as (rewards & Hrw & Hlen & Hrows); [destruct Hgen as [-> _]; exact Hgt|].
  assert (Hcols : ncols gen = L).
  { destruct Hgen as [Hn Hr]. destruct gen as [|row gen]; [simpl in Hn; lia|].
    now apply Forall_cons in Hr as [Hr _]. }
  assert (Hshape : shape B L rewards).
  { split; [destruct Hgen as [<- _]; exact Hlen|].
    eapply Forall_impl; [exact Hrows|]. intros row [Hr _]. now rewrite <- Hcols. }
  assert (Hzero : Forall (Forall (fun x => x == 0)%Q) rewards).
  { eapply Forall_impl; [exact Hrows|]. now intros row [_ Hr]. }
  destruct (forward_spec B L lp gen rewards HL Hlp Hgen Hshape) as (out & Hout & Heq).
  exists rewards, out. split; [exact Hrw|]. split; [exact Hout|].
  rewrite Heq. unfold spec_loss.
  rewrite (sum2_zero B L (fun b t => at2 0 lp b t * at2 0 rewards b t
                                     * spec_mask (nth b gen []) t)%Q).
  - unfold Qdiv. ring.
  - intros b t _ _. rewrite (at2_zero rewards b t Hzero). ring.
Qed.

Lemma X9_witness :
  exists rewards out,
    get_self_critical_reward (fun hypo refs => inject_Z (Z.of_nat (length refs)))
      [[3; 4; 0]; [4; 0; 0]] [[3; 4; 0]; [4; 0; 0]] [[[3; 0]]; [[4; 0]; [3; 0]]]
      (1 # 2) = Some rewards
    /\ RewardCriterion.forward [[-1; -2; -3]; [-4; -5; -6]]%Q
         [[3; 4; 0]; [4; 0; 0]] rewards = Some out
    /\ (out == 0)%Q.
Proof.
  apply (X9_no_signal_when_sample_is_greedy _ 2 3);
    [lia|lia|split; [reflexivity|repeat constructor]..|simpl; lia].
Defined.

(** X10: [RewardCriterion.forward] reads the log-probability and the reward
    of a position only where the mask is 1, that is at column 0 and at the
    columns whose previous token is positive: two calls whose inputs agree
    there return the same loss. *)
Theorem X10_loss_ignores_masked_positions (B L : nat)
    (lp lp' : list (list Q)) (sq : list (list Z)) (rw rw' : list (list Q)) :
  (1 <= L)%nat ->
  shape B L lp -> shape B L lp' -> shape B L sq -> shape B L rw -> shape B L rw' ->
  (forall b t, (b < B)%nat -> (t < L)%nat ->
     t = O \/ (exists t', t = S t' /\ 0 < at2 0 sq b t') ->
     (at2 0 lp b t == at2 0 lp' b t)%Q /\ (at2 0 rw b t == at2 0 rw' b t)%Q) ->
  exists out out',
    RewardCriterion.forward lp sq rw = Some out
    /\ RewardCriterion.forward lp' sq rw' = Some out'
    /\ (out == out')%Q.
Proof.
  intros HL Hlp Hlp' Hsq Hrw Hrw' Hagree.
  destruct (forward_spec B L lp sq rw HL Hlp Hsq Hrw) as (out & Hout & Heq).
  destruct (forward_spec B L lp' sq rw' HL Hlp' Hsq Hrw') as (out' & Hout' & Heq').
  exists out, out'. split; [exact Hout|]. split; [exact Hout'|].
  rewrite Heq, Heq'. unfold spec_loss.
  rewrite (sum2_ext B L
             (fun b t => at2 0 lp b t * at2 0 rw b t * spec_mask (nth b sq []) t)%Q
             (fun b t => at2 0 lp' b t * at2 0 rw' b t * spec_mask (nth b sq []) t)%Q);
    [reflexivity|].
  intros b t Hb Ht.
  destruct (mask_zero_or_one (nth b sq []) t) as [[-> _]|[-> Hpos]]; [ring|].
  destruct (Hagree b t Hb Ht Hpos) as [-> ->]. reflexivity.
Qed.

Lemma X10_witness :
  exists out out',
    RewardCriterion.forward [[-1; -2; -3]]%Q [[3; 0; 0]] [[1; 1; 1]]%Q = Some out
    /\ RewardCriterion.forward [[-1; -2; -7]]%Q [[3; 0; 0]] [[1; 1; 9]]%Q = Some out'
    /\ (out == out')%Q.
Proof.
  apply (X10_loss_ignores_masked_positions 1 3);
    [lia|split; [reflexivity|repeat constructor]..|].
  intros b t Hb Ht Hpos.
  destruct b as [|b]; [|lia].
  destruct t as [|[|[|t]]]; [split; reflexivity..| |lia].
  destruct Hpos as [Hpos|(t' & Ht' & Hpos)]; [discriminate|].
  injection Ht' as <-. vm_compute in Hpos. discriminate.
Defined.

(** *** Ids that are not printed *)

Section PrintedFacts.

Lemma for_loop_ext {S} (body1 body2 : nat -> S -> option S) indices s :
  (forall i s, body1 i s = body2 i s) ->
  for_loop indices body1 s = for_loop indices body2 s.
Proof.
  intros H. revert s. induction indices as [|i rest IH]; intros s; [reflexivity|].
  cbn [for_loop]. rewrite H. destruct (body2 i s) as [s'|]; [apply IH|reflexivity].
Qed.

Lemma lookup_printed {A B} (R : A -> A -> Prop) (f : A -> B) (l l' : list A) i :
  Forall2 R l l' -> (forall a b, R a b -> f a = f b) ->
  f <$> l !! i = f <$> l' !! i.
Proof.
  intros H Hf. destruct (proj1 (Forall2_lookup R l l') H i) as [a b Hab|].
  - cbn. f_equal. now apply Hf.
  - reflexivity.
Qed.

Lemma same_ids_same_str (a b : list Z) :
  through_first_zero a = through_first_zero b -> array_to_str a = array_to_str b.
Proof. intros H. now rewrite !array_to_str_spec, H. Qed.

Lemma bind_fmap_option {A B C} (f : A -> B) (g : B -> option C) (m : option A) :
  (x ← m; g (f x)) = (y ← f <$> m; g y).
Proof. now destruct m. Qed.

End PrintedFacts.

(** X11: the ids that follow the first 0 of a row never reach the scorer:
    batches of sampled, greedy and reference captions that agree row by row
    up to and with the first 0 get the same rewards (and raise together). *)
Theorem X11_reward_ignores_ids_after_zero
    (metric : list string -> list string -> Q)
    (gen gen' greedy greedy' : list (list Z)) (gt gt' : list (list (list Z)))
    (cider_weight : Q) :
  Forall2 (fun a b => through_first_zero a = through_first_zero b) gen gen' ->
  Forall2 (fun a b => through_first_zero a = through_first_zero b) greedy greedy' ->
  Forall2 (Forall2 (fun a b => through_first_zero a = through_first_zero b)) gt gt' ->
  ncols gen = ncols gen' ->
  get_self_critical_reward metric gen greedy gt cider_weight
  = get_self_critical_reward metric gen' greedy' gt' cider_weight.
Proof.
  intros Hgen Hgreedy Hgt Hcols.
  pose proof (Forall2_length _ _ _ Hgen) as Hlen.
  assert (Hres : build_res gen greedy = build_res gen' greedy').
  { unfold build_res, for_range. rewrite <- Hlen.
    rewrite (for_loop_ext _ (fun i res => row ← gen' !! i;
                               Some (<[i := [array_to_str row]]> res))).
    2:{ intros i s.
        rewrite (bind_fmap_option array_to_str (fun x => Some (<[i := [x]]> s))).
        rewrite (bind_fmap_option array_to_str (fun x => Some (<[i := [x]]> s)) (gen' !! i)).
        now rewrite (lookup_printed _ array_to_str gen gen' i Hgen same_ids_same_str). }
    destruct (for_loop (seq 0 (length gen)) _ ∅) as [res|]; [|reflexivity].
    cbn [mbind option_bind]. apply for_loop_ext. intros i s.
    rewrite (bind_fmap_option array_to_str
               (fun x => Some (<[(length gen + i)%nat := [x]]> s))).
    rewrite (bind_fmap_option array_to_str
               (fun x => Some (<[(length gen + i)%nat := [x]]> s)) (greedy' !! i)).
    now rewrite (lookup_printed _ array_to_str greedy greedy' i Hgreedy same_ids_same_str). }
  assert (Hgts : build_gts gt = build_gts gt').
  { unfold build_gts, for_range. rewrite <- (Forall2_length _ _ _ Hgt).
    apply for_loop_ext. intros i s.
    rewrite (bind_fmap_option (fmap array_to_str) (fun x => Some (<[i := x]> s))).
    rewrite (bind_fmap_option (fmap array_to_str) (fun x => Some (<[i := x]> s))
               (gt' !! i)).
    rewrite (lookup_printed _ (fmap array_to_str) gt gt' i Hgt); [reflexivity|].
    intros a b Hab. induction Hab as [|x y a b Hxy _ IH]; [reflexivity|].
    rewrite !fmap_cons, IH. f_equal. now apply same_ids_same_str. }
  unfold get_self_critical_reward, scorer_inputs.
  now rewrite Hres, Hgts, <- Hlen, Hcols.
Qed.

Lemma X11_witness :
  get_self_critical_reward (fun hypo refs => inject_Z (Z.of_nat (length refs)))
    [[3; 0; 0]; [4; 0; 0]] [[3; 4; 0]; [4; 0; 0]] [[[3; 0]]; [[4; 0]; [3; 0]]] 1
  = get_self_critical_reward (fun hypo refs => inject_Z (Z.of_nat (length refs)))
      [[3; 0; 7]; [4; 0; 9]] [[3; 4; 0]; [4; 0; 5]] [[[3; 0; 8]]; [[4; 0]; [3; 0]]] 1.
Proof.
  apply X11_reward_ignores_ids_after_zero; [repeat constructor..|reflexivity].
Defined.

(** *** The beam search: size of the beam *)

Section BeamSize.
Variables Enc Row : Type.
Variable init_row : Row.
Variable decoder_row : Enc -> Row -> Z -> Row * (nat -> Q).

Lemma first_select_None (word_map : gmap string Z) enc beam_size start :
  beam_size = O \/ (size word_map < beam_size)%nat ->
  Beam.body Enc Row decoder_row word_map enc
    (Beam.init Row init_row beam_size start) = None.
Proof.
  intros Hk. unfold Beam.body.
  assert (Hsel : Beam.select (Beam.step (Beam.init Row init_row beam_size start))
                   (Beam.k (Beam.init Row init_row beam_size start))
                   (snd <$> Beam.expand_scores Enc Row decoder_row (size word_map)
                              enc (Beam.init Row init_row beam_size start)) = None).
  { cbn [Beam.init Beam.step Beam.k]. unfold Beam.select.
    rewrite decide_True by reflexivity.
    destruct ((snd <$> _) !! O) as [row|] eqn:Hrow; [|reflexivity].
    cbn [mbind option_bind]. unfold Beam.topk.
    rewrite list_lookup_fmap in Hrow.
    destruct (Beam.expand_scores _ _ _ _ _ _ !! O) as [r|] eqn:Hr; [|discriminate].
    injection Hrow as <-. unfold Beam.expand_scores in Hr.
    apply lookup_zip_with_Some in Hr as (hw & top & -> & _ & Htop).
    cbn [snd Beam.init Beam.top_k_scores] in *.
    apply lookup_lt_Some in Htop. rewrite length_replicate in Htop.
    rewrite decide_False; [reflexivity|].
    rewrite length_fmap, length_seq. lia. }
  now rewrite Hsel.
Qed.

End BeamSize.

(** X12: the beam search of [evaluate] raises on its first iteration when
    the beam size is 0 ([scores[0]] of a tensor without rows) or larger than
    the vocabulary ([topk] of more entries than the row has). *)
Theorem X12_beam_size_out_of_range (Enc Row : Type)
    (caption_encoder : list (list Z) -> list Z -> option Enc) (init_row : Row)
    (decoder_row : Enc -> Row -> Z -> Row * (nat -> Q))
    (word_map : gmap string Z) (beam_size fuel : nat)
    (previous_caption : list (list Z)) (prev_caplen : list Z) :
  beam_size = O \/ (size word_map < beam_size)%nat ->
  (1 <= fuel)%nat ->
  Beam.search Enc Row caption_encoder init_row decoder_row fuel word_map
    beam_size previous_caption prev_caplen = Raise.
Proof.
  intros Hk Hfuel. unfold Beam.search.
  destruct (caption_encoder previous_caption prev_caplen) as [enc|]; [|reflexivity].
  destruct (word_map !! "<start>") as [start|]; [|reflexivity].
  destruct fuel as [|fuel]; [lia|]. cbn [while_true].
  now rewrite first_select_None.
Qed.

Lemma X12_witness :
  Beam.search unit nat Mock.caption_encoder O
    (MockBeam.decoder_row MockBeam.never_ends MockBeam.never_ends) 51
    Mock.word_map 6 [[1; 3; 4; 2]] [4] = Raise.
Proof.
  apply X12_beam_size_out_of_range; [right; vm_compute; lia|lia].
Defined.

(** *** The beam search: hypotheses, scores and results *)



Section BodyInversion.
Variables Enc Row : Type.
Variable decoder_row : Enc -> Row -> Z -> Row * (nat -> Q).
Variable word_map : gmap string Z.

Local Abbreviation V := (size word_map).
Local Abbreviation body := (Beam.body Enc Row decoder_row word_map).
Local Abbreviation expand := (Beam.expand_scores Enc Row decoder_row).

(** What one iteration did, read off its result. *)
Lemma body_inv enc (st : Beam.state Row) c :
  body enc st = Some c ->
  exists vals words seqs1 e done_seqs done_scores,
    let next := Beam.next_word_ind V <$> words in
    let inc := filter (fun ind => next !! ind <> Some e) (seq 0 (length next)) in
    let comp := filter (fun ind => ind ∉ inc) (seq 0 (length next)) in
    Beam.select (Beam.step st) (Beam.k st) (snd <$> expand V enc st)
    = Some (vals, words)
    /\ mapM (fun pn : Z * Z =>
               row ← Beam.seqs st !! Z.to_nat pn.1; Some (row ++ [pn.2]))
            (zip (Beam.prev_word_ind V <$> words) next) = Some seqs1
    /\ word_map !! "<end>" = Some e
    /\ Beam.rows_at seqs1 comp = Some done_seqs
    /\ Beam.rows_at vals comp = Some done_scores
    /\ Beam.complete_seqs (ctl_state c) = Beam.complete_seqs st ++ done_seqs
    /\ Beam.complete_seqs_scores (ctl_state c)
       = Beam.complete_seqs_scores st ++ done_scores
    /\ ((c = Break (ctl_state c)
         /\ Beam.k (ctl_state c) = O
         /\ Beam.seqs (ctl_state c) = seqs1
         /\ Beam.top_k_scores (ctl_state c) = vals
         /\ Beam.infinite_pred (ctl_state c) = Beam.infinite_pred st)
        \/ (Beam.k (ctl_state c) <> O
            /\ Beam.rows_at seqs1 inc = Some (Beam.seqs (ctl_state c))
            /\ Beam.rows_at vals inc = Some (Beam.top_k_scores (ctl_state c))
            /\ match c with
               | Next st' => Beam.infinite_pred st' = Beam.infinite_pred st
               | Break st' => Beam.infinite_pred st' = true
               end)).
Proof.
  unfold Beam.body. intros H.
  destruct (Beam.select _ _ _) as [[vals words]|] eqn:Hsel; [|discriminate].
  cbn [mbind option_bind] in H.
  bind_some H. bind_some H. bind_some H. bind_some H.
  exists vals, words, x, x0, x1, x2. cbv zeta.
  split; [reflexivity|]. split; [exact E|]. split; [reflexivity|].
  split; [exact E1|]. split; [exact E2|].
  match type of H with
  | (if decide (?k = O) then _ else _) = _ =>
      destruct (decide (k = O)) as [Hz|Hnz]
  end.
  - injection H as <-. cbn [ctl_state Beam.complete_seqs Beam.complete_seqs_scores
      Beam.k Beam.seqs Beam.top_k_scores Beam.infinite_pred].
    split; [reflexivity|]. split; [reflexivity|]. left. auto.
  - bind_some H. bind_some H. bind_some H. bind_some H. bind_some H.
    destruct (decide (50 < Beam.step st)%nat); injection H as <-;
      cbn [ctl_state Beam.complete_seqs Beam.complete_seqs_scores
           Beam.k Beam.seqs Beam.top_k_scores Beam.infinite_pred];
      (split; [reflexivity|]); (split; [reflexivity|]); right; auto.
Qed.

End BodyInversion.

Section LoopInvariant.
Context {S : Type}.

Lemma while_true_inv (P Q : S -> Prop) (body : S -> option (ctl S)) fuel s s' :
  (forall s c, P s -> body s = Some c ->
     match c with Next s1 => P s1 | Break s1 => Q s1 end) ->
  P s -> while_true fuel body s = Exit s' -> Q s'.
Proof.
  intros Hbody. revert s. induction fuel as [|fuel IH]; intros s HP H.
  - discriminate.
  - cbn [while_true] in H. destruct (body s) as [[s1|s1]|] eqn:Hb; [| |discriminate].
    + apply (IH s1); [|exact H]. apply (Hbody s (Next s1) HP Hb).
    + injection H as <-. apply (Hbody s (Break s1) HP Hb).
Qed.

End LoopInvariant.

Section BeamStructure.
Variables Enc Row : Type.
Variable decoder_row : Enc -> Row -> Z -> Row * (nat -> Q).
Variable word_map : gmap string Z.
Variables s e : Z.
Hypothesis has_end : word_map !! "<end>" = Some e.

Local Abbreviation V := (size word_map).
Local Abbreviation body := (Beam.body Enc Row decoder_row word_map).

Lemma new_seqs_lookup (seqs0 : list (list Z)) (prev next : list Z) x ind row' :
  mapM (fun pn : Z * Z => row ← seqs0 !! Z.to_nat pn.1; Some (row ++ [pn.2]))
       (zip prev next) = Some x ->
  x !! ind = Some row' ->
  exists row n, row ∈ seqs0 /\ next !! ind = Some n /\ row' = row ++ [n].
Proof.
  intros H Hind. apply mapM_Some_1 in H.
  destruct (Forall2_lookup_r _ _ _ _ _ H Hind) as (pn & Hpn & Hrow).
  apply lookup_zip_with_Some in Hpn as (p & n & -> & _ & Hn). cbn [fst snd] in Hrow.
  destruct (seqs0 !! Z.to_nat p) as [row|] eqn:Hp; [|discriminate].
  injection Hrow as <-. exists row, n. split; [|auto].
  apply list_elem_of_lookup. eauto.
Qed.

Lemma live_grows row n : live_seq s e row -> n <> e -> live_seq s e (row ++ [n]).
Proof.
  intros (words & -> & Hw) Hn. exists (words ++ [n]). split; [reflexivity|].
  rewrite elem_of_app, list_elem_of_singleton. intros [?|?]; [auto|congruence].
Qed.

Lemma live_ends row : live_seq s e row -> done_seq s e (row ++ [e]).
Proof. intros (words & -> & Hw). exists words. split; [reflexivity|exact Hw]. Qed.

Lemma body_structure enc (st : Beam.state Row) c :
  Forall (live_seq s e) (Beam.seqs st) ->
  Forall (done_seq s e) (Beam.complete_seqs st) ->
  Beam.infinite_pred st = false ->
  body enc st = Some c ->
  Forall (done_seq s e) (Beam.complete_seqs (ctl_state c))
  /\ match c with
     | Next st' => Forall (live_seq s e) (Beam.seqs st')
                   /\ Beam.infinite_pred st' = false
     | Break st' => Beam.infinite_pred st' = true ->
                    Forall (live_seq s e) (Beam.seqs st')
     end.
Proof.
  intros Hlive Hdone Hinf Hb.
  destruct (body_inv _ _ _ _ _ _ _ Hb)
    as (vals & words & seqs1 & e' & done_seqs & done_scores & _ & Hseqs & He
        & Hds & _ & Hcs & _ & Hcase).
  rewrite has_end in He. injection He as <-.
  rewrite Forall_forall in Hlive.
  assert (Hpicked : forall inds r,
            Beam.rows_at seqs1 inds = Some r ->
            forall y, y ∈ r ->
            exists ind row n, ind ∈ inds /\ row ∈ Beam.seqs st
              /\ (Beam.next_word_ind V <$> words) !! ind = Some n
              /\ y = row ++ [n]).
  { intros inds r Hr y Hy. apply list_elem_of_lookup in Hy as [j Hj].
    destruct (rows_at_lookup _ _ _ _ _ Hr Hj) as (ind & Hind & Hy).
    destruct (new_seqs_lookup _ _ _ _ _ _ Hseqs Hy) as (row & n & Hrow & Hn & ->).
    exists ind, row, n. split; [apply list_elem_of_lookup; eauto|auto]. }
  split.
  - rewrite Hcs. apply Forall_app. split; [exact Hdone|].
    apply Forall_forall. intros y Hy.
    destruct (Hpicked _ _ Hds y Hy) as (ind & row & n & Hind & Hrow & Hn & ->).
    apply list_elem_of_filter in Hind as [Hnot Hind].
    assert (n = e) as ->.
    { destruct (decide (n = e)) as [|Hne]; [assumption|]. exfalso. apply Hnot.
      apply list_elem_of_filter. split; [|exact Hind]. rewrite Hn. congruence. }
    apply live_ends. auto.
  - assert (Hkept : forall r,
              Beam.rows_at seqs1
                (filter (fun ind => (Beam.next_word_ind V <$> words) !! ind <> Some e)
                        (seq 0 (length (Beam.next_word_ind V <$> words)))) = Some r ->
              Forall (live_seq s e) r).
    { intros r Hr. apply Forall_forall. intros y Hy.
      destruct (Hpicked _ _ Hr y Hy) as (ind & row & n & Hind & Hrow & Hn & ->).
      apply list_elem_of_filter in Hind as [Hne _].
      apply live_grows; [auto|]. rewrite Hn in Hne. congruence. }
    destruct Hcase as [(Hc & _ & _ & _ & Hinf')|(_ & Hrows & _ & Hflag)].
    + rewrite Hc. cbn [ctl_state]. rewrite Hinf', Hinf. discriminate.
    + destruct c as [st'|st']; cbn [ctl_state] in *.
      * split; [now apply Hkept|congruence].
      * intros _. now apply Hkept.
Qed.

End BeamStructure.

Section MaxFacts.
Local Open Scope Q_scope.

Lemma max_from_spec best bi i row v j :
  DAE.max_from best bi i row = (v, j) ->
  best <= v /\ Forall (fun x => x <= v) row
  /\ ((j = bi /\ v = best)
      \/ exists n, j = (i + Z.of_nat n)%Z /\ row !! n = Some v /\ best < v
           /\ forall m x, (m < n)%nat -> row !! m = Some x -> x < v).
Proof.
  revert best bi i. induction row as [|x rest IH]; intros best bi i H.
  - injection H as <- <-. split; [apply Qle_refl|]. split; [constructor|now left].
  - cbn [DAE.max_from] in H. destruct (Qle_bool x best) eqn:Hx.
    + apply Qle_bool_iff in Hx.
      destruct (IH _ _ _ H) as (Hb & Hall & Hcase).
      split; [exact Hb|]. split; [constructor; [now apply Qle_trans with best|exact Hall]|].
      destruct Hcase as [Hl|(n & -> & Hn & Hlt & Hfirst)]; [now left|].
      right. exists (S n). split; [lia|]. split; [exact Hn|]. split; [exact Hlt|].
      intros [|m] y Hm Hy.
      * injection Hy as <-. now apply Qle_lt_trans with best.
      * apply (Hfirst m); [lia|exact Hy].
    + assert (Hlt : best < x).
      { apply Qnot_le_lt. intros Hle. apply Qle_bool_iff in Hle. congruence. }
      destruct (IH _ _ _ H) as (Hb & Hall & Hcase).
      split; [apply Qlt_le_weak; now apply Qlt_le_trans with x|].
      split; [constructor; assumption|]. right.
      destruct Hcase as [[-> ->]|(n & -> & Hn & Hxv & Hfirst)].
      * exists O. split; [lia|]. split; [reflexivity|]. split; [exact Hlt|].
        intros m y Hm. lia.
      * exists (S n). split; [lia|]. split; [exact Hn|].
        split; [now apply Qlt_trans with x|].
        intros [|m] y Hm Hy.
        -- now injection Hy as <-.
        -- apply (Hfirst m); [lia|exact Hy].
Qed.

Lemma max_row_spec (l : list Q) v j :
  DAE.max_row l = Some (v, j) ->
  (0 <= j)%Z /\ l !! Z.to_nat j = Some v /\ Forall (fun x => x <= v) l
  /\ forall m x, (m < Z.to_nat j)%nat -> l !! m = Some x -> x < v.
Proof.
  destruct l as [|x rest]; [discriminate|]. cbn [DAE.max_row]. intros [= H].
  destruct (max_from_spec _ _ _ _ _ _ H) as (Hb & Hall & Hcase).
  destruct Hcase as [[-> ->]|(n & -> & Hn & Hlt & Hfirst)].
  - split; [lia|]. split; [reflexivity|]. split; [constructor; assumption|].
    intros m y Hm. cbn in Hm. lia.
  - replace (Z.to_nat (1 + Z.of_nat n)) with (S n) by lia.
    split; [lia|]. split; [exact Hn|]. split; [constructor; assumption|].
    intros [|m] y Hm Hy.
    + now injection Hy as <-.
    + apply (Hfirst m); [lia|exact Hy].
Qed.

End MaxFacts.

Section SearchInversion.
Variables Enc Row : Type.
Variable caption_encoder : list (list Z) -> list Z -> option Enc.
Variable init_row : Row.
Variable decoder_row : Enc -> Row -> Z -> Row * (nat -> Q).
Variable word_map : gmap string Z.

Local Abbreviation V := (size word_map).
Local Abbreviation body := (Beam.body Enc Row decoder_row word_map).
Local Abbreviation search :=
  (Beam.search Enc Row caption_encoder init_row decoder_row).

Lemma search_inv fuel beam_size caps lens st sen :
  search fuel word_map beam_size caps lens = Exit (st, sen) ->
  exists enc start chosen keep,
    caption_encoder caps lens = Some enc
    /\ word_map !! "<start>" = Some start
    /\ while_true fuel (body enc) (Beam.init Row init_row beam_size start) = Exit st
    /\ Beam.chosen_seq Row st = Some chosen
    /\ mapM (fun w => s ← word_map !! "<start>";
                      e ← word_map !! "<end>";
                      p ← word_map !! "<pad>";
                      Some (w, negb ((w =? s) || (w =? e) || (w =? p)))) chosen
       = Some keep
    /\ sen = fst <$> filter (fun wb : Z * bool => snd wb = true) keep.
Proof.
  unfold Beam.search. intros H.
  destruct (caption_encoder caps lens) as [enc|]; [|discriminate].
  destruct (word_map !! "<start>") as [start|] eqn:Hs; [|discriminate].
  destruct (while_true _ _ _) as [st0| |] eqn:Hrun; [|discriminate..].
  destruct (Beam.chosen_seq Row st0) as [chosen|] eqn:Hch; [|discriminate].
  cbn [mbind option_bind] in H.
  destruct (mapM _ chosen) as [keep|] eqn:Hkeep; [|discriminate].
  injection H as <- <-. exists enc, start, chosen, keep.
  repeat split; assumption.
Qed.


End SearchInversion.

Lemma chosen_caption_structure (Enc Row : Type)
    (caption_encoder : list (list Z) -> list Z -> option Enc) (init_row : Row)
    (decoder_row : Enc -> Row -> Z -> Row * (nat -> Q))
    (word_map : gmap string Z) (beam_size fuel : nat)
    (previous_caption : list (list Z)) (prev_caplen : list Z)
    (s e p : Z) (st : Beam.state Row) (sen : list Z) :
  word_map !! "<start>" = Some s ->
  word_map !! "<end>" = Some e ->
  word_map !! "<pad>" = Some p ->
  Beam.search Enc Row caption_encoder init_row decoder_row fuel word_map
    beam_size previous_caption prev_caplen = Exit (st, sen) ->
  exists words,
    (e ∉ words)
    /\ Beam.chosen_seq Row st
       = Some (if Beam.infinite_pred st then s :: words else s :: words ++ [e])
    /\ sen = filter (fun w => negb ((w =? s) || (w =? e) || (w =? p)) = true) words.
Proof.
  intros Hs He Hp Hrun.
  destruct (search_inv _ _ _ _ _ _ _ _ _ _ _ _ Hrun)
    as (enc & start & chosen & keep & _ & Hstart & Hloop & Hch & Hkeep & ->).
  rewrite Hs in Hstart. injection Hstart as <-.
  rewrite (mapM_total _ (fun w => (w, negb ((w =? s) || (w =? e) || (w =? p)))))
    in Hkeep; [|intros w _; now rewrite Hs, He, Hp].
  injection Hkeep as <-. rewrite filter_snd_fst.
  assert (Hfinal : Forall (done_seq s e) (Beam.complete_seqs st)
                   /\ (Beam.infinite_pred st = true ->
                       Forall (live_seq s e) (Beam.seqs st))).
  { apply (while_true_inv
             (fun st => Forall (live_seq s e) (Beam.seqs st)
                        /\ Forall (done_seq s e) (Beam.complete_seqs st)
                        /\ Beam.infinite_pred st = false)
             (fun st => Forall (done_seq s e) (Beam.complete_seqs st)
                        /\ (Beam.infinite_pred st = true ->
                            Forall (live_seq s e) (Beam.seqs st)))
             (Beam.body Enc Row decoder_row word_map enc) fuel
             (Beam.init Row init_row beam_size s) st); [| |exact Hloop].
    - intros st0 c (Hl & Hd & Hi) Hb.
      destruct (body_structure _ _ _ _ _ _ He enc st0 c Hl Hd Hi Hb) as [Hd' Hc].
      destruct c as [s1|s1]; cbn [ctl_state] in Hd'; tauto.
    - cbn [Beam.init Beam.seqs Beam.complete_seqs Beam.infinite_pred].
      split; [|split; [constructor|reflexivity]].
      apply Forall_replicate. exists []. split; [reflexivity|apply not_elem_of_nil]. }
  destruct Hfinal as [Hdone Hlive]. unfold Beam.chosen_seq in Hch |- *.
  assert (Hdrop_s : negb ((s =? s) || (s =? e) || (s =? p)) = false)
    by now rewrite Z.eqb_refl.
  assert (Hdrop_e : negb ((e =? s) || (e =? e) || (e =? p)) = false)
    by now rewrite Z.eqb_refl, orb_true_r.
  destruct (Beam.infinite_pred st) eqn:Hflag.
  - destruct (Beam.seqs st !! O) as [seq0|] eqn:H0; [|discriminate].
    injection Hch as <-. specialize (Hlive eq_refl).
    rewrite Forall_lookup in Hlive. destruct (Hlive O seq0 H0) as (words & -> & Hw).
    exists (take 17 words). split.
    { intros Hin. apply Hw. exact (subseteq_take 17 words e Hin). }
    split; [reflexivity|]. change (take 18 (s :: words)) with (s :: take 17 words).
    rewrite filter_cons, decide_False; [reflexivity|]. rewrite Hdrop_s. discriminate.
  - destruct (DAE.max_row _) as [best|]; [|discriminate]. cbn [mbind option_bind] in Hch.
    rewrite Forall_lookup in Hdone.
    destruct (Hdone _ _ Hch) as (words & -> & Hw).
    exists words. split; [exact Hw|]. split; [exact Hch|].
    rewrite filter_cons, decide_False by (rewrite Hdrop_s; discriminate).
    rewrite filter_app, filter_cons, decide_False by (rewrite Hdrop_e; discriminate).
    now rewrite filter_nil, app_nil_r.
Qed.


(** X13: the ids the beam search chooses for an image start with [<start>];
    when the loop ended on an empty beam they end with [<end>], the only
    [<end>] of the hypothesis; when it ended on the step cap they hold no
    [<end>].  [sen_idx] holds the ids between them other than the three
    special ones. *)
Theorem X13_chosen_caption_structure (Enc Row : Type)
    (caption_encoder : list (list Z) -> list Z -> option Enc) (init_row : Row)
    (decoder_row : Enc -> Row -> Z -> Row * (nat -> Q))
    (word_map : gmap string Z) (beam_size fuel : nat)
    (previous_caption : list (list Z)) (prev_caplen : list Z)
    (s e p : Z) (st : Beam.state Row) (sen : list Z) :
  word_map !! "<start>" = Some s ->
  word_map !! "<end>" = Some e ->
  word_map !! "<pad>" = Some p ->
  Beam.search Enc Row caption_encoder init_row decoder_row fuel word_map
    beam_size previous_caption prev_caplen = Exit (st, sen) ->
  exists words,
    (e ∉ words)
    /\ Beam.chosen_seq Row st
       = Some (if Beam.infinite_pred st then s :: words else s :: words ++ [e])
    /\ sen = filter (fun w => negb ((w =? s) || (w =? e) || (w =? p)) = true) words.
Proof. apply chosen_caption_structure. Qed.

Lemma X13_witness :
  exists st sen words,
    MockBeam.search MockBeam.ends_first MockBeam.never_ends 51 = Exit (st, sen)
    /\ (2 ∉ words)
    /\ Beam.chosen_seq nat st
       = Some (if Beam.infinite_pred st then 1 :: words else 1 :: words ++ [2])
    /\ sen = filter (fun w => negb ((w =? 1) || (w =? 2) || (w =? 0)) = true) words.
Proof.
  destruct (MockBeam.search MockBeam.ends_first MockBeam.never_ends 51)
    as [[st sen]| |] eqn:E; [|vm_compute in E; discriminate E..].
  destruct (X13_chosen_caption_structure unit nat Mock.caption_encoder O
              (MockBeam.decoder_row MockBeam.ends_first MockBeam.never_ends)
              Mock.word_map 3 51 [[1; 3; 4; 2]] [4] 1 2 0 st sen)
    as (words & H); [reflexivity..|exact E|].
  exists st, sen, words. split; [reflexivity|exact H].
Defined.

Section ReplayFacts.
Variables Enc Row : Type.
Variable decoder_row : Enc -> Row -> Z -> Row * (nat -> Q).
Variable word_map : gmap string Z.
Variable enc : Enc.
Variable init_row : Row.
Variable s : Z.

Local Abbreviation body := (Beam.body Enc Row decoder_row word_map).
Local Abbreviation replay_from := (replay Enc Row decoder_row enc).
Local Abbreviation score := (path_score Enc Row decoder_row enc init_row s).

Lemma replay_snoc h prev acc ws n :
  replay_from h prev acc (ws ++ [n])
  = let r := decoder_row enc (replay_from h prev acc ws).1.2
                         (replay_from h prev acc ws).2 in
    (((replay_from h prev acc ws).1.1 + r.2 (Z.to_nat n))%Q, r.1, n).
Proof.
  revert h prev acc. induction ws as [|w ws IH]; intros h prev acc; [reflexivity|].
  cbn [app replay]. apply IH.
Qed.

(** A live hypothesis carries its accumulated log-probability, the state of
    the decoder after its words and its last word; a completed one carries
    its accumulated log-probability. *)
Let traced_live (st : Beam.state Row) : Prop :=
  forall i row h pw top,
    Beam.seqs st !! i = Some row -> Beam.hidden st !! i = Some h ->
    Beam.k_prev_words st !! i = Some pw -> Beam.top_k_scores st !! i = Some top ->
    exists ws, row = s :: ws /\ replay_from init_row s 0%Q ws = (top, h, pw).

Let traced_done (st : Beam.state Row) : Prop :=
  length (Beam.complete_seqs_scores st) = length (Beam.complete_seqs st)
  /\ forall i row v,
       Beam.complete_seqs st !! i = Some row ->
       Beam.complete_seqs_scores st !! i = Some v ->
       exists ws, row = s :: ws /\ score ws = v.

Lemma body_traced (st : Beam.state Row) c :
  traced_live st -> traced_done st -> body enc st = Some c ->
  traced_done (ctl_state c)
  /\ match c with Next st' => traced_live st' | Break _ => True end.
Proof.
  intros Hlive [Hlen Hdone] Hb.
  destruct (body_trace _ _ _ _ _ _ _ Hb)
    as (vals & words & e & done_seqs & done_scores & _ & _ & Hentry & Hrows
        & Hcs & Hcss & Hdl & Hnew).
  assert (Hext : forall j w parent v,
            words !! j = Some w ->
            Beam.seqs st !! Z.to_nat (Beam.prev_word_ind (size word_map) w)
            = Some parent ->
            vals !! j = Some v ->
            exists ws h pw,
              parent = s :: ws
              /\ Beam.hidden st !! Z.to_nat (Beam.prev_word_ind (size word_map) w)
                 = Some h
              /\ Beam.k_prev_words st
                   !! Z.to_nat (Beam.prev_word_ind (size word_map) w) = Some pw
              /\ replay_from init_row s 0%Q
                   (ws ++ [Beam.next_word_ind (size word_map) w])
                 = (v, (decoder_row enc h pw).1,
                    Beam.next_word_ind (size word_map) w)).
  { intros j w parent v Hw Hparent Hv.
    destruct (Hentry j w Hw) as (h & pw & top & parent' & Hh & Hpw & Htop & Hp' & Hv').
    rewrite Hparent in Hp'. injection Hp' as <-.
    rewrite Hv in Hv'. injection Hv' as ->.
    destruct (Hlive _ _ _ _ _ Hparent Hh Hpw Htop) as (ws & -> & Hrep).
    exists ws, h, pw. split; [reflexivity|]. split; [exact Hh|]. split; [exact Hpw|].
    rewrite replay_snoc, Hrep. reflexivity. }
  split.
  - split; [rewrite Hcs, Hcss, !length_app; lia|].
    intros i row v Hrow Hv. rewrite Hcs in Hrow. rewrite Hcss in Hv.
    destruct (decide (i < length (Beam.complete_seqs st))%nat) as [Hi|Hi].
    + rewrite lookup_app_l in Hrow by lia. rewrite lookup_app_l in Hv by lia. eauto.
    + rewrite lookup_app_r in Hrow by lia. rewrite lookup_app_r in Hv by lia.
      rewrite Hlen in Hv.
      destruct (Hnew _ _ Hrow) as (j & w & parent & v' & Hw & Hne & Hparent & -> & Hv' & Hsc).
      rewrite Hv in Hsc. injection Hsc as <-.
      destruct (Hext j w parent v Hw Hparent Hv') as (ws & h & pw & -> & _ & _ & Hrep).
      rewrite Hne in Hrep. exists (ws ++ [e]). split; [reflexivity|].
      unfold path_score. now rewrite Hrep.
  - destruct c as [st'|st']; [|exact I]. cbn [ctl_state] in *.
    intros i row h' pw' top' Hrow Hh' Hpw' Htop'.
    destruct (Hrows i row Hrow)
      as (j & w & parent & v & Hw & Hparent & -> & Hv & Htop & Hnext).
    destruct (Hnext st' eq_refl) as (_ & Hkp & h & pw & Hh & Hpw & Hhid).
    destruct (Hext j w parent v Hw Hparent Hv) as (ws & h2 & pw2 & -> & Hh2 & Hpw2 & Hrep).
    rewrite Hh in Hh2. injection Hh2 as <-. rewrite Hpw in Hpw2. injection Hpw2 as <-.
    rewrite Htop in Htop'. injection Htop' as <-.
    rewrite Hkp in Hpw'. injection Hpw' as <-.
    rewrite Hhid in Hh'. injection Hh' as <-.
    exists (ws ++ [Beam.next_word_ind (size word_map) w]). split; [reflexivity|].
    exact Hrep.
Qed.

Lemma loop_traced fuel beam_size (st : Beam.state Row) :
  while_true fuel (body enc) (Beam.init Row init_row beam_size s) = Exit st ->
  traced_done st.
Proof.
  intros Hloop.
  apply (while_true_inv (fun st => traced_live st /\ traced_done st) traced_done
           (body enc) fuel (Beam.init Row init_row beam_size s) st);
    [| |exact Hloop].
  - intros st0 c [Hl Hd] Hb. destruct (body_traced st0 c Hl Hd Hb) as [Hd' Hc].
    destruct c as [s1|s1]; cbn [ctl_state] in Hd'; tauto.
  - split.
    + intros i row h pw top Hrow Hh Hpw Htop.
      cbn [Beam.init Beam.seqs Beam.hidden Beam.k_prev_words Beam.top_k_scores] in *.
      apply lookup_replicate_1 in Hrow as [-> _], Hh as [-> _],
        Hpw as [-> _], Htop as [-> _].
      exists []. split; reflexivity.
    + split; [reflexivity|]. intros i row v Hrow. discriminate Hrow.
Qed.

Lemma traced_done_spec (st : Beam.state Row) :
  traced_done st ->
  length (Beam.complete_seqs_scores st) = length (Beam.complete_seqs st)
  /\ forall i row v,
       Beam.complete_seqs st !! i = Some row ->
       Beam.complete_seqs_scores st !! i = Some v ->
       exists ws, row = s :: ws /\ score ws = v.
Proof. intros H. exact H. Qed.

End ReplayFacts.

(** X14: when the loop ended on an empty beam, every completed hypothesis
    starts with [<start>] and is stored with its accumulated
    log-probability, the sum of the log-probabilities the decoder gave its
    words one after the other, without any normalisation by length; the
    caption is the completed hypothesis with the largest sum, and among
    equal sums the one that comes first in [complete_seqs]. *)
Theorem X14_best_completed_is_chosen (Enc Row : Type)
    (caption_encoder : list (list Z) -> list Z -> option Enc) (init_row : Row)
    (decoder_row : Enc -> Row -> Z -> Row * (nat -> Q))
    (word_map : gmap string Z) (beam_size fuel : nat)
    (previous_caption : list (list Z)) (prev_caplen : list Z)
    (enc : Enc) (s : Z) (st : Beam.state Row) (sen : list Z) :
  caption_encoder previous_caption prev_caplen = Some enc ->
  word_map !! "<start>" = Some s ->
  Beam.search Enc Row caption_encoder init_row decoder_row fuel word_map
    beam_size previous_caption prev_caplen = Exit (st, sen) ->
  Beam.infinite_pred st = false ->
  exists i ws,
    Beam.chosen_seq Row st = Some (s :: ws)
    /\ Beam.complete_seqs st !! i = Some (s :: ws)
    /\ Beam.complete_seqs_scores st !! i
       = Some (path_score Enc Row decoder_row enc init_row s ws)
    /\ forall i' row, Beam.complete_seqs st !! i' = Some row ->
         exists ws',
           row = s :: ws'
           /\ Beam.complete_seqs_scores st !! i'
              = Some (path_score Enc Row decoder_row enc init_row s ws')
           /\ (path_score Enc Row decoder_row enc init_row s ws'
               <= path_score Enc Row decoder_row enc init_row s ws)%Q
           /\ ((i' < i)%nat ->
               (path_score Enc Row decoder_row enc init_row s ws'
                < path_score Enc Row decoder_row enc init_row s ws)%Q).
Proof.
  intros Henc Hs Hrun Hflag.
  destruct (search_inv _ _ _ _ _ _ _ _ _ _ _ _ Hrun)
    as (enc' & start & chosen & _ & Henc' & Hstart & Hloop & Hch & _).
  rewrite Henc in Henc'. injection Henc' as <-.
  rewrite Hs in Hstart. injection Hstart as <-.
  destruct (traced_done_spec _ _ _ _ _ _ _ (loop_traced _ _ _ _ _ _ _ _ _ _ Hloop))
    as [Hlen Hdone].
  pose proof Hch as Hch'. unfold Beam.chosen_seq in Hch'. rewrite Hflag in Hch'.
  destruct (DAE.max_row _) as [[v j]|] eqn:Hmax; [|discriminate].
  cbn [mbind option_bind snd] in Hch'.
  destruct (max_row_spec _ _ _ Hmax) as (_ & Hv & Hall & Hfirst).
  destruct (Hdone _ _ _ Hch' Hv) as (ws & -> & Hscore).
  exists (Z.to_nat j), ws. split; [exact Hch|]. split; [exact Hch'|].
  split; [rewrite Hscore; exact Hv|].
  intros i' row Hrow.
  destruct (lookup_lt_is_Some_2 (Beam.complete_seqs_scores st) i') as [v' Hv'].
  { rewrite Hlen. now apply lookup_lt_Some in Hrow. }
  destruct (Hdone _ _ _ Hrow Hv') as (ws' & -> & Hscore').
  exists ws'. split; [reflexivity|]. rewrite Hscore, Hscore'.
  split; [exact Hv'|]. split.
  - rewrite Forall_lookup in Hall. exact (Hall _ _ Hv').
  - intros Hlt. exact (Hfirst _ _ Hlt Hv').
Qed.

Lemma X14_witness :
  exists st sen i ws,
    MockBeam.search MockBeam.never_ends [-50; -60; 0; -30; -40]%Q 51
    = Exit (st, sen)
    /\ Beam.chosen_seq nat st = Some (1 :: ws)
    /\ Beam.complete_seqs st !! i = Some (1 :: ws)
    /\ Beam.complete_seqs_scores st !! i
       = Some (path_score unit nat
                 (MockBeam.decoder_row MockBeam.never_ends
                    [-50; -60; 0; -30; -40]%Q) tt O 1 ws).
Proof.
  destruct (MockBeam.search MockBeam.never_ends [-50; -60; 0; -30; -40]%Q 51)
    as [[st sen]| |] eqn:E; [|vm_compute in E; discriminate E..].
  destruct (X14_best_completed_is_chosen unit nat Mock.caption_encoder O
              (MockBeam.decoder_row MockBeam.never_ends [-50; -60; 0; -30; -40]%Q)
              Mock.word_map 3 51 [[1; 3; 4; 2]] [4] tt 1 st sen
              eq_refl eq_refl E)
    as (i & ws & H1 & H2 & H3 & _).
  { vm_compute in E. injection E as <- _. reflexivity. }
  exists st, sen, i, ws. auto.
Defined.



Section EvaluateFacts.
Variables Enc Row : Type.
Variable caption_encoder : list (list Z) -> list Z -> option Enc.
Variable init_row : Row.
Variable decoder_row : Enc -> Row -> Z -> Row * (nat -> Q).

Local Abbreviation search :=
  (Beam.search Enc Row caption_encoder init_row decoder_row).
Local Abbreviation evaluate :=
  (Beam.evaluate Enc Row caption_encoder init_row decoder_row).

Lemma evaluate_inv fuel word_map beam_size loader results :
  evaluate fuel word_map beam_size loader = Exit results ->
  Forall2 (fun (item : Z * list (list Z) * list Z) (r : Z * list Z) =>
             r.1 = item.1.1
             /\ exists st, search fuel word_map beam_size item.1.2 item.2
                           = Exit (st, r.2))
          loader results.
Proof.
  revert results. induction loader as [|[[image_id caps] lens] rest IH];
    intros results H.
  - injection H as <-. constructor.
  - cbn [Beam.evaluate] in H.
    destruct (search fuel word_map beam_size caps lens) as [[st sen]| |] eqn:Hs;
      [|discriminate..].
    destruct (evaluate fuel word_map beam_size rest) as [rs| |]; [|discriminate..].
    injection H as <-. constructor; [|now apply IH].
    split; [reflexivity|]. exists st. exact Hs.
Qed.

End EvaluateFacts.

(** X16: when [evaluate] gets through its loader it has one result per item,
    in the order of the loader, with the image id of the item and the
    [sen_idx] of the search of that item; no result holds the id of
    [<start>], [<end>] or [<pad>]. *)
Theorem X16_evaluate_results (Enc Row : Type)
    (caption_encoder : list (list Z) -> list Z -> option Enc) (init_row : Row)
    (decoder_row : Enc -> Row -> Z -> Row * (nat -> Q))
    (word_map : gmap string Z) (beam_size fuel : nat)
    (loader : list (Z * list (list Z) * list Z)) (s e p : Z)
    (results : list (Z * list Z)) :
  word_map !! "<start>" = Some s ->
  word_map !! "<end>" = Some e ->
  word_map !! "<pad>" = Some p ->
  Beam.evaluate Enc Row caption_encoder init_row decoder_row fuel word_map
    beam_size loader = Exit results ->
  fst <$> results = (fun item : Z * list (list Z) * list Z => item.1.1) <$> loader
  /\ Forall2 (fun (item : Z * list (list Z) * list Z) (r : Z * list Z) =>
               exists st, Beam.search Enc Row caption_encoder init_row decoder_row
                            fuel word_map beam_size item.1.2 item.2
                          = Exit (st, r.2))
             loader results
  /\ Forall (fun r : Z * list Z => (s ∉ r.2) /\ (e ∉ r.2) /\ (p ∉ r.2)) results.
Proof.
  intros Hs He Hp Hrun. apply evaluate_inv in Hrun.
  split; [|split].
  - induction Hrun as [|item r loader results [Hid _] _ IH]; [reflexivity|].
    rewrite !fmap_cons. now rewrite Hid, IH.
  - eapply Forall2_impl; [exact Hrun|]. now intros item r [_ H].
  - eapply Forall2_Forall_r; [exact Hrun|]. apply Forall_true.
    intros item r (_ & st & Hsearch).
    destruct (search_inv _ _ _ _ _ _ _ _ _ _ _ _ Hsearch)
      as (_ & _ & chosen & keep & _ & _ & _ & _ & Hkeep & Hsen).
    rewrite (mapM_total _ (fun w => (w, negb ((w =? s) || (w =? e) || (w =? p)))))
      in Hkeep; [|intros w _; now rewrite Hs, He, Hp].
    injection Hkeep as <-. rewrite filter_snd_fst in Hsen. rewrite Hsen.
    repeat split; intros Hin; apply list_elem_of_filter in Hin as [Hin _];
      rewrite Z.eqb_refl in Hin; rewrite ?orb_true_r in Hin; discriminate.
Qed.

Lemma X16_witness :
  exists results,
    Beam.evaluate unit nat Mock.caption_encoder O
      (MockBeam.decoder_row MockBeam.never_ends MockBeam.ends_first) 51
      Mock.word_map 3 [(7, [[1; 3; 4; 2]], [4]); (9, [[1; 4; 2; 0]], [3])]
    = Exit results
    /\ fst <$> results = [7; 9].
Proof.
  destruct (Beam.evaluate unit nat Mock.caption_encoder O
              (MockBeam.decoder_row MockBeam.never_ends MockBeam.ends_first) 51
              Mock.word_map 3 [(7, [[1; 3; 4; 2]], [4]); (9, [[1; 4; 2; 0]], [3])])
    as [results| |] eqn:E; [|vm_compute in E; discriminate E..].
  exists results. split; [reflexivity|].
  exact (proj1 (X16_evaluate_results unit nat Mock.caption_encoder O
                  (MockBeam.decoder_row MockBeam.never_ends MockBeam.ends_first)
                  Mock.word_map 3 51
                  [(7, [[1; 3; 4; 2]], [4]); (9, [[1; 4; 2; 0]], [3])] 1 2 0
                  results eq_refl eq_refl eq_refl E)).
Defined.

(** *** The learning rate *)

Section RateFacts.

Lemma set_rate_lookup (groups : list (gmap string Q)) (lr : Q) i g :
  groups !! i = Some g ->
  ((fun param_group => <["lr" := lr]> param_group) <$> groups) !! i
  = Some (<["lr" := lr]> g).
Proof. intros H. now rewrite list_lookup_fmap, H. Qed.

Lemma adjust_groups (groups : list (gmap string Q)) (f : Q) groups' :
  mapM (fun param_group : gmap string Q =>
          lr ← param_group !! "lr";
          Some (<["lr" := (lr * f)%Q]> param_group)) groups = Some groups' ->
  length groups' = length groups
  /\ forall i g, groups !! i = Some g ->
       exists v, g !! "lr" = Some v
                 /\ groups' !! i = Some (<["lr" := (v * f)%Q]> g).
Proof.
  intros H. apply mapM_Some_1 in H. split; [symmetry; eapply Forall2_length, H|].
  intros i g Hg. destruct (Forall2_lookup_l _ _ _ _ _ H Hg) as (g' & Hg' & Hv).
  destruct (g !! "lr") as [v|]; [|discriminate]. injection Hv as <-. eauto.
Qed.

Lemma adjust_groups_Some (groups : list (gmap string Q)) (f : Q) :
  Forall (fun g => is_Some (g !! "lr")) groups ->
  is_Some (mapM (fun param_group : gmap string Q =>
                   lr ← param_group !! "lr";
                   Some (<["lr" := (lr * f)%Q]> param_group)) groups).
Proof.
  intros H. destruct (mapM _ groups) as [r|] eqn:E; [eauto|].
  apply mapM_None_1, Exists_exists in E as (g & Hg & Hnone).
  rewrite Forall_forall in H. destruct (H g Hg) as [v Hv].
  rewrite Hv in Hnone. discriminate.
Qed.

End RateFacts.

(** X17: [set_learning_rate] gives every parameter group the rate [lr],
    creating the entry when the group has none, and leaves the other entries
    as they are; it prints [lr].  On an optimizer without parameter groups
    it raises, from the [print] that reads [param_groups[0]]. *)
Theorem X17_set_learning_rate (groups : list (gmap string Q)) (lr : Q) :
  (groups = [] -> set_learning_rate groups lr = None)
  /\ (groups <> [] ->
      exists groups',
        set_learning_rate groups lr = Some (groups', lr)
        /\ length groups' = length groups
        /\ forall i g, groups !! i = Some g ->
             exists g', groups' !! i = Some g'
                        /\ g' !! "lr" = Some lr
                        /\ forall key, key <> "lr" -> g' !! key = g !! key).
Proof.
  split.
  - intros ->. reflexivity.
  - intros Hne. destruct groups as [|g0 groups]; [congruence|].
    unfold set_learning_rate.
    rewrite (set_rate_lookup (g0 :: groups) lr O g0 eq_refl).
    cbn [mbind option_bind]. rewrite lookup_insert_eq. cbn [mbind option_bind].
    eexists. split; [reflexivity|]. split; [now rewrite length_fmap|].
    intros i g Hg. exists (<["lr" := lr]> g).
    split; [now apply set_rate_lookup|].
    split; [apply lookup_insert_eq|]. intros key Hkey.
    now apply lookup_insert_ne.
Qed.

(** X18: [adjust_learning_rate] raises exactly when the optimizer has no
    parameter group or a group has no ['lr'] entry; otherwise it multiplies
    the rate of every group by the factor, leaves the other entries as they
    are, and prints the new rate of the first group. *)
Theorem X18_adjust_learning_rate (groups : list (gmap string Q)) (f : Q) :
  (adjust_learning_rate groups f = None <->
     groups = [] \/ Exists (fun g => g !! "lr" = None) groups)
  /\ (forall groups' printed,
        adjust_learning_rate groups f = Some (groups', printed) ->
        length groups' = length groups
        /\ (forall i g, groups !! i = Some g ->
              exists v g', g !! "lr" = Some v
                /\ groups' !! i = Some g'
                /\ g' !! "lr" = Some (v * f)%Q
                /\ forall key, key <> "lr" -> g' !! key = g !! key)
        /\ exists g0 v, groups !! O = Some g0 /\ g0 !! "lr" = Some v
                        /\ printed = (v * f)%Q).
Proof.
  assert (Hsome : forall groups' printed,
            adjust_learning_rate groups f = Some (groups', printed) ->
            length groups' = length groups
            /\ (forall i g, groups !! i = Some g ->
                  exists v, g !! "lr" = Some v
                            /\ groups' !! i = Some (<["lr" := (v * f)%Q]> g))
            /\ exists g0 v, groups !! O = Some g0 /\ g0 !! "lr" = Some v
                            /\ printed = (v * f)%Q).
  { intros groups' printed H. unfold adjust_learning_rate in H.
    bind_some H. bind_some H. bind_some H. injection H as <- <-.
    destruct (adjust_groups _ _ _ E) as [Hlen Hall]. split; [exact Hlen|].
    split; [exact Hall|].
    destruct (lookup_lt_is_Some_2 groups O) as [g0 Hg0].
    { rewrite <- Hlen. now apply lookup_lt_Some in E0. }
    destruct (Hall O g0 Hg0) as (v & Hv & Hx). exists g0, v.
    split; [exact Hg0|]. split; [exact Hv|].
    rewrite E0 in Hx. injection Hx as ->. rewrite lookup_insert_eq in E1.
    now injection E1. }
  split.
  - split.
    + intros Hnone. destruct groups as [|g0 groups]; [now left|]. right.
      unfold adjust_learning_rate in Hnone.
      destruct (mapM _ (g0 :: groups)) as [groups'|] eqn:E.
      * exfalso. destruct (adjust_groups _ _ _ E) as [Hlen Hall].
        destruct (Hall O g0 eq_refl) as (v & Hv & H0).
        cbn [mbind option_bind] in Hnone. rewrite H0 in Hnone.
        cbn [mbind option_bind] in Hnone. rewrite lookup_insert_eq in Hnone.
        discriminate.
      * apply mapM_None_1 in E. eapply Exists_impl; [exact E|].
        intros g Hg. cbv beta in Hg. destruct (g !! "lr"); [discriminate|reflexivity].
    + intros [->|Hex]; [reflexivity|].
      destruct (adjust_learning_rate groups f) as [[groups' printed]|] eqn:E;
        [|reflexivity].
      destruct (Hsome _ _ eq_refl) as (_ & Hall & _).
      apply Exists_exists in Hex as (g & Hg & Hnone).
      apply list_elem_of_lookup in Hg as [i Hi].
      destruct (Hall i g Hi) as (v & Hv & _). congruence.
  - intros groups' printed H. destruct (Hsome _ _ H) as (Hlen & Hall & Hprint).
    split; [exact Hlen|]. split; [|exact Hprint].
    intros i g Hg. destruct (Hall i g Hg) as (v & Hv & Hg').
    exists v, (<["lr" := (v * f)%Q]> g). split; [exact Hv|]. split; [exact Hg'|].
    split; [apply lookup_insert_eq|]. intros key Hkey. now apply lookup_insert_ne.
Qed.

(** *** Checkpoints *)

Section NameFacts.

Lemma length_app_s (a b : string) :
  String.length (a +:+ b) = (String.length a + String.length b)%nat.
Proof.
  induction a as [|c a IH]; [now rewrite app_nil_l_s|].
  rewrite app_cons_s. cbn [String.length]. now rewrite IH.
Qed.

Lemma app_inj_l (p a b : string) : p +:+ a = p +:+ b -> a = b.
Proof.
  induction p as [|c p IH]; [now rewrite !app_nil_l_s|].
  rewrite !app_cons_s. intros [= H]. auto.
Qed.

Lemma app_inj_r (a b c : string) : a +:+ c = b +:+ c -> a = b.
Proof.
  revert b. induction a as [|x a IH]; intros [|y b] H.
  - reflexivity.
  - apply (f_equal String.length) in H.
    rewrite app_nil_l_s, length_app_s in H. cbn [String.length] in H. lia.
  - apply (f_equal String.length) in H.
    rewrite app_nil_l_s, length_app_s in H. cbn [String.length] in H. lia.
  - rewrite !app_cons_s in H. injection H as <- H. f_equal. auto.
Qed.

Lemma checkpoint_name_inj (e e' : Z) :
  Script.checkpoint_name e = Script.checkpoint_name e' -> e = e'.
Proof.
  unfold Script.checkpoint_name. intros H.
  apply app_inj_r, app_inj_l in H. now apply str_inj.
Qed.

Lemma best_name_inj (e e' : Z) :
  "BEST_" +:+ Script.checkpoint_name e = "BEST_" +:+ Script.checkpoint_name e' ->
  e = e'.
Proof. intros H. now apply app_inj_l, checkpoint_name_inj in H. Qed.

Lemma best_name_ne (e e' : Z) :
  "BEST_" +:+ Script.checkpoint_name e <> Script.checkpoint_name e'.
Proof.
  unfold Script.checkpoint_name. rewrite !app_assoc_s, !app_cons_s. discriminate.
Qed.

Lemma results_name_inj (e e' : Z) :
  Script.results_name e = Script.results_name e' -> e = e'.
Proof.
  unfold Script.results_name. intros H.
  apply app_inj_r, app_inj_l in H. now apply str_inj.
Qed.

Lemma eval_name_inj (e e' : Z) :
  Script.eval_name e = Script.eval_name e' -> e = e'.
Proof.
  unfold Script.eval_name. intros H.
  apply app_inj_r, app_inj_l in H. now apply str_inj.
Qed.

Lemma results_name_ne_eval (e e' : Z) :
  Script.results_name e <> Script.eval_name e'.
Proof.
  unfold Script.results_name, Script.eval_name.
  rewrite !app_assoc_s, !app_cons_s. discriminate.
Qed.

Lemma results_name_ne_checkpoint (e e' : Z) :
  Script.results_name e <> Script.checkpoint_name e'.
Proof.
  unfold Script.results_name, Script.checkpoint_name.
  rewrite !app_assoc_s, !app_cons_s. discriminate.
Qed.

Lemma results_name_ne_best (e e' : Z) :
  Script.results_name e <> "BEST_" +:+ Script.checkpoint_name e'.
Proof.
  unfold Script.results_name, Script.checkpoint_name.
  rewrite !app_assoc_s, !app_cons_s. discriminate.
Qed.

Lemma eval_name_ne_checkpoint (e e' : Z) :
  Script.eval_name e <> Script.checkpoint_name e'.
Proof.
  unfold Script.eval_name, Script.checkpoint_name.
  rewrite !app_assoc_s, !app_cons_s. discriminate.
Qed.

Lemma eval_name_ne_best (e e' : Z) :
  Script.eval_name e <> "BEST_" +:+ Script.checkpoint_name e'.
Proof.
  unfold Script.eval_name, Script.checkpoint_name.
  rewrite !app_assoc_s, !app_cons_s. discriminate.
Qed.

(** The four files an epoch writes; the files of two epochs differ. *)
Lemma epoch_files_disjoint (e e' : Z) (file : string) :
  e <> e' ->
  file = Script.checkpoint_name e
  \/ file = "BEST_" +:+ Script.checkpoint_name e
  \/ file = Script.results_name e \/ file = Script.eval_name e ->
  file <> Script.checkpoint_name e'
  /\ file <> "BEST_" +:+ Script.checkpoint_name e'
  /\ file <> Script.results_name e' /\ file <> Script.eval_name e'.
Proof.
  intros Hne [-> | [-> | [-> | ->]]]; repeat split; intros H.
  - now apply checkpoint_name_inj in H.
  - symmetry in H. now apply best_name_ne in H.
  - symmetry in H. now apply results_name_ne_checkpoint in H.
  - symmetry in H. now apply eval_name_ne_checkpoint in H.
  - now apply best_name_ne in H.
  - now apply best_name_inj in H.
  - symmetry in H. now apply results_name_ne_best in H.
  - symmetry in H. now apply eval_name_ne_best in H.
  - now apply results_name_ne_checkpoint in H.
  - now apply results_name_ne_best in H.
  - now apply results_name_inj in H.
  - now apply results_name_ne_eval in H.
  - now apply eval_name_ne_checkpoint in H.
  - now apply eval_name_ne_best in H.
  - symmetry in H. now apply results_name_ne_eval in H.
  - now apply eval_name_inj in H.
Qed.

End NameFacts.

Section CheckpointFacts.
Variables Model OptState : Type.

Local Abbreviation save_checkpoint := (Script.save_checkpoint Model OptState).
Local Abbreviation load_checkpoint := (Script.load_checkpoint Model OptState).
Local Abbreviation VInt := (Script.VInt Model OptState).
Local Abbreviation VFloat := (Script.VFloat Model OptState).
Local Abbreviation VModel := (Script.VModel Model OptState).
Local Abbreviation VOptimizer := (Script.VOptimizer Model OptState).
Local Abbreviation Saved := (Script.Saved Model OptState).

(** The dictionary [save_checkpoint] writes. *)
Let saved (epoch since : Z) (m : Model) (o : Script.optimizer OptState)
    (cider : Q) : gmap string (Script.value Model OptState) :=
  <["epoch" := VInt epoch]>
    (<["epochs_since_improvement" := VInt since]>
       (<["cider" := VFloat cider]>
          (<["dae_mse" := VModel m]>
             (<["dae_mse_optimizer" := VOptimizer o]> ∅)))).

Lemma save_lookup_name fs epoch since m o cider is_best :
  save_checkpoint fs epoch since m o cider is_best !! Script.checkpoint_name epoch
  = Some (Saved (saved epoch since m o cider)).
Proof.
  unfold Script.save_checkpoint, Script.files in *. cbv zeta. destruct is_best.
  - rewrite lookup_insert_ne by apply best_name_ne. apply lookup_insert_eq.
  - apply lookup_insert_eq.
Qed.

Lemma save_lookup_best fs epoch since m o cider is_best :
  save_checkpoint fs epoch since m o cider is_best
    !! ("BEST_" +:+ Script.checkpoint_name epoch)
  = if is_best then Some (Saved (saved epoch since m o cider))
    else fs !! ("BEST_" +:+ Script.checkpoint_name epoch).
Proof.
  unfold Script.save_checkpoint, Script.files in *. cbv zeta. destruct is_best.
  - apply lookup_insert_eq.
  - apply lookup_insert_ne. intros H. symmetry in H. now apply best_name_ne in H.
Qed.

Lemma save_lookup_other fs epoch since m o cider is_best file :
  file <> Script.checkpoint_name epoch ->
  file <> "BEST_" +:+ Script.checkpoint_name epoch ->
  save_checkpoint fs epoch since m o cider is_best !! file = fs !! file.
Proof.
  intros H1 H2. unfold Script.save_checkpoint, Script.files in *. cbv zeta. destruct is_best.
  - rewrite lookup_insert_ne by congruence. now rewrite lookup_insert_ne by congruence.
  - now rewrite lookup_insert_ne by congruence.
Qed.

Lemma saved_keys epoch since m o cider :
  saved epoch since m o cider !! "epoch" = Some (VInt epoch)
  /\ saved epoch since m o cider !! "epochs_since_improvement" = Some (VInt since)
  /\ saved epoch since m o cider !! "cider" = Some (VFloat cider)
  /\ saved epoch since m o cider !! "dae_mse" = Some (VModel m)
  /\ saved epoch since m o cider !! "dae_mse_optimizer" = Some (VOptimizer o)
  /\ saved epoch since m o cider !! "dae_ar" = None
  /\ saved epoch since m o cider !! "dae_ar_optimizer" = None.
Proof.
  unfold saved. repeat split;
    repeat (first [rewrite lookup_insert_eq; reflexivity
                  |rewrite lookup_insert_ne by discriminate
                  |apply lookup_empty]).
Qed.

Lemma load_saved fs file epoch since m o cider :
  fs !! file = Some (Saved (saved epoch since m o cider)) ->
  load_checkpoint fs file = None.
Proof.
  intros H. unfold Script.load_checkpoint. rewrite H. cbn [mbind option_bind].
  destruct (saved_keys epoch since m o cider)
    as (-> & -> & -> & _ & _ & -> & _). reflexivity.
Qed.

Lemma load_renamed fs file epoch since m o cider m' o' :
  load_checkpoint
    (<[file := Saved (<["dae_ar" := VModel m']>
                        (<["dae_ar_optimizer" := VOptimizer o']>
                           (saved epoch since m o cider)))]> fs) file
  = Some (epoch + 1,
          Script.State Model OptState m' o' since cider
            (<[file := Saved (<["dae_ar" := VModel m']>
                                (<["dae_ar_optimizer" := VOptimizer o']>
                                   (saved epoch since m o cider)))]> fs)).
Proof.
  pose proof (saved_keys epoch since m o cider) as (He & Hs & Hc & _).
  revert He Hs Hc. generalize (saved epoch since m o cider). intros state He Hs Hc.
  unfold Script.load_checkpoint, Script.files in *.
  rewrite lookup_insert_eq. cbn [mbind option_bind].
  rewrite (lookup_insert_ne _ "dae_ar" "epoch"),
    (lookup_insert_ne _ "dae_ar_optimizer" "epoch"), He by discriminate.
  cbn [mbind option_bind].
  rewrite (lookup_insert_ne _ "dae_ar" "epochs_since_improvement"),
    (lookup_insert_ne _ "dae_ar_optimizer" "epochs_since_improvement"), Hs
    by discriminate.
  cbn [mbind option_bind].
  rewrite (lookup_insert_ne _ "dae_ar" "cider"),
    (lookup_insert_ne _ "dae_ar_optimizer" "cider"), Hc by discriminate.
  cbn [mbind option_bind].
  rewrite lookup_insert_eq. cbn [mbind option_bind].
  rewrite (lookup_insert_ne _ "dae_ar" "dae_ar_optimizer") by discriminate.
  rewrite lookup_insert_eq. reflexivity.
Qed.

End CheckpointFacts.

(** X19: the script cannot resume from a checkpoint its own
    [save_checkpoint] wrote.  The file holds the model and the optimizer
    under ['dae_mse'] and ['dae_mse_optimizer'] while the script reads
    ['dae_ar'] and ['dae_ar_optimizer'], so the load raises, for the plain
    file and for its [BEST_] copy; with the two entries stored under the
    names the script reads, the load gives epoch + 1, the stored counter and
    the stored score. *)
Theorem X19_checkpoint_round_trip (Model OptState : Type)
    (fs : Script.files Model OptState) (epoch since : Z) (m : Model)
    (o : Script.optimizer OptState) (cider : Q) (is_best : bool) :
  let fs' := Script.save_checkpoint Model OptState fs epoch since m o cider
               is_best in
  let file := Script.checkpoint_name epoch in
  Script.load_checkpoint Model OptState fs' file = None
  /\ (is_best = true ->
      Script.load_checkpoint Model OptState fs' ("BEST_" +:+ file) = None)
  /\ exists state,
       fs' !! file = Some (Script.Saved Model OptState state)
       /\ state !! "dae_ar" = None
       /\ state !! "dae_mse" = Some (Script.VModel Model OptState m)
       /\ forall m' o',
            Script.load_checkpoint Model OptState
              (<[file := Script.Saved Model OptState
                           (<["dae_ar" := Script.VModel Model OptState m']>
                              (<["dae_ar_optimizer" :=
                                   Script.VOptimizer Model OptState o']> state))]>
                 fs')
              file
            = Some (epoch + 1,
                    Script.State Model OptState m' o' since cider
                      (<[file := Script.Saved Model OptState
                                   (<["dae_ar" := Script.VModel Model OptState m']>
                                      (<["dae_ar_optimizer" :=
                                           Script.VOptimizer Model OptState o']>
                                         state))]> fs')).
Proof.
  intros fs' file. split; [|split].
  - eapply load_saved. apply save_lookup_name.
  - intros ->. eapply load_saved. subst fs' file. now rewrite save_lookup_best.
  - eexists. split; [apply save_lookup_name|].
    split; [apply saved_keys|]. split; [apply saved_keys|].
    intros m' o'. apply load_renamed.
Qed.

(** X20: a save touches two file names at most, [checkpoint_<epoch>.pth.tar]
    and its [BEST_] copy, and the names of different epochs differ; so the
    checkpoints of the other epochs stay as they are, and a save that is not
    the best leaves an older [BEST_] file of its epoch in place. *)
Theorem X20_save_keeps_other_files (Model OptState : Type)
    (fs : Script.files Model OptState) (epoch since : Z) (m : Model)
    (o : Script.optimizer OptState) (cider : Q) (is_best : bool) :
  let fs' := Script.save_checkpoint Model OptState fs epoch since m o cider
               is_best in
  (forall epoch', epoch' <> epoch ->
     fs' !! Script.checkpoint_name epoch' = fs !! Script.checkpoint_name epoch'
     /\ fs' !! ("BEST_" +:+ Script.checkpoint_name epoch')
        = fs !! ("BEST_" +:+ Script.checkpoint_name epoch'))
  /\ (forall file, file <> Script.checkpoint_name epoch ->
        file <> "BEST_" +:+ Script.checkpoint_name epoch ->
        fs' !! file = fs !! file)
  /\ (is_best = false ->
      fs' !! ("BEST_" +:+ Script.checkpoint_name epoch)
      = fs !! ("BEST_" +:+ Script.checkpoint_name epoch))
  /\ is_Some (fs' !! Script.checkpoint_name epoch).
Proof.
  intros fs'. split; [|split; [|split]].
  - intros epoch' Hne. split; apply save_lookup_other.
    + intros H. now apply checkpoint_name_inj in H.
    + intros H. symmetry in H. now apply best_name_ne in H.
    + apply best_name_ne.
    + intros H. now apply best_name_inj in H.
  - intros file H1 H2. now apply save_lookup_other.
  - intros ->. subst fs'. now rewrite save_lookup_best.
  - subst fs'. rewrite save_lookup_name. eauto.
Qed.

(** *** The learning rate of an epoch *)

Section EpochRateFacts.

Lemma set_rate_Some (groups : list (gmap string Q)) (lr : Q) :
  groups <> [] ->
  set_learning_rate groups lr
  = Some ((fun g => <["lr" := lr]> g) <$> groups, lr).
Proof.
  intros Hne. destruct groups as [|g0 groups]; [congruence|].
  unfold set_learning_rate.
  rewrite (set_rate_lookup (g0 :: groups) lr O g0 eq_refl).
  cbn [mbind option_bind]. now rewrite lookup_insert_eq.
Qed.

Lemma adjust_Some (groups : list (gmap string Q)) (f : Q) :
  groups <> [] -> Forall (fun g => is_Some (g !! "lr")) groups ->
  exists groups' printed,
    adjust_learning_rate groups f = Some (groups', printed)
    /\ length groups' = length groups
    /\ forall i g, groups !! i = Some g ->
         exists v, g !! "lr" = Some v
                   /\ groups' !! i = Some (<["lr" := (v * f)%Q]> g).
Proof.
  intros Hne Hall. destruct (adjust_groups_Some groups f Hall) as [groups' E].
  destruct (adjust_groups _ _ _ E) as [Hlen Hlook].
  destruct groups as [|g0 groups]; [congruence|].
  destruct (Hlook O g0 eq_refl) as (v & Hv & H0).
  exists groups', (v * f)%Q. split; [|auto].
  unfold adjust_learning_rate. rewrite E. cbn [mbind option_bind].
  rewrite H0. cbn [mbind option_bind]. now rewrite lookup_insert_eq.
Qed.

End EpochRateFacts.

(** X21: at the first epoch of a run every parameter group gets the rate
    5e-5, whatever rate the loaded optimizer had, and this rate is halved at
    once when the checkpoint came with [epochs_since_improvement > 0]; at a
    later epoch the rates are halved when [epochs_since_improvement > 0] and
    left alone otherwise.  The other entries of the groups and the state of
    the optimizer are not touched. *)
Theorem X21_epoch_learning_rate (OptState : Type) (first epoch since : Z)
    (o : Script.optimizer OptState) :
  Script.param_groups OptState o <> [] ->
  (epoch <> first -> Forall (fun g => is_Some (g !! "lr"))
                            (Script.param_groups OptState o)) ->
  exists o',
    Script.epoch_learning_rate OptState first epoch since o = Some o'
    /\ Script.opt_state OptState o' = Script.opt_state OptState o
    /\ length (Script.param_groups OptState o')
       = length (Script.param_groups OptState o)
    /\ (epoch <> first -> since <= 0 -> o' = o)
    /\ forall i g, Script.param_groups OptState o !! i = Some g ->
         exists g', Script.param_groups OptState o' !! i = Some g'
           /\ (forall key, key <> "lr" -> g' !! key = g !! key)
           /\ (epoch = first ->
               g' !! "lr" = Some (if 0 <? since
                                  then ((5 # 100000) * (1 # 2))%Q
                                  else (5 # 100000)%Q))
           /\ (epoch <> first ->
               exists v, g !! "lr" = Some v
                 /\ g' !! "lr" = Some (if 0 <? since then (v * (1 # 2))%Q else v)).
Proof.
  intros Hne Hlr. unfold Script.epoch_learning_rate.
  destruct o as [groups os]. cbn [Script.param_groups Script.opt_state] in *.
  destruct (epoch =? first) eqn:Hfirst.
  - apply Z.eqb_eq in Hfirst. rewrite (set_rate_Some groups _ Hne).
    cbn [mbind option_bind fst Script.param_groups Script.opt_state].
    destruct (0 <? since) eqn:Hsince.
    + destruct (adjust_Some ((fun g => <["lr" := (5 # 100000)%Q]> g) <$> groups)
                  (1 # 2)) as (groups' & printed & -> & Hlen & Hlook).
      { intros H. apply fmap_nil_inv in H. congruence. }
      { apply Forall_fmap, Forall_forall. intros g _. unfold compose.
        rewrite lookup_insert_eq. eauto. }
      cbn [mbind option_bind fst]. eexists. split; [reflexivity|].
      cbn [Script.param_groups Script.opt_state].
      split; [reflexivity|]. split; [now rewrite Hlen, length_fmap|].
      split; [congruence|]. intros i g Hg.
      destruct (Hlook i (<["lr" := (5 # 100000)%Q]> g)) as (v & Hv & Hg').
      { now apply set_rate_lookup. }
      rewrite lookup_insert_eq in Hv. injection Hv as <-.
      eexists. split; [exact Hg'|]. split; [|split].
      * intros key Hkey. now rewrite !lookup_insert_ne by congruence.
      * intros _. apply lookup_insert_eq.
      * congruence.
    + eexists. split; [reflexivity|]. cbn [Script.param_groups Script.opt_state].
      split; [reflexivity|]. split; [now rewrite length_fmap|].
      split; [congruence|]. intros i g Hg.
      eexists. split; [exact (set_rate_lookup _ _ _ _ Hg)|]. split; [|split].
      * intros key Hkey. now rewrite lookup_insert_ne by congruence.
      * intros _. apply lookup_insert_eq.
      * congruence.
  - apply Z.eqb_neq in Hfirst. specialize (Hlr Hfirst).
    cbn [mbind option_bind Script.param_groups Script.opt_state].
    destruct (0 <? since) eqn:Hsince.
    + destruct (adjust_Some groups (1 # 2) Hne Hlr)
        as (groups' & printed & -> & Hlen & Hlook).
      cbn [mbind option_bind fst]. eexists. split; [reflexivity|].
      cbn [Script.param_groups Script.opt_state].
      split; [reflexivity|]. split; [exact Hlen|].
      split; [intros _ Hle; apply Z.ltb_lt in Hsince; lia|]. intros i g Hg.
      destruct (Hlook i g Hg) as (v & Hv & Hg').
      eexists. split; [exact Hg'|]. split; [|split].
      * intros key Hkey. now rewrite lookup_insert_ne by congruence.
      * congruence.
      * intros _. exists v. split; [exact Hv|]. apply lookup_insert_eq.
    + eexists. split; [reflexivity|]. cbn [Script.param_groups Script.opt_state].
      split; [reflexivity|]. split; [reflexivity|]. split; [reflexivity|].
      intros i g Hg. exists g. split; [exact Hg|]. split; [reflexivity|].
      split; [congruence|]. intros _. rewrite Forall_lookup in Hlr.
      destruct (Hlr i g Hg) as [v Hv]. eauto.
Qed.

Lemma X21_witness :
  exists o',
    Script.epoch_learning_rate unit 7 7 2
      (Script.Optimizer unit [{["lr" := 1%Q]}; {["lr" := 2%Q; "eps" := 3%Q]}] tt)
    = Some o'
    /\ length (Script.param_groups unit o') = 2%nat.
Proof.
  destruct (X21_epoch_learning_rate unit 7 7 2
              (Script.Optimizer unit
                 [{["lr" := 1%Q]}; {["lr" := 2%Q; "eps" := 3%Q]}] tt))
    as (o' & H & _ & Hlen & _); [discriminate|intros H; now destruct H|].
  exists o'. split; [exact H|exact Hlen].
Defined.

(** *** The loop over the epochs *)

Section EpochLoopFacts.
Variables Model OptState : Type.
Variable train :
  Model -> Script.optimizer OptState -> Z -> option (Model * Script.optimizer OptState).
Variable captions : Model -> Z -> option (list (Z * string)).
Variable coco_eval : list (Z * string) -> option (gmap string Q).

Local Abbreviation state := (Script.state Model OptState).
Local Abbreviation best := (Script.best_cider Model OptState).
Local Abbreviation disk := (Script.disk Model OptState).
Local Abbreviation VInt := (Script.VInt Model OptState).
Local Abbreviation VFloat := (Script.VFloat Model OptState).
Local Abbreviation Saved := (Script.Saved Model OptState).
Local Abbreviation ResultsJson := (Script.ResultsJson Model OptState).
Local Abbreviation EvalJson := (Script.EvalJson Model OptState).
Local Abbreviation evaluate :=
  (Script.evaluate Model OptState captions coco_eval).
Local Abbreviation epoch_body :=
  (Script.epoch_body Model OptState train captions coco_eval).
Local Abbreviation for_epochs := (Script.for_epochs Model OptState).

(** The file of an epoch: its number and its score. *)
Let file_of (epoch : Z) (c : Q) (ck : gmap string (Script.value Model OptState))
  : Prop :=
  ck !! "epoch" = Some (VInt epoch) /\ ck !! "cider" = Some (VFloat c).

(** The two JSON files of an epoch: the results, and the scores with the
    CIDEr score [c]. *)
Let json_of (epoch : Z) (c : Q) (fs : Script.files Model OptState) : Prop :=
  exists results ev,
    fs !! Script.results_name epoch = Some (ResultsJson results)
    /\ fs !! Script.eval_name epoch = Some (EvalJson ev)
    /\ ev !! "CIDEr" = Some c.

(** A name that is none of the four files of an epoch. *)
Let other (epoch : Z) (file : string) : Prop :=
  file <> Script.checkpoint_name epoch
  /\ file <> "BEST_" +:+ Script.checkpoint_name epoch
  /\ file <> Script.results_name epoch /\ file <> Script.eval_name epoch.

Lemma script_evaluate_inv fs m epoch fs1 c b :
  evaluate fs m epoch = Some (fs1, (c, b)) ->
  exists results ev,
    captions m epoch = Some results /\ coco_eval results = Some ev
    /\ ev !! "CIDEr" = Some c /\ ev !! "Bleu_4" = Some b
    /\ fs1 = <[Script.eval_name epoch := EvalJson ev]>
               (<[Script.results_name epoch := ResultsJson results]> fs).
Proof.
  unfold Script.evaluate. intros H. bind_some H. bind_some H. bind_some H.
  bind_some H. injection H as <- <- <-. eauto 10.
Qed.

Lemma epoch_body_inv first epoch (st st1 : state) :
  epoch_body first epoch st = Some st1 ->
  exists c ck,
    (best st <= best st1)%Q /\ (c <= best st1)%Q
    /\ file_of epoch c ck
    /\ disk st1 !! Script.checkpoint_name epoch = Some (Saved ck)
    /\ json_of epoch c (disk st1)
    /\ ((best st1 == best st)%Q
        \/ (best st1 = c
            /\ disk st1 !! ("BEST_" +:+ Script.checkpoint_name epoch)
               = Some (Saved ck)))
    /\ forall file, other epoch file -> disk st1 !! file = disk st !! file.
Proof.
  unfold Script.epoch_body. intros H. bind_some H.
  destruct (train _ _ _) as [[m o]|]; [|discriminate]. cbn [mbind option_bind] in H.
  destruct (evaluate _ _ _) as [[fs1 [c bleu]]|] eqn:Hev; [|discriminate].
  cbn [mbind option_bind] in H. injection H as <-.
  cbn [Script.best_cider Script.disk].
  destruct (script_evaluate_inv _ _ _ _ _ _ Hev)
    as (results & ev & _ & _ & Hc & _ & ->).
  eexists c, _. split; [|split; [|split; [|split; [|split; [|split]]]]].
  - destruct (Qle_bool (best st) c) eqn:Hle; cbn [negb].
    + now apply Qle_bool_iff.
    + apply Qle_refl.
  - destruct (Qle_bool (best st) c) eqn:Hle; cbn [negb].
    + apply Qle_refl.
    + apply Qlt_le_weak, Qnot_le_lt. intros Hc'. apply Qle_bool_iff in Hc'. congruence.
  - split; [apply (saved_keys Model OptState)|].
    apply (saved_keys Model OptState).
  - apply save_lookup_name.
  - exists results, ev.
    rewrite !save_lookup_other
      by first [apply results_name_ne_checkpoint | apply results_name_ne_best
               |apply eval_name_ne_checkpoint | apply eval_name_ne_best].
    clear Hev. generalize (disk st). intros fs. unfold Script.files in *.
    split; [|split; [now rewrite lookup_insert_eq|exact Hc]].
    rewrite lookup_insert_ne; [now rewrite lookup_insert_eq|].
    intros Heq. symmetry in Heq. now apply results_name_ne_eval in Heq.
  - destruct (Qle_bool (best st) c) eqn:Hle; cbn [negb]; [|left; reflexivity].
    destruct (Qle_bool c (best st)) eqn:Hge; cbn [negb].
    + left. apply Qle_bool_iff in Hle, Hge. now apply Qle_antisym.
    + right. split; [reflexivity|]. now rewrite save_lookup_best.
  - intros file (H1 & H2 & H3 & H4). rewrite save_lookup_other by assumption.
    clear Hev. generalize (disk st). intros fs. unfold Script.files in *.
    rewrite lookup_insert_ne by congruence. now rewrite lookup_insert_ne by congruence.
Qed.

Lemma for_epochs_spec first (l : list Z) (st st' : state) :
  NoDup l -> for_epochs l (epoch_body first) st = Some st' ->
  (best st <= best st')%Q
  /\ (forall e, e ∈ l ->
        exists c ck, disk st' !! Script.checkpoint_name e = Some (Saved ck)
                     /\ file_of e c ck /\ (c <= best st')%Q
                     /\ json_of e c (disk st'))
  /\ ((best st' == best st)%Q
      \/ exists e c ck, e ∈ l
           /\ disk st' !! ("BEST_" +:+ Script.checkpoint_name e) = Some (Saved ck)
           /\ file_of e c ck /\ (c == best st')%Q)
  /\ forall file, (forall e, e ∈ l -> other e file) ->
       disk st' !! file = disk st !! file.
Proof.
  intros Hnd. revert st. induction Hnd as [|e l He _ IH]; intros st H.
  - injection H as <-. split; [apply Qle_refl|]. split.
    { intros e He. now apply elem_of_nil in He. }
    split; [left; reflexivity|]. reflexivity.
  - cbn [Script.for_epochs] in H. bind_some H.
    destruct (epoch_body_inv _ _ _ _ E)
      as (c & ck & Hb1 & Hc1 & Hck & Hfile & Hjson & Hbest1 & Hother1).
    destruct (IH _ H) as (Hb & Hfiles & Hbest & Hother).
    assert (Hkeep : forall file,
              file = Script.checkpoint_name e
              \/ file = "BEST_" +:+ Script.checkpoint_name e
              \/ file = Script.results_name e \/ file = Script.eval_name e ->
              disk st' !! file = disk x !! file).
    { intros file Hf. apply Hother. intros e' He'.
      apply (epoch_files_disjoint e e' file); [|exact Hf].
      intros ->. contradiction. }
    split; [now apply Qle_trans with (best x)|]. split; [|split].
    + intros e' He'. apply elem_of_cons in He' as [-> | He']; [|now apply Hfiles].
      exists c, ck. split; [rewrite Hkeep by (now left); exact Hfile|].
      split; [exact Hck|]. split; [now apply Qle_trans with (best x)|].
      destruct Hjson as (results & ev & Hr & Hev & Hc).
      exists results, ev. rewrite !Hkeep by auto. auto.
    + destruct Hbest as [Heq|(e' & c' & ck' & He' & Hf' & Hck' & Hc')].
      * destruct Hbest1 as [Heq1|[Heq1 Hbestfile]].
        -- left. now rewrite Heq.
        -- right. exists e, c, ck. split; [left|].
           split; [rewrite Hkeep by auto; exact Hbestfile|].
           split; [exact Hck|]. rewrite Heq, Heq1. reflexivity.
      * right. exists e', c', ck'. split; [now right|]. auto.
    + intros file Hfile'. rewrite Hother, Hother1; [reflexivity|..].
      * apply (Hfile' e). left.
      * intros e' He'. apply Hfile'. now right.
Qed.

Lemma for_epochs_spec_plain first (l : list Z) (st st' : state) :
  NoDup l -> for_epochs l (epoch_body first) st = Some st' ->
  (best st <= best st')%Q
  /\ (forall e, e ∈ l ->
        exists c ck results ev,
          disk st' !! Script.checkpoint_name e = Some (Saved ck)
          /\ ck !! "epoch" = Some (VInt e) /\ ck !! "cider" = Some (VFloat c)
          /\ (c <= best st')%Q
          /\ disk st' !! Script.results_name e = Some (ResultsJson results)
          /\ disk st' !! Script.eval_name e = Some (EvalJson ev)
          /\ ev !! "CIDEr" = Some c)
  /\ ((best st' == best st)%Q
      \/ exists e c ck, e ∈ l
           /\ disk st' !! ("BEST_" +:+ Script.checkpoint_name e) = Some (Saved ck)
           /\ ck !! "epoch" = Some (VInt e) /\ ck !! "cider" = Some (VFloat c)
           /\ (c == best st')%Q)
  /\ forall file,
       (forall e, e ∈ l ->
          file <> Script.checkpoint_name e
          /\ file <> "BEST_" +:+ Script.checkpoint_name e
          /\ file <> Script.results_name e /\ file <> Script.eval_name e) ->
       disk st' !! file = disk st !! file.
Proof.
  intros Hnd H.
  destruct (for_epochs_spec first l st st' Hnd H) as (Hb & Hfiles & Hbest & Hother).
  split; [exact Hb|]. split; [|split].
  - intros e He.
    destruct (Hfiles e He) as (c & ck & Hf & [Hk1 Hk2] & Hc & results & ev & Hj).
    exists c, ck, results, ev. tauto.
  - destruct Hbest as [Heq|(e & c & ck & He & Hf & [Hk1 Hk2] & Hc)]; [now left|].
    right. eauto 10.
  - exact Hother.
Qed.

End EpochLoopFacts.

(** X22: when the loop over the epochs [start_epoch .. 49] gets to its end,
    [best_cider] is not below its value before the loop; every epoch of the
    range has its checkpoint file, with its number and its score, its
    results file and its scores file, whose CIDEr entry is the score of the
    checkpoint, and no score is above [best_cider]; either [best_cider] is
    worth what it was before the loop, or the [BEST_] file of one of the
    epochs holds a score worth [best_cider]; a file that is none of the four
    files of an epoch of the range, the checkpoint, its [BEST_] copy, the
    results and the scores, is as before the loop. *)
Theorem X22_epoch_loop (Model OptState : Type)
    (train : Model -> Script.optimizer OptState -> Z ->
             option (Model * Script.optimizer OptState))
    (captions : Model -> Z -> option (list (Z * string)))
    (coco_eval : list (Z * string) -> option (gmap string Q)) (first : Z)
    (st st' : Script.state Model OptState) :
  Script.for_epochs Model OptState (Script.epoch_range first)
    (Script.epoch_body Model OptState train captions coco_eval first) st
  = Some st' ->
  (Script.best_cider Model OptState st <= Script.best_cider Model OptState st')%Q
  /\ (forall e, first <= e < 50 ->
        exists c ck results ev,
          Script.disk Model OptState st' !! Script.checkpoint_name e
          = Some (Script.Saved Model OptState ck)
          /\ ck !! "epoch" = Some (Script.VInt Model OptState e)
          /\ ck !! "cider" = Some (Script.VFloat Model OptState c)
          /\ (c <= Script.best_cider Model OptState st')%Q
          /\ Script.disk Model OptState st' !! Script.results_name e
             = Some (Script.ResultsJson Model OptState results)
          /\ Script.disk Model OptState st' !! Script.eval_name e
             = Some (Script.EvalJson Model OptState ev)
          /\ ev !! "CIDEr" = Some c)
  /\ ((Script.best_cider Model OptState st' == Script.best_cider Model OptState st)%Q
      \/ exists e c ck,
           first <= e < 50
           /\ Script.disk Model OptState st'
                !! ("BEST_" +:+ Script.checkpoint_name e)
              = Some (Script.Saved Model OptState ck)
           /\ ck !! "epoch" = Some (Script.VInt Model OptState e)
           /\ ck !! "cider" = Some (Script.VFloat Model OptState c)
           /\ (c == Script.best_cider Model OptState st')%Q)
  /\ forall file,
       (forall e, first <= e < 50 ->
          file <> Script.checkpoint_name e
          /\ file <> "BEST_" +:+ Script.checkpoint_name e
          /\ file <> Script.results_name e
          /\ file <> Script.eval_name e) ->
       Script.disk Model OptState st' !! file
       = Script.disk Model OptState st !! file.
Proof.
  intros H.
  assert (Hrange : forall e, e ∈ Script.epoch_range first <-> first <= e < 50).
  { intros e. unfold Script.epoch_range, Script.epochs. rewrite elem_of_seqZ. lia. }
  destruct (for_epochs_spec_plain _ _ _ _ _ _ _ _ _ (NoDup_seqZ _ _) H)
    as (Hb & Hfiles & Hbest & Hother).
  split; [exact Hb|]. split; [|split].
  - intros e He. apply Hrange in He. exact (Hfiles e He).
  - destruct Hbest as [Heq|(e & c & ck & He & Hf)]; [now left|].
    right. apply Hrange in He. eauto 10.
  - intros file Hfile. apply Hother. intros e He. apply Hfile, Hrange, He.
Qed.

Lemma X22_witness :
  exists st',
    Script.for_epochs unit unit (Script.epoch_range 48)
      (Script.epoch_body unit unit (fun m o e => Some (m, o))
         (fun m e => Some [(e, "a man")])
         (fun results =>
            Some {["CIDEr" := inject_Z (Z.of_nat (length results));
                   "Bleu_4" := 0%Q]}) 48)
      (Script.State unit unit tt (Script.Optimizer unit [{["lr" := 1%Q]}] tt)
         0 0%Q ∅)
    = Some st'
    /\ (0 <= Script.best_cider unit unit st')%Q.
Proof.
  destruct (Script.for_epochs unit unit (Script.epoch_range 48)
      (Script.epoch_body unit unit (fun m o e => Some (m, o))
         (fun m e => Some [(e, "a man")])
         (fun results =>
            Some {["CIDEr" := inject_Z (Z.of_nat (length results));
                   "Bleu_4" := 0%Q]}) 48)
      (Script.State unit unit tt (Script.Optimizer unit [{["lr" := 1%Q]}] tt)
         0 0%Q ∅)) as [st'|] eqn:E; [|vm_compute in E; discriminate E].
  exists st'. split; [reflexivity|].
  exact (proj1 (X22_epoch_loop unit unit _ _ _ 48 _ st' E)).
Defined.

(** *** Items of the training set *)

Section DatasetFacts.
Import COCOTrainDataset.

Lemma LongTensor2_Some rows t :
  LongTensor2 rows = Some t ->
  t = rows /\ forall r r', r ∈ rows -> r' ∈ rows -> length r = length r'.
Proof.
  unfold LongTensor2. destruct rows as [|row rest].
  - intros [= <-]. split; [reflexivity|]. intros r r' Hr. now apply elem_of_nil in Hr.
  - destruct (forallb _ rest) eqn:E; [|discriminate]. intros [= <-].
    split; [reflexivity|].
    assert (Hall : forall r, r ∈ row :: rest -> length r = length row).
    { intros r Hr. apply elem_of_cons in Hr as [-> | Hr]; [reflexivity|].
      rewrite forallb_forall in E. apply Nat.eqb_eq, E.
      now apply list_elem_of_In. }
    intros r r' Hr Hr'. now rewrite (Hall r Hr), (Hall r' Hr').
Qed.

Lemma getitem_inv (self : t) i caption caplen previous_caption prev_caplen all :
  getitem self i = Some (caption, caplen, previous_caption, prev_caplen, all) ->
  exists img_name n entry,
    names self !! (i / cpi)%nat = Some img_name
    /\ captions self !! i = Some caption
    /\ caplens self !! i = Some n /\ caplen = [n]
    /\ caption_util self !! img_name = Some entry
    /\ previous_caption = encoded_previous_caption entry
    /\ prev_caplen = previous_caption_length entry
    /\ LongTensor2 (take cpi (drop ((i / cpi) * cpi) (captions self))) = Some all.
Proof.
  unfold getitem. intros H. bind_some H. bind_some H. bind_some H. bind_some H.
  bind_some H. injection H as <- <- <- <- <-.
  exists x, x1, x2. repeat split; assumption.
Qed.

End DatasetFacts.

(** X23: an item of the training set carries, with its caption, the captions
    of its image: [all_captions] is the block of at most 5 consecutive
    captions that starts at [5 * (i // 5)], its rows have the length of the
    caption, and the caption of the item is its row [i % 5]. *)
Theorem X23_item_caption_among_references (self : COCOTrainDataset.t) (i : nat)
    (caption caplen previous_caption prev_caplen : list Z)
    (all_captions : list (list Z)) :
  COCOTrainDataset.getitem self i
  = Some (caption, caplen, previous_caption, prev_caplen, all_captions) ->
  COCOTrainDataset.captions self !! i = Some caption
  /\ all_captions !! (i mod 5)%nat = Some caption
  /\ (1 <= length all_captions <= 5)%nat
  /\ (forall j c, all_captions !! j = Some c ->
        COCOTrainDataset.captions self !! (5 * (i / 5) + j)%nat = Some c
        /\ length c = length caption)
  /\ exists n, COCOTrainDataset.caplens self !! i = Some n /\ caplen = [n].
Proof.
  intros H.
  destruct (getitem_inv _ _ _ _ _ _ _ H)
    as (img_name & n & entry & _ & Hcap & Hn & -> & _ & _ & _ & Hall).
  apply LongTensor2_Some in Hall as [-> Hrect].
  unfold COCOTrainDataset.cpi in *.
  assert (Hi : (i / 5 * 5 + i mod 5 = i)%nat).
  { pose proof (Nat.div_mod_eq i 5). lia. }
  assert (Hown : take 5 (drop (i / 5 * 5) (COCOTrainDataset.captions self))
                   !! (i mod 5)%nat = Some caption).
  { rewrite lookup_take_lt by (apply Nat.mod_upper_bound; lia).
    now rewrite lookup_drop, Hi. }
  split; [exact Hcap|]. split; [exact Hown|]. split; [|split].
  - split; [apply lookup_lt_Some in Hown; lia|].
    rewrite length_take. lia.
  - intros j c Hj. split.
    + pose proof (lookup_lt_Some _ _ _ Hj) as Hlt. rewrite length_take in Hlt.
      rewrite lookup_take_lt, lookup_drop in Hj by lia.
      now replace (5 * (i / 5) + j)%nat with (i / 5 * 5 + j)%nat by lia.
    + apply Hrect; apply list_elem_of_lookup; eauto.
  - eauto.
Qed.

Lemma X23_witness :
  COCOTrainDataset.captions
    (COCOTrainDataset.Dataset
       [[1; 3; 2]; [1; 4; 2]; [1; 3; 2]; [1; 4; 2]; [1; 3; 2]; [1; 4; 2]; [1; 4; 2]]
       [3; 3; 3; 3; 3; 3; 3] ["a.jpg"; "b.jpg"]
       {["a.jpg" := CaptionUtil [1; 4; 2] [3];
         "b.jpg" := CaptionUtil [1; 3; 2] [3]]}) !! 6%nat = Some [1; 4; 2].
Proof.
  refine (proj1 (X23_item_caption_among_references _ 6 _ [3] [1; 3; 2] [3]
                   [[1; 4; 2]; [1; 4; 2]] _)).
  vm_compute. reflexivity.
Defined.

(** X24: two items of the training set that belong to one image, that is
    with the same [i // 5], carry the same previous caption, the same
    previous length and the same [all_captions]. *)
Theorem X24_items_of_one_image (self : COCOTrainDataset.t) (i j : nat)
    (c1 l1 p1 n1 c2 l2 p2 n2 : list Z) (a1 a2 : list (list Z)) :
  (i / 5 = j / 5)%nat ->
  COCOTrainDataset.getitem self i = Some (c1, l1, p1, n1, a1) ->
  COCOTrainDataset.getitem self j = Some (c2, l2, p2, n2, a2) ->
  p1 = p2 /\ n1 = n2 /\ a1 = a2.
Proof.
  intros Hij H1 H2.
  destruct (getitem_inv _ _ _ _ _ _ _ H1)
    as (name1 & _ & e1 & Hname1 & _ & _ & _ & He1 & -> & -> & Ha1).
  destruct (getitem_inv _ _ _ _ _ _ _ H2)
    as (name2 & _ & e2 & Hname2 & _ & _ & _ & He2 & -> & -> & Ha2).
  unfold COCOTrainDataset.cpi in *. rewrite Hij in Hname1, Ha1.
  rewrite Hname1 in Hname2. injection Hname2 as <-.
  rewrite He1 in He2. injection He2 as <-.
  rewrite Ha1 in Ha2. injection Ha2 as <-. auto.
Qed.

Lemma X24_witness :
  [1; 4; 2] = [1; 4; 2] /\ [3] = [3]
  /\ [[1; 3; 2]; [1; 4; 2]; [1; 3; 2]; [1; 4; 2]; [1; 3; 2]]
     = [[1; 3; 2]; [1; 4; 2]; [1; 3; 2]; [1; 4; 2]; [1; 3; 2]].
Proof.
  eapply (X24_items_of_one_image
            (COCOTrainDataset.Dataset
               [[1; 3; 2]; [1; 4; 2]; [1; 3; 2]; [1; 4; 2]; [1; 3; 2]; [1; 4; 2]]
               [3; 3; 3; 3; 3; 3] ["a.jpg"; "b.jpg"]
               {["a.jpg" := CaptionUtil [1; 4; 2] [3];
                 "b.jpg" := CaptionUtil [1; 3; 2] [3]]}) 1 3);
    [reflexivity|vm_compute; reflexivity..].
Defined.

(** *** One batch of [train] *)

(** X25: the steps of one batch of [train] fit together: when the greedy
    and the sampling pass return and [word_map] has its three special keys,
    with one set of reference captions per sample of a batch that is not
    empty, neither the reward nor the loss raises; the rewards are a
    batch_size x 18 tensor whose rows are constant, and the loss is the
    masked mean of [- logprob * reward]. *)
Theorem X25_train_batch (metric : list string -> list string -> Q)
    (Enc Hidden Gen : Type)
    (caption_encoder : list (list Z) -> list Z -> option Enc)
    (init_hidden_state : nat -> Hidden)
    (decoder_eval decoder_train :
       Enc -> Hidden -> Gen -> list Z -> Hidden * Gen * list (list Q))
    (multinomial : Gen -> list Q -> Gen * Z)
    (word_map : gmap string Z) (s p e : Z)
    (previous_caption : list (list Z)) (prev_caplen : list Z)
    (allcaps : list (list (list Z))) (g : Gen)
    (greedy_res seq_gen : list (list Z)) (lp0 seqLogprobs : list (list Q)) :
  word_map !! "<start>" = Some s ->
  word_map !! "<pad>" = Some p ->
  word_map !! "<end>" = Some e ->
  (1 <= length previous_caption)%nat ->
  length allcaps = length previous_caption ->
  DAE.forward Enc Hidden Gen caption_encoder init_hidden_state decoder_eval
    multinomial word_map previous_caption prev_caplen true false g
  = Some (greedy_res, lp0) ->
  DAE.forward Enc Hidden Gen caption_encoder init_hidden_state decoder_train
    multinomial word_map previous_caption prev_caplen false true g
  = Some (seq_gen, seqLogprobs) ->
  exists loss rewards,
    Train.batch metric Enc Hidden Gen caption_encoder init_hidden_state
      decoder_eval decoder_train multinomial word_map previous_caption
      prev_caplen allcaps g = Some (loss, rewards)
    /\ shape (length previous_caption) 18 rewards
    /\ Forall (fun row => exists r, row = replicate 18 r) rewards
    /\ (loss == spec_loss (length previous_caption) 18 seqLogprobs seq_gen
                  rewards)%Q.
Proof.
  intros Hs Hp He HB Hcaps Hgreedy Hsample. unfold Train.batch.
  rewrite Hgreedy, Hsample. cbn [mbind option_bind].
  rewrite (preprocess_gd_spec word_map s p e Hs Hp He). cbn [mbind option_bind].
  apply forward_shape in Hgreedy as ((Hgl & _) & _ & _).
  apply forward_shape in Hsample as (Hgen & Hlps & _).
  pose proof Hgen as [Hlen Hrows].
  assert (Hcols : ncols seq_gen = 18%nat).
  { destruct seq_gen as [|row rest]; [simpl in Hlen; lia|].
    now apply Forall_cons in Hrows as [Hr _]. }
  rewrite (reward_rows_weight metric seq_gen greedy_res _ 1)
    by (rewrite ?length_fmap; lia).
  cbn [mbind option_bind]. rewrite Hcols.
  match goal with
  | |- context [RewardCriterion.forward _ _ ?rw] => set (rewards := rw)
  end.
  assert (Hshape : shape (length previous_caption) 18 rewards).
  { subst rewards. split; [now rewrite length_fmap, length_seq|].
    apply Forall_fmap, Forall_forall. intros i _. apply length_replicate. }
  destruct (forward_spec (length previous_caption) 18 seqLogprobs seq_gen rewards)
    as (loss & -> & Hloss); [lia|assumption..|].
  cbn [mbind option_bind]. exists loss, rewards. split; [reflexivity|].
  split; [exact Hshape|]. split; [|exact Hloss].
  subst rewards. apply Forall_fmap, Forall_forall. intros i _. cbv beta. eauto.
Qed.

Lemma X25_witness :
  exists loss rewards,
    Train.batch (fun hypo refs => inject_Z (Z.of_nat (length refs)))
      unit nat nat Mock.caption_encoder Mock.init_hidden_state
      (Mock.decoder_step [3; 4; 2]) (Mock.decoder_step [3; 4; 2])
      Mock.multinomial Mock.word_map [[1; 3; 2]; [1; 4; 2]] [3; 3]
      [[[1; 3; 2; 0]]; [[1; 4; 2; 0]; [1; 3; 4; 2]]] 3%nat
    = Some (loss, rewards)
    /\ shape 2 18 rewards.
Proof.
  destruct (Mock.forward [3; 4; 2] Mock.word_map [[1; 3; 2]; [1; 4; 2]] [3; 3]
              true false 3%nat) as [[greedy_res lp0]|] eqn:E1;
    [|vm_compute in E1; discriminate E1].
  destruct (Mock.forward [3; 4; 2] Mock.word_map [[1; 3; 2]; [1; 4; 2]] [3; 3]
              false true 3%nat) as [[seq_gen seqLogprobs]|] eqn:E2;
    [|vm_compute in E2; discriminate E2].
  destruct (X25_train_batch (fun hypo refs => inject_Z (Z.of_nat (length refs)))
              unit nat nat Mock.caption_encoder Mock.init_hidden_state
              (Mock.decoder_step [3; 4; 2]) (Mock.decoder_step [3; 4; 2])
              Mock.multinomial Mock.word_map 1 0 2 [[1; 3; 2]; [1; 4; 2]] [3; 3]
              [[[1; 3; 2; 0]]; [[1; 4; 2; 0]; [1; 3; 4; 2]]] 3%nat
              greedy_res seq_gen lp0 seqLogprobs)
    as (loss & rewards & H & Hshape & _);
    [reflexivity|reflexivity|reflexivity|simpl; lia|reflexivity|exact E1|exact E2|].
  exists loss, rewards. split; [exact H|exact Hshape].
Defined.

(** *** Length of the captions of the beam search *)

Section LengthFacts.
Variables Enc Row : Type.
Variable decoder_row : Enc -> Row -> Z -> Row * (nat -> Q).
Variable word_map : gmap string Z.

Local Abbreviation body := (Beam.body Enc Row decoder_row word_map).

Lemma body_step enc (st st' : Beam.state Row) :
  body enc st = Some (Next st') ->
  Beam.step st' = (Beam.step st + 1)%nat /\ (Beam.step st <= 50)%nat.
Proof.
  unfold Beam.body. intros H.
  destruct (Beam.select _ _ _) as [[vals words]|]; [|discriminate].
  cbn [mbind option_bind] in H.
  bind_some H. bind_some H. bind_some H. bind_some H.
  match type of H with
  | (if decide (?k = O) then _ else _) = _ =>
      destruct (decide (k = O)); [discriminate|]
  end.
  bind_some H. bind_some H. bind_some H. bind_some H. bind_some H.
  destruct (decide (50 < Beam.step st)%nat); [discriminate|].
  injection H as <-. cbn [Beam.step]. lia.
Qed.

Lemma body_lengths enc (st : Beam.state Row) c :
  (Beam.step st <= 51)%nat ->
  Forall (fun r => length r = Beam.step st) (Beam.seqs st) ->
  Forall (fun r => (length r <= 52)%nat) (Beam.complete_seqs st) ->
  body enc st = Some c ->
  Forall (fun r => (length r <= 52)%nat) (Beam.complete_seqs (ctl_state c))
  /\ match c with
     | Next st' =>
         (Beam.step st' <= 51)%nat
         /\ Forall (fun r => length r = Beam.step st') (Beam.seqs st')
     | Break _ => True
     end.
Proof.
  intros Hstep Hseqs Hdone Hb.
  destruct (body_inv _ _ _ _ _ _ _ Hb)
    as (vals & words & seqs1 & e & done_seqs & done_scores & _ & Hnew & _
        & Hds & _ & Hcs & _ & Hcase).
  assert (Hlen1 : Forall (fun r => length r = S (Beam.step st)) seqs1).
  { apply Forall_lookup. intros ind row' Hrow'.
    destruct (new_seqs_lookup _ _ _ _ _ _ Hnew Hrow') as (row & n & Hrow & _ & ->).
    rewrite Forall_forall in Hseqs. rewrite length_app, (Hseqs row Hrow).
    cbn [length]. lia. }
  assert (Hpick : forall inds r, Beam.rows_at seqs1 inds = Some r ->
                    Forall (fun row => length row = S (Beam.step st)) r).
  { intros inds r Hr. apply Forall_lookup. intros j y Hy.
    destruct (rows_at_lookup _ _ _ _ _ Hr Hy) as (i & _ & Hi).
    rewrite Forall_lookup in Hlen1. eauto. }
  split.
  - rewrite Hcs. apply Forall_app. split; [exact Hdone|].
    eapply Forall_impl; [exact (Hpick _ _ Hds)|]. intros r Hr. cbv beta in Hr. lia.
  - destruct c as [st'|st']; [|exact I].
    destruct (body_step _ _ _ Hb) as [Hs Hle].
    destruct Hcase as [(Hc & _)|(_ & Hrows & _)]; [discriminate Hc|].
    cbn [ctl_state] in Hrows. split; [lia|].
    eapply Forall_impl; [exact (Hpick _ _ Hrows)|]. intros r Hr. cbv beta in Hr. lia.
Qed.

End LengthFacts.

(** X27: the caption the beam search returns for an image has at most 50
    ids, and at most 17 when the search was stopped by the step cap. *)
Theorem X27_caption_length (Enc Row : Type)
    (caption_encoder : list (list Z) -> list Z -> option Enc) (init_row : Row)
    (decoder_row : Enc -> Row -> Z -> Row * (nat -> Q))
    (word_map : gmap string Z) (beam_size fuel : nat)
    (previous_caption : list (list Z)) (prev_caplen : list Z)
    (s e p : Z) (st : Beam.state Row) (sen : list Z) :
  word_map !! "<start>" = Some s ->
  word_map !! "<end>" = Some e ->
  word_map !! "<pad>" = Some p ->
  Beam.search Enc Row caption_encoder init_row decoder_row fuel word_map
    beam_size previous_caption prev_caplen = Exit (st, sen) ->
  (length sen <= 50)%nat
  /\ (Beam.infinite_pred st = true -> length sen <= 17)%nat.
Proof.
  intros Hs He Hp Hrun.
  destruct (chosen_caption_structure Enc Row caption_encoder init_row decoder_row
              word_map beam_size fuel previous_caption prev_caplen s e p st sen
              Hs He Hp Hrun) as (words & _ & Hch & ->).
  destruct (search_inv _ _ _ _ _ _ _ _ _ _ _ _ Hrun)
    as (enc & start & chosen & _ & _ & _ & Hloop & Hch' & _).
  assert (Hdone : Forall (fun r => (length r <= 52)%nat) (Beam.complete_seqs st)).
  { apply (while_true_inv
             (fun st => (Beam.step st <= 51)%nat
                        /\ Forall (fun r => length r = Beam.step st) (Beam.seqs st)
                        /\ Forall (fun r => (length r <= 52)%nat)
                                  (Beam.complete_seqs st))
             (fun st => Forall (fun r => (length r <= 52)%nat)
                               (Beam.complete_seqs st))
             (Beam.body Enc Row decoder_row word_map enc) fuel
             (Beam.init Row init_row beam_size start) st); [| |exact Hloop].
    - intros st0 c (H1 & H2 & H3) Hb.
      destruct (body_lengths _ _ _ _ _ _ _ H1 H2 H3 Hb) as [Hd Hc].
      destruct c as [s1|s1]; cbn [ctl_state] in Hd; tauto.
    - cbn [Beam.init Beam.seqs Beam.complete_seqs Beam.step].
      split; [lia|]. split; [|constructor]. now apply Forall_replicate. }
  clear Hch'. unfold Beam.chosen_seq in Hch.
  assert (Hfilter : forall l : list Z,
            (length (filter (fun w => negb ((w =? s)%Z || (w =? e)%Z || (w =? p)%Z)
                                      = true) l)
             <= length l)%nat).
  { intros l. induction l as [|w l IH]; [reflexivity|].
    rewrite filter_cons. destruct (decide _); cbn [length]; lia. }
  pose proof (Hfilter words) as Hle.
  destruct (Beam.infinite_pred st) eqn:Hflag.
  - destruct (Beam.seqs st !! O) as [seq0|]; [|discriminate].
    injection Hch as Hch. assert (Hlen : (length (s :: words) <= 18)%nat).
    { rewrite <- Hch, length_take. lia. }
    cbn [length] in Hlen. split; [lia|]. intros _. lia.
  - destruct (DAE.max_row _) as [best|]; [|discriminate].
    cbn [mbind option_bind] in Hch. rewrite Forall_lookup in Hdone.
    pose proof (Hdone _ _ Hch) as Hlen. cbn [length] in Hlen.
    rewrite length_app in Hlen. cbn [length] in Hlen.
    split; [lia|discriminate].
Qed.

Lemma X27_witness :
  exists st sen,
    MockBeam.search MockBeam.ends_first MockBeam.never_ends 51 = Exit (st, sen)
    /\ (length sen <= 50)%nat.
Proof.
  destruct (MockBeam.search MockBeam.ends_first MockBeam.never_ends 51)
    as [[st sen]| |] eqn:E; [|vm_compute in E; discriminate E..].
  exists st, sen. split; [reflexivity|].
  exact (proj1 (X27_caption_length unit nat Mock.caption_encoder O
                  (MockBeam.decoder_row MockBeam.ends_first MockBeam.never_ends)
                  Mock.word_map 3 51 [[1; 3; 4; 2]] [4] 1 2 0 st sen
                  eq_refl eq_refl eq_refl E)).
Defined.

(** *** The reward with the batches exchanged *)

Lemma Forall2_replicate_same {A} (P : A -> A -> Prop) n x y :
  P x y -> Forall2 P (replicate n x) (replicate n y).
Proof. intros H. induction n as [|n IH]; cbn [replicate]; constructor; auto. Qed.

(** X28: the advantage is antisymmetric: with the sampled and the greedy
    batch exchanged, every reward changes its sign. *)
Theorem X28_reward_antisymmetric (metric : list string -> list string -> Q)
    (gen greedy : list (list Z)) (gt : list (list (list Z))) (cider_weight : Q) :
  length greedy = length gen -> ncols greedy = ncols gen ->
  (length gen <= length gt)%nat ->
  exists rewards rewards',
    get_self_critical_reward metric gen greedy gt cider_weight = Some rewards
    /\ get_self_critical_reward metric greedy gen gt cider_weight = Some rewards'
    /\ Forall2 (Forall2 (fun x y => y == - x)%Q) rewards rewards'.
Proof.
  intros Hlen Hcols Hgt. eexists _, _. split; [|split].
  - apply reward_rows_weight; lia.
  - apply reward_rows_weight; lia.
  - rewrite Hlen, Hcols. apply Forall2_fmap, Forall_Forall2_diag, Forall_forall.
    intros i Hi. apply elem_of_seq in Hi. apply Forall2_replicate_same.
    cbv beta. destruct (decide (i < length gen)%nat); [|lia].
    destruct (decide (length gen + i < length gen)%nat); [lia|].
    replace (length gen + i - length gen)%nat with i by lia.
    assert (Hmod : ((length gen + i) mod length gen = i mod length gen)%nat).
    { rewrite Nat.Div0.add_mod, Nat.Div0.mod_same, Nat.add_0_l.
      now rewrite Nat.Div0.mod_mod. }
    rewrite Hmod. ring.
Qed.

Lemma X28_witness :
  exists rewards rewards',
    get_self_critical_reward (fun hypo refs => inject_Z (Z.of_nat (length hypo)))
      [[3; 4; 0]; [4; 0; 0]] [[3; 0; 0]; [4; 3; 0]] [[[3; 0]]; [[4; 0]; [3; 0]]]
      (1 # 2) = Some rewards
    /\ get_self_critical_reward (fun hypo refs => inject_Z (Z.of_nat (length hypo)))
         [[3; 0; 0]; [4; 3; 0]] [[3; 4; 0]; [4; 0; 0]] [[[3; 0]]; [[4; 0]; [3; 0]]]
         (1 # 2) = Some rewards'
    /\ Forall2 (Forall2 (fun x y => y == - x)%Q) rewards rewards'.
Proof.
  apply X28_reward_antisymmetric; [reflexivity|reflexivity|simpl; lia].
Defined.
